(** * Red-black tree insertion: the pointer programs of [thing.cpp] and
    [thing.c], embedded over an explicit node memory.

    Nodes live in a finite map from addresses to records; a pointer is an
    optional address ([None] is the C [NULL]).  Every field read goes
    through [load], which faults on [NULL] and on unallocated addresses,
    so that missing null checks of the source are visible in the model. *)

From Stdlib Require Import ZArith Lia.
From stdpp Require Import gmap list sorting.

#[local] Set Warnings "-clear-no-such-hyp,-level-tolerance".

Open Scope Z_scope.

(** ** Data model *)

Inductive color_t := RED | BLACK.

(** [byte dir], documented in the source as ranging over [{LEFT, RIGHT}]. *)
Inductive side := LEFT | RIGHT.

#[global] Instance color_eq_dec : EqDecision color_t.
Proof. solve_decision. Defined.
#[global] Instance side_eq_dec : EqDecision side.
Proof. solve_decision. Defined.

(** [1-dir] *)
Definition flip (dir : side) : side :=
  match dir with LEFT => RIGHT | RIGHT => LEFT end.

Abbreviation addr := nat (only parsing).
Abbreviation ptr := (option nat) (only parsing).

Definition NULL : ptr := None.

(** Modelled from the spec: the macro [NIL] is not part of the sources.  The
    spec allows "an explicit empty-marker" for absent children, and
    [RBinsert1] compares the uncle against [NIL] before it reads a colour,
    so [NIL] is the null pointer here. *)
Definition NIL : ptr := None.

Record RBnode := mkRBnode {
  color : color_t;
  key : Z;
  parent : ptr;
  left : ptr;
  right : ptr
}.

(** [n->child[dir]] *)
Definition child (dir : side) (n : RBnode) : ptr :=
  match dir with LEFT => left n | RIGHT => right n end.

Definition set_color (c : color_t) (n : RBnode) : RBnode :=
  mkRBnode c (key n) (parent n) (left n) (right n).
Definition set_parent (p : ptr) (n : RBnode) : RBnode :=
  mkRBnode (color n) (key n) p (left n) (right n).
Definition set_child (dir : side) (c : ptr) (n : RBnode) : RBnode :=
  match dir with
  | LEFT => mkRBnode (color n) (key n) (parent n) c (right n)
  | RIGHT => mkRBnode (color n) (key n) (parent n) (left n) c
  end.

(** The tree object [T] together with the memory its nodes live in. *)
Record RBtree := mkRBtree {
  mem : gmap nat RBnode;
  root : ptr
}.

Definition empty_tree : RBtree := mkRBtree ∅ NULL.

(** ** Outcomes of running a piece of the program *)

Inductive outcome (A : Type) :=
| Done (a : A)
| Fault          (* a field of NULL or of an unallocated node was accessed *)
| Timeout.       (* the loop budget of the model ran out *)
Arguments Done {A} a.
Arguments Fault {A}.
Arguments Timeout {A}.

#[global] Instance outcome_bind : MBind outcome := fun A B f m =>
  match m with
  | Done a => f a
  | Fault => Fault
  | Timeout => Timeout
  end.

Definition load (T : RBtree) (p : ptr) : outcome RBnode :=
  match p with
  | None => Fault
  | Some a => match mem T !! a with Some n => Done n | None => Fault end
  end.

(** [p->field = v]: read-modify-write of one record. *)
Definition upd (T : RBtree) (p : ptr) (f : RBnode -> RBnode) : outcome RBtree :=
  match p with
  | None => Fault
  | Some a =>
      match mem T !! a with
      | Some n => Done (mkRBtree (<[a := f n]> (mem T)) (root T))
      | None => Fault
      end
  end.

Definition set_root (T : RBtree) (p : ptr) : RBtree := mkRBtree (mem T) p.

(** ** Helpers the sources call but do not define *)

(** Modelled from the spec: [GetParent] is not part of the sources; it reads
    the parent back-reference of a node. *)
Definition GetParent (T : RBtree) (N : ptr) : outcome ptr :=
  n ← load T N; Done (parent n).

(** Modelled from the spec: [childDir] is not part of the sources; the call
    site documents it as "the side of parent G on which node P is located". *)
Definition childDir (T : RBtree) (P : ptr) : outcome side :=
  G ← GetParent T P;
  g ← load T G;
  Done (if decide (right g = P) then RIGHT else LEFT).

(** Modelled from the spec: [GetUncle] is not part of the sources; the uncle
    is "the sibling of a node's parent (i.e., the other child of the
    grandparent)", absent when there is no grandparent. *)
Definition GetUncle (T : RBtree) (N : ptr) : outcome ptr :=
  P ← GetParent T N;
  G ← GetParent T P;
  match G with
  | None => Done NULL
  | Some _ =>
      dir ← childDir T P;
      g ← load T G;
      Done (child (flip dir) g)
  end.

(** Modelled from the spec: the rotation primitives are not part of the
    sources.  Section 4.1: the pivot child [C] on the side opposite [dir]
    must be present; [C] takes [node]'s former position, [node] becomes the
    [dir]-side child of [C], the former [dir]-side subtree of [C] becomes
    the opposite-side subtree of [node], and the three parent
    back-references follow.  [nil] is the value that marks an absent
    child. *)
Definition rotate_links (nil : ptr) (T : RBtree) (node : ptr) (dir : side)
  : outcome (RBtree * ptr * ptr) :=
  n ← load T node;
  let G := parent n in
  let C := child (flip dir) n in
  c ← load T C;
  let B := child dir c in
  T ← upd T node (set_child (flip dir) B);
  T ← (if decide (B = nil) then Done T else upd T B (set_parent node));
  T ← upd T C (set_child dir node);
  T ← upd T node (set_parent C);
  T ← upd T C (set_parent G);
  Done (T, G, C).

(** Root-aware variant: "updates the tree's root reference when the rotated
    node was the root". *)
Definition rotate_root (nil : ptr) (T : RBtree) (node : ptr) (dir : side)
  : outcome RBtree :=
  '(T, G, C) ← rotate_links nil T node dir;
  match G with
  | None => Done (set_root T C)
  | Some _ =>
      g ← load T G;
      upd T G (set_child (if decide (right g = node) then RIGHT else LEFT) C)
  end.

(** Non-root-aware variant: "usable only when the caller has proven the
    rotated node cannot be the root"; it dereferences the former parent
    without a check. *)
Definition rotate_inner (nil : ptr) (T : RBtree) (node : ptr) (dir : side)
  : outcome RBtree :=
  '(T, G, C) ← rotate_links nil T node dir;
  g ← load T G;
  upd T G (set_child (if decide (right g = node) then RIGHT else LEFT) C).

(** Modelled from the spec: [RotateDirRoot] and [RotateDir] are not part of
    the sources; they are the root-aware and the non-root-aware rotation of
    section 4.1, with absent children compared against [NIL]. *)
Definition RotateDirRoot : RBtree → ptr → side → outcome RBtree :=
  rotate_root NIL.
Definition RotateDir : RBtree → ptr → side → outcome RBtree :=
  rotate_inner NIL.

(** ** [RBinsert1] of thing.cpp *)

(** Lines 10-18: initialise [N] and link it below [P]. *)
Definition RBinsert1_link (T : RBtree) (P N : ptr) (dir : side) : outcome RBtree :=
  T ← upd T N (set_color RED);
  T ← upd T N (set_child LEFT NIL);
  T ← upd T N (set_child RIGHT NIL);
  T ← upd T N (set_parent P);
  match P with
  | None => Done (set_root T N)
  | Some _ => upd T P (set_child dir N)
  end.

(** Case_I6: [P] is the root and red. *)
Definition Case_I6 (T : RBtree) (P : ptr) : outcome RBtree :=
  upd T P (set_color BLACK).

(** Case_I4: [N] is an inner grandchild; yields the tree and the new [N], [P]. *)
Definition Case_I4 (T : RBtree) (N P G : ptr) (dir : side)
  : outcome (RBtree * ptr * ptr) :=
  T ← RotateDir T P dir;
  let N := P in
  g ← load T G;
  let P := child dir g in
  Done (T, N, P).

(** Case_I5: [N] is an outer grandchild. *)
Definition Case_I5 (T : RBtree) (P G : ptr) (dir : side) : outcome RBtree :=
  T ← upd T P (set_color BLACK);
  T ← upd T G (set_color RED);
  RotateDirRoot T G (flip dir).

(** Label Case_I45, lines 43-57. *)
Definition Case_I45 (T : RBtree) (N P G : ptr) : outcome RBtree :=
  dir ← childDir T P;
  p ← load T P;
  if decide (N = child (flip dir) p) then
    '(T, N, P) ← Case_I4 T N P G dir;
    Case_I5 T P G dir
  else
    Case_I5 T P G dir.

(** What one pass through the body of the do-while loop decided. *)
Inductive control :=
| Return (T : RBtree)             (* a [return] or a jump to a terminal label *)
| Iterate (T : RBtree) (N : ptr). (* reached the loop condition with the new [N] *)

(** Lines 22-37: the body of the do-while loop. *)
Definition loop_body (T : RBtree) (P N : ptr) : outcome control :=
  p ← load T P;
  if decide (color p = BLACK) then Done (Return T)
  else
    G ← GetParent T P;
    match G with
    | None => T ← Case_I6 T P; Done (Return T)
    | Some _ =>
        U ← GetUncle T N;
        match U with
        | None => T ← Case_I45 T N P G; Done (Return T)
        | Some _ =>
            u ← load T U;
            if decide (color u = BLACK) then
              T ← Case_I45 T N P G; Done (Return T)
            else
              T ← upd T P (set_color BLACK);
              T ← upd T U (set_color BLACK);
              T ← upd T G (set_color RED);
              Done (Iterate T G)
        end
    end.

(** Lines 21-41: the do-while loop with its condition [(P = N->parent) != NULL].
    The source has no bound on the number of passes; [fuel] is the budget
    of the model, and [Timeout] stands for a run that needs more. *)
Fixpoint RBinsert1_loop (fuel : nat) (T : RBtree) (P N : ptr) : outcome RBtree :=
  match fuel with
  | O => Timeout
  | S fuel =>
      r ← loop_body T P N;
      match r with
      | Return T => Done T
      | Iterate T N =>
          P ← GetParent T N;
          match P with
          | None => Done T      (* Case_I2 *)
          | Some _ => RBinsert1_loop fuel T P N
          end
      end
  end.

Definition RBinsert1 (fuel : nat) (T : RBtree) (P N : ptr) (dir : side)
  : outcome RBtree :=
  T ← RBinsert1_link T P N dir;
  match P with
  | None => Done T
  | Some _ => RBinsert1_loop fuel T P N
  end.

(** ** Plain insertion *)

(** Modelled from the spec: the descent of section 4.2 is not part of the
    sources.  It compares the key with each visited node and goes left when
    the key is smaller, right otherwise, until it reaches an absent child
    (a child equal to [nil]). *)
Fixpoint descend (nil : ptr) (fuel : nat) (T : RBtree) (cur : ptr) (k : Z)
  : outcome (ptr * side) :=
  match fuel with
  | O => Timeout
  | S fuel =>
      n ← load T cur;
      let dir := if decide (k < key n)%Z then LEFT else RIGHT in
      if decide (child dir n = nil) then Done (cur, dir)
      else descend nil fuel T (child dir n) k
  end.

(** Modelled from the spec: allocation of the node handed to [RBinsert1];
    only its key is meaningful before the call. *)
Definition alloc (T : RBtree) (k : Z) : RBtree * ptr :=
  let a := fresh (dom (mem T)) in
  (mkRBtree (<[a := mkRBnode BLACK k NULL NULL NULL]> (mem T)) (root T), Some a).

(** Modelled from the spec: [insert(key)] of section 6, the descent followed
    by the fixup of the source.  The loop budgets are the number of
    allocated nodes. *)
Definition insert (k : Z) (T : RBtree) : outcome RBtree :=
  let fuel := S (size (mem T)) in
  match root T with
  | None =>
      let '(T, N) := alloc T k in
      RBinsert1 fuel T NULL N LEFT
  | Some _ =>
      '(P, dir) ← descend NIL fuel T (root T) k;
      let '(T, N) := alloc T k in
      RBinsert1 fuel T P N dir
  end.

(** The states after each insertion of a sequence, oldest first. *)
Fixpoint insert_trace (ks : list Z) (T : RBtree) : outcome (list RBtree) :=
  match ks with
  | [] => Done []
  | k :: ks =>
      T ← insert k T;
      rest ← insert_trace ks T;
      Done (T :: rest)
  end.

Definition insert_all (ks : list Z) (T : RBtree) : outcome RBtree :=
  foldl (fun acc k => T ← acc; insert k T) (Done T) ks.

(** ** [rb_insert] of thing.c *)

Section thing_c.

(** The source does not say how an absent child is stored; [nil] is that
    value: [NULL], or the address of a sentinel node. *)
Variable nil : ptr.

(** Modelled from the spec: [tree_insert] ("insert in the tree in the usual
    way") is not part of the sources; section 4.2: descend to an absent
    child and link the node there, with both its children absent. *)
Definition tree_insert (fuel : nat) (T : RBtree) (x : ptr)
  : outcome RBtree :=
  xn ← load T x;
  T ← upd T x (set_child LEFT nil);
  T ← upd T x (set_child RIGHT nil);
  match root T with
  | None =>
      T ← upd T x (set_parent NULL);
      Done (set_root T x)
  | Some _ =>
      '(P, dir) ← descend nil fuel T (root T) (key xn);
      T ← upd T x (set_parent P);
      upd T P (set_child dir x)
  end.

(** Modelled from the spec: [left_rotate] and [right_rotate] are not part of
    the sources; they are the root-aware rotation of section 4.1. *)
Definition left_rotate (T : RBtree) (x : ptr) : outcome RBtree :=
  rotate_root nil T x LEFT.
Definition right_rotate (T : RBtree) (x : ptr) : outcome RBtree :=
  rotate_root nil T x RIGHT.

(** Lines 11-16, "case 1 - change the colours". *)
Definition rb_case1 (T : RBtree) (x y : ptr) : outcome (RBtree * ptr) :=
  xn ← load T x;
  T ← upd T (parent xn) (set_color BLACK);
  T ← upd T y (set_color BLACK);
  xn ← load T x;
  p ← load T (parent xn);
  T ← upd T (parent p) (set_color RED);
  xn ← load T x;
  p ← load T (parent xn);
  Done (T, parent p).

(** Lines 19-29, cases 2 and 3. *)
Definition rb_case23 (T : RBtree) (x : ptr) : outcome (RBtree * ptr) :=
  xn ← load T x;
  p ← load T (parent xn);
  '(T, x) ← (if decide (x = right p) then
               let x := parent xn in
               T ← left_rotate T x;
               Done (T, x)
             else Done (T, x));
  xn ← load T x;
  T ← upd T (parent xn) (set_color BLACK);
  xn ← load T x;
  p ← load T (parent xn);
  T ← upd T (parent p) (set_color RED);
  xn ← load T x;
  p ← load T (parent xn);
  T ← right_rotate T (parent p);
  Done (T, x).

(** Lines 7-35, the body of the while loop.  The [else] branch of the
    source holds nothing but a comment. *)
Definition rb_body (T : RBtree) (x : ptr) : outcome (RBtree * ptr) :=
  xn ← load T x;
  p ← load T (parent xn);
  g ← load T (parent p);
  if decide (parent xn = left g) then
    let y := right g in
    yn ← load T y;
    if decide (color yn = RED) then rb_case1 T x y
    else rb_case23 T x
  else
    Done (T, x).

(** Line 38, "Colour the root black". *)
Definition rb_finish (T : RBtree) : outcome RBtree :=
  upd T (root T) (set_color BLACK).

(** Lines 6-38: the while loop and the statement after it; [fuel] bounds the
    number of passes as in [RBinsert1_loop]. *)
Fixpoint rb_while (fuel : nat) (T : RBtree) (x : ptr) : outcome RBtree :=
  match fuel with
  | O => Timeout
  | S fuel =>
      if decide (x = root T) then rb_finish T
      else
        xn ← load T x;
        p ← load T (parent xn);
        if decide (color p = RED) then
          '(T, x) ← rb_body T x;
          rb_while fuel T x
        else rb_finish T
  end.

Definition rb_insert (fuel : nat) (T : RBtree) (x : ptr) : outcome RBtree :=
  T ← tree_insert fuel T x;
  T ← upd T x (set_color RED);
  rb_while fuel T x.

End thing_c.

(** ** The tree a memory holds, and [validate] *)

(** Nodes carry their address, so that the shape read back from memory
    determines the memory it was read from. *)
Inductive tree :=
| Leaf
| Node (c : color_t) (l : tree) (a : nat) (k : Z) (r : tree).

(** Colour of a subtree's root; "NIL/absent leaves are BLACK". *)
Definition rc (t : tree) : color_t :=
  match t with Leaf => BLACK | Node c _ _ _ _ => c end.

Definition root_ptr (t : tree) : ptr :=
  match t with Leaf => None | Node _ _ a _ _ => Some a end.

Definition root_key (t : tree) : option Z :=
  match t with Leaf => None | Node _ _ _ k _ => Some k end.

Fixpoint inorder (t : tree) : list Z :=
  match t with
  | Leaf => []
  | Node _ l _ k r => inorder l ++ k :: inorder r
  end.

Fixpoint height (t : tree) : nat :=
  match t with
  | Leaf => O
  | Node _ l _ _ r => S (Nat.max (height l) (height r))
  end.

(** Follows the child links from [p], checking every parent back-reference
    on the way; [None] on a dangling link, a parent link that disagrees, or
    when the budget runs out (a cycle). *)
Fixpoint reify (fuel : nat) (m : gmap nat RBnode) (par p : ptr) : option tree :=
  match p with
  | None => Some Leaf
  | Some a =>
      match fuel with
      | O => None
      | S fuel =>
          n ← m !! a;
          if decide (parent n = par) then
            l ← reify fuel m (Some a) (left n);
            r ← reify fuel m (Some a) (right n);
            Some (Node (color n) l a (key n) r)
          else None
      end
  end.

Definition tree_of (T : RBtree) : option tree :=
  reify (S (size (mem T))) (mem T) NULL (root T).

(** Invariant 2. *)
Definition root_black (t : tree) : bool := bool_decide (rc t = BLACK).

(** Invariant 3. *)
Fixpoint no_red_red (t : tree) : bool :=
  match t with
  | Leaf => true
  | Node c l _ _ r =>
      (match c with
       | RED => bool_decide (rc l = BLACK) && bool_decide (rc r = BLACK)
       | BLACK => true
       end) && no_red_red l && no_red_red r
  end.

(** Invariant 4: the number of BLACK nodes on every path from the root of
    [t] down to an absent leaf, counting the root of [t] and not counting
    the absent leaf; [None] when two paths disagree.  Invariant 4 needs
    only that the counts of the paths agree; the black-height of a node as
    the glossary defines it leaves the node itself out, and is
    [black_height_below]. *)
Fixpoint black_height (t : tree) : option nat :=
  match t with
  | Leaf => Some O
  | Node c l _ _ r =>
      hl ← black_height l;
      hr ← black_height r;
      if decide (hl = hr)
      then Some (match c with BLACK => S hl | RED => hl end)
      else None
  end.

(** The black-height of the root of [t] as the glossary has it: the number
    of BLACK nodes on every path from the root of [t] down to an absent
    leaf, excluding the root of [t] itself; [None] when two paths
    disagree. *)
Definition black_height_below (t : tree) : option nat :=
  match t with
  | Leaf => Some O
  | Node _ l _ _ r =>
      hl ← black_height l;
      hr ← black_height r;
      if decide (hl = hr) then Some hl else None
  end.

(** Invariant 5: "all keys in its left subtree are <= it, all keys in its
    right subtree are >= it". *)
Fixpoint bst_ordered (t : tree) : bool :=
  match t with
  | Leaf => true
  | Node _ l _ k r =>
      forallb (fun x => bool_decide (x ≤ k)%Z) (inorder l)
      && forallb (fun x => bool_decide (k ≤ x)%Z) (inorder r)
      && bst_ordered l && bst_ordered r
  end.

(** Invariants 1, 3, 4 and 5 (invariant 1 is carried by the types: a colour
    is RED or BLACK, and [rc Leaf = BLACK]). *)
Definition balanced (t : tree) : bool :=
  no_red_red t && bool_decide (is_Some (black_height t)) && bst_ordered t.

(** Modelled from the spec: [validate()] of section 6 is not part of the
    sources; it "checks all five invariants in §3". *)
Definition validate (T : RBtree) : bool :=
  match tree_of T with
  | Some t => root_black t && balanced t
  | None => false
  end.

(** [validate] without the root-colour check (invariants 1, 3, 4, 5). *)
Definition validate_balanced (T : RBtree) : bool :=
  match tree_of T with
  | Some t => balanced t
  | None => false
  end.

(** ** Trees with a hole: the path from the current node up to the root *)

(** One step of the path: the hole is the [f_dir]-side child of a node
    whose other child is the subtree [f_sib]. *)
Record frame := Frame {
  f_dir : side;
  f_color : color_t;
  f_addr : nat;
  f_key : Z;
  f_sib : tree
}.

Definition fill1 (f : frame) (t : tree) : tree :=
  match f_dir f with
  | LEFT => Node (f_color f) t (f_addr f) (f_key f) (f_sib f)
  | RIGHT => Node (f_color f) (f_sib f) (f_addr f) (f_key f) t
  end.

(** Innermost frame first. *)
Fixpoint fill (ctx : list frame) (t : tree) : tree :=
  match ctx with
  | [] => t
  | f :: ctx => fill ctx (fill1 f t)
  end.

Definition ctx_par (ctx : list frame) : ptr :=
  match ctx with [] => None | f :: _ => Some (f_addr f) end.

Fixpoint addrs (t : tree) : gset nat :=
  match t with
  | Leaf => ∅
  | Node _ l a _ r => {[a]} ∪ addrs l ∪ addrs r
  end.

(** No address occurs twice. *)
Fixpoint distinct (t : tree) : Prop :=
  match t with
  | Leaf => True
  | Node _ l a _ r =>
      a ∉ addrs l ∧ a ∉ addrs r ∧ (addrs l ## addrs r) ∧ distinct l ∧ distinct r
  end.

(** The memory [m] holds the tree [t] below a node (or root slot) [par]. *)
Fixpoint rep (m : gmap nat RBnode) (par : ptr) (t : tree) : Prop :=
  match t with
  | Leaf => True
  | Node c l a k r =>
      m !! a = Some (mkRBnode c k par (root_ptr l) (root_ptr r))
      ∧ rep m (Some a) l ∧ rep m (Some a) r
  end.

(** The tree object [T] holds the tree [t]; the memory may have further
    allocated nodes that are not linked into the tree. *)
Record holds (T : RBtree) (t : tree) : Prop := mkHolds {
  holds_root : root T = root_ptr t;
  holds_rep : rep (mem T) None t;
  holds_distinct : distinct t;
  holds_dom : addrs t ⊆ dom (mem T)
}.

Fixpoint addrs_ctx (ctx : list frame) : gset nat :=
  match ctx with
  | [] => ∅
  | f :: ctx => {[f_addr f]} ∪ addrs (f_sib f) ∪ addrs_ctx ctx
  end.

Fixpoint distinct_ctx (ctx : list frame) : Prop :=
  match ctx with
  | [] => True
  | f :: ctx =>
      f_addr f ∉ addrs (f_sib f) ∧ distinct (f_sib f)
      ∧ (({[f_addr f]} ∪ addrs (f_sib f)) ## addrs_ctx ctx)
      ∧ distinct_ctx ctx
  end.

(** The record of the node of frame [f], whose parent is [par] and whose
    [f_dir]-side child is [hole]. *)
Definition frame_node (f : frame) (par hole : ptr) : RBnode :=
  match f_dir f with
  | LEFT => mkRBnode (f_color f) (f_key f) par hole (root_ptr (f_sib f))
  | RIGHT => mkRBnode (f_color f) (f_key f) par (root_ptr (f_sib f)) hole
  end.

(** The memory [m] holds the path [ctx] above a hole that contains [hole]. *)
Fixpoint repc (m : gmap nat RBnode) (ctx : list frame) (hole : ptr) : Prop :=
  match ctx with
  | [] => True
  | f :: ctx =>
      m !! f_addr f = Some (frame_node f (ctx_par ctx) hole)
      ∧ rep m (Some (f_addr f)) (f_sib f)
      ∧ repc m ctx (Some (f_addr f))
  end.

(** The root pointer of a tree with path [ctx] and [hole] in the hole. *)
Definition ctx_root (ctx : list frame) (hole : ptr) : ptr :=
  match last ctx with None => hole | Some f => Some (f_addr f) end.

(** Pure rotation of the root of [t] toward [dir]. *)
Definition rot (dir : side) (t : tree) : option tree :=
  match dir, t with
  | LEFT, Node cn a n kn (Node cc b c kc d) =>
      Some (Node cc (Node cn a n kn b) c kc d)
  | RIGHT, Node cn (Node cc a c kc b) n kn d =>
      Some (Node cc a c kc (Node cn b n kn d))
  | _, _ => None
  end.

(** ** The red-black invariants as predicates *)

(** No RED node of [t] has a RED child and every path from the root of [t]
    to an absent leaf crosses [n] BLACK nodes. *)
Inductive RB : nat → tree → Prop :=
| RB_leaf : RB O Leaf
| RB_red l a k r n :
    RB n l → RB n r → rc l = BLACK → rc r = BLACK → RB n (Node RED l a k r)
| RB_black l a k r n :
    RB n l → RB n r → RB (S n) (Node BLACK l a k r).

(** Black-height of a node of colour [c] over children of black-height [n]. *)
Definition bump (c : color_t) (n : nat) : nat :=
  match c with BLACK => S n | RED => n end.

(** The path [ctx] accepts in its hole a subtree of black-height [n] whose
    root has colour [c]. *)
Fixpoint RBC (ctx : list frame) (n : nat) (c : color_t) : Prop :=
  match ctx with
  | [] => True
  | f :: ctx =>
      RB n (f_sib f)
      ∧ (f_color f = RED → c = BLACK ∧ rc (f_sib f) = BLACK)
      ∧ RBC ctx (bump (f_color f) n) (f_color f)
  end.

(** Invariant 5 on the in-order sequence of keys. *)
Definition sorted (l : list Z) : Prop := StronglySorted Z.le l.

(** ** What the cases of the fixup do to the tree *)

(** The frame [f] with its node coloured [c]. *)
Definition paint (c : color_t) (f : frame) : frame :=
  Frame (f_dir f) c (f_addr f) (f_key f) (f_sib f).

(** The frame [f] with its sibling subtree replaced by [s]. *)
Definition with_sib (s : tree) (f : frame) : frame :=
  Frame (f_dir f) (f_color f) (f_addr f) (f_key f) s.

(** The tree [t] with its root coloured [c]. *)
Definition recolor (c : color_t) (t : tree) : tree :=
  match t with Leaf => Leaf | Node _ l a k r => Node c l a k r end.

(** What Case_I5 makes of the subtree below [G], whose hole holds [tP]. *)
Definition case_I5_tree (fG : frame) (tP : tree) : option tree :=
  rot (flip (f_dir fG)) (fill1 (paint RED fG) (recolor BLACK tP)).

(** What the code at label Case_I45 makes of the subtree below [G]. *)
Definition case_I45_tree (fP fG : frame) (tN : tree) : option tree :=
  if decide (f_dir fP = f_dir fG) then case_I5_tree fG (fill1 fP tN)
  else tP ← rot (f_dir fG) (fill1 fP tN); case_I5_tree fG tP.

(** ** The descent, on trees *)

(** The path from the absent child where the descent for [k] ends, up to
    the root of [t], followed by [ctx]. *)
Fixpoint ins_path (k : Z) (t : tree) (ctx : list frame) : list frame :=
  match t with
  | Leaf => ctx
  | Node c l a x r =>
      if decide (k < x)%Z then ins_path k l (Frame LEFT c a x r :: ctx)
      else ins_path k r (Frame RIGHT c a x l :: ctx)
  end.

(** The side of the hole below the innermost node of a path. *)
Definition ctx_dir (ctx : list frame) : side :=
  match ctx with [] => LEFT | f :: _ => f_dir f end.

(** Keys to the left and to the right of the hole of a path, in order. *)
Fixpoint ctx_left (ctx : list frame) : list Z :=
  match ctx with
  | [] => []
  | f :: ctx =>
      ctx_left ctx ++
      match f_dir f with LEFT => [] | RIGHT => inorder (f_sib f) ++ [f_key f] end
  end.

Fixpoint ctx_right (ctx : list frame) : list Z :=
  match ctx with
  | [] => []
  | f :: ctx =>
      match f_dir f with LEFT => f_key f :: inorder (f_sib f) | RIGHT => [] end
      ++ ctx_right ctx
  end.

(** The tree object holds a tree that satisfies invariants 1, 3, 4 and 5. *)
Definition wf (T : RBtree) : Prop :=
  ∃ t n, holds T t ∧ RB n t ∧ sorted (inorder t).

(** ** Observations used in the statements *)

Definition node_color (T : RBtree) (p : ptr) : option color_t :=
  a ← p; n ← mem T !! a; Some (color n).

(** Same nodes with the same keys: nothing was allocated or freed. *)
Definition same_nodes (T T' : RBtree) : Prop :=
  dom (mem T') = dom (mem T)
  ∧ ∀ a n, mem T !! a = Some n → ∃ n', mem T' !! a = Some n' ∧ key n' = key n.

(** Same nodes, keys and links; only colours may differ. *)
Definition same_links (T T' : RBtree) : Prop :=
  root T' = root T
  ∧ dom (mem T') = dom (mem T)
  ∧ ∀ a n, mem T !! a = Some n →
      ∃ n', mem T' !! a = Some n' ∧ key n' = key n ∧ parent n' = parent n
            ∧ left n' = left n ∧ right n' = right n.

(** [a] can be reached from the root through child links. *)
Inductive reachable (T : RBtree) : nat → Prop :=
| reach_root a : root T = Some a → reachable T a
| reach_child b n d a :
    reachable T b → mem T !! b = Some n → child d n = Some a → reachable T a.

(** [N] is the [dir]-side child of [P], which is the [dir]-side child of
    [G]: an outer grandchild. *)
Definition outer_shape (T : RBtree) (N P G : ptr) (dir : side) : Prop :=
  ∃ p g, load T P = Done p ∧ child dir p = N
         ∧ load T G = Done g ∧ child dir g = P.

(** The same with [N] on the other side of [P]: an inner grandchild. *)
Definition inner_shape (T : RBtree) (N P G : ptr) (dir : side) : Prop :=
  ∃ p g, load T P = Done p ∧ child (flip dir) p = N
         ∧ load T G = Done g ∧ child dir g = P.

(** The child slots that point to [C]. *)
Definition links_to (T : RBtree) (C : nat) : list (nat * side) :=
  flat_map (λ bn : nat * RBnode,
      (if decide (left bn.2 = Some C) then [(bn.1, LEFT)] else [])
      ++ (if decide (right bn.2 = Some C) then [(bn.1, RIGHT)] else []))
    (map_to_list (mem T)).

(** The memory after lines 10-18 ran with a parent [P]. *)
Definition linked (T : RBtree) (P N : nat) (dir : side) (n0 p0 : RBnode) : RBtree :=
  mkRBtree (<[P := set_child dir (Some N) p0]>
              (<[N := mkRBnode RED (key n0) (Some P) NIL NIL]> (mem T)))
           (root T).

(** Concrete states used as examples. *)
Definition mem_of (l : list (nat * RBnode)) : gmap nat RBnode := list_to_map l.

#[local] Instance distinct_dec t : Decision (distinct t).
Proof. induction t; simpl; apply _. Defined.

(** ** Concrete states *)

(** 2B(1R, 3R) with the new RED node 4 linked below 3: RED parent, RED uncle. *)
Definition exI1 : RBtree :=
  mkRBtree (mem_of [(0%nat, mkRBnode RED 1 (Some 1%nat) None None);
                    (1%nat, mkRBnode BLACK 2 None (Some 0%nat) (Some 2%nat));
                    (2%nat, mkRBnode RED 3 (Some 1%nat) None (Some 3%nat));
                    (3%nat, mkRBnode RED 4 (Some 2%nat) None None)]) (Some 1%nat).

(** 1B(-, 3R) with the new RED node 2 linked to the left of 3: an inner
    grandchild with an absent uncle. *)
Definition exI4 : RBtree :=
  mkRBtree (mem_of [(0%nat, mkRBnode BLACK 1 None None (Some 1%nat));
                    (1%nat, mkRBnode RED 3 (Some 0%nat) (Some 2%nat) None);
                    (2%nat, mkRBnode RED 2 (Some 1%nat) None None)]) (Some 0%nat).

(** 5B(3R, -) and a fresh node with key 1, absent children stored as NULL. *)
Definition ex_null : RBtree :=
  mkRBtree (mem_of [(1%nat, mkRBnode BLACK 5 None (Some 2%nat) None);
                    (2%nat, mkRBnode RED 3 (Some 1%nat) None None);
                    (3%nat, mkRBnode BLACK 1 None None None)]) (Some 1%nat).

(** The same tree with absent children stored as the BLACK sentinel at
    address 0. *)
Definition ex_sentinel : RBtree :=
  mkRBtree (mem_of [(0%nat, mkRBnode BLACK 0 None None None);
                    (1%nat, mkRBnode BLACK 5 None (Some 2%nat) (Some 0%nat));
                    (2%nat, mkRBnode RED 3 (Some 1%nat) (Some 0%nat) (Some 0%nat));
                    (3%nat, mkRBnode BLACK 1 None None None)]) (Some 1%nat).

(** 1B(-, 2R) with a sentinel at address 0, and a fresh node with key 3. *)
Definition ex_right : RBtree :=
  mkRBtree (mem_of [(0%nat, mkRBnode BLACK 0 None None None);
                    (1%nat, mkRBnode BLACK 1 None (Some 0%nat) (Some 2%nat));
                    (2%nat, mkRBnode RED 2 (Some 1%nat) (Some 0%nat) (Some 0%nat));
                    (3%nat, mkRBnode BLACK 3 None None None)]) (Some 1%nat).

(** 2B(1R, -) and a fresh node at address 2. *)
Definition ex_occupied : RBtree :=
  mkRBtree (mem_of [(0%nat, mkRBnode BLACK 2 None (Some 1%nat) None);
                    (1%nat, mkRBnode RED 1 (Some 0%nat) None None);
                    (2%nat, mkRBnode BLACK 0 None None None)]) (Some 0%nat).

(** The RED root 1 with the new RED node 2 linked to its right. *)
Definition exI6 : RBtree :=
  mkRBtree (mem_of [(0%nat, mkRBnode RED 1 None None (Some 1%nat));
                    (1%nat, mkRBnode RED 2 (Some 0%nat) None None)]) (Some 0%nat).

(** [ex_null] and [ex_sentinel] once the new node 1 is linked to the left of
    3 and coloured RED. *)
Definition ex_null_linked : RBtree :=
  mkRBtree (mem_of [(1%nat, mkRBnode BLACK 5 None (Some 2%nat) None);
                    (2%nat, mkRBnode RED 3 (Some 1%nat) (Some 3%nat) None);
                    (3%nat, mkRBnode RED 1 (Some 2%nat) None None)]) (Some 1%nat).

Definition ex_sentinel_linked : RBtree :=
  mkRBtree (mem_of [(0%nat, mkRBnode BLACK 0 None None None);
                    (1%nat, mkRBnode BLACK 5 None (Some 2%nat) (Some 0%nat));
                    (2%nat, mkRBnode RED 3 (Some 1%nat) (Some 3%nat) (Some 0%nat));
                    (3%nat, mkRBnode RED 1 (Some 2%nat) (Some 0%nat) (Some 0%nat))])
           (Some 1%nat).

(** The one-node tree 1B. *)
Definition ex_root : RBtree :=
  mkRBtree (mem_of [(0%nat, mkRBnode BLACK 1 None None None)]) (Some 0%nat).

(** A single allocated node and no tree yet. *)
Definition ex_fresh : RBtree :=
  mkRBtree (mem_of [(0%nat, mkRBnode BLACK 1 None None None)]) NULL.

(** The one-node tree 1R, a RED root. *)
Definition ex_red_root : RBtree :=
  mkRBtree (mem_of [(0%nat, mkRBnode RED 1 None None None)]) (Some 0%nat).

(** 2B(1R, 3R), absent children stored as NULL. *)
Definition ex_red_uncle_null : RBtree :=
  mkRBtree (mem_of [(0%nat, mkRBnode RED 1 (Some 1%nat) None None);
                    (1%nat, mkRBnode BLACK 2 None (Some 0%nat) (Some 2%nat));
                    (2%nat, mkRBnode RED 3 (Some 1%nat) None None)]) (Some 1%nat).

(** ** Black-height along a path *)

(** The black-height of a tree whose hole, below the path [ctx], holds a
    subtree of black-height [n]. *)
Fixpoint ctx_bh (ctx : list frame) (n : nat) : nat :=
  match ctx with
  | [] => n
  | f :: ctx => ctx_bh ctx (bump (f_color f) n)
  end.

(** The RED root 5 with the RED left child 3 (not a red-black tree), and a
    fresh node with key 1 at address 2. *)
Definition ex_red_chain : RBtree :=
  mkRBtree (mem_of [(0%nat, mkRBnode RED 5 None (Some 1%nat) None);
                    (1%nat, mkRBnode RED 3 (Some 0%nat) None None)]) (Some 0%nat).

(** ** Trees whose absent children are a sentinel node

    [rb_insert] of thing.c reads the colour of an uncle that may be an
    absent child, so it needs absent children stored as the address [s] of
    a BLACK sentinel node; the next predicates are [rep] and [holds] for
    that storage. *)

(** The pointer stored for the subtree [t]. *)
Definition sptr (s : nat) (t : tree) : ptr :=
  match t with Leaf => Some s | Node _ _ a _ _ => Some a end.

(** The memory [m] holds the tree [t] below a node (or root slot) [par]. *)
Fixpoint srep (s : nat) (m : gmap nat RBnode) (par : ptr) (t : tree) : Prop :=
  match t with
  | Leaf => True
  | Node c l a k r =>
      m !! a = Some (mkRBnode c k par (sptr s l) (sptr s r))
      ∧ srep s m (Some a) l ∧ srep s m (Some a) r
  end.

(** The sentinel is allocated and BLACK. *)
Definition sentinel (s : nat) (m : gmap nat RBnode) : Prop :=
  ∃ sn, m !! s = Some sn ∧ color sn = BLACK.

(** The tree object [T] holds the tree [t] with the sentinel [s]; the root
    reference of an empty tree is [NULL], and the parent of the root is
    [NULL]. *)
Record sholds (s : nat) (T : RBtree) (t : tree) : Prop := mkSholds {
  sholds_root : root T = root_ptr t;
  sholds_rep : srep s (mem T) None t;
  sholds_distinct : distinct t;
  sholds_fresh : s ∉ addrs t;
  sholds_sentinel : sentinel s (mem T)
}.

(** [frame_node] and [repc] for that storage. *)
Definition sframe_node (s : nat) (f : frame) (par hole : ptr) : RBnode :=
  match f_dir f with
  | LEFT => mkRBnode (f_color f) (f_key f) par hole (sptr s (f_sib f))
  | RIGHT => mkRBnode (f_color f) (f_key f) par (sptr s (f_sib f)) hole
  end.

Fixpoint srepc (s : nat) (m : gmap nat RBnode) (ctx : list frame) (hole : ptr) : Prop :=
  match ctx with
  | [] => True
  | f :: ctx =>
      m !! f_addr f = Some (sframe_node s f (ctx_par ctx) hole)
      ∧ srep s m (Some (f_addr f)) (f_sib f)
      ∧ srepc s m ctx (Some (f_addr f))
  end.

(** Whether the loop of [rb_insert], started at the hole of the path
    [ctx], only ever meets RED parents that are left children: the parent
    of the current node is the first frame, the grandparent the second,
    and the loop moves up two frames when the uncle is RED. *)
Fixpoint left_ok (ctx : list frame) : bool :=
  match ctx with
  | fP :: fG :: ctx' =>
      match f_color fP with
      | BLACK => true
      | RED =>
          match f_dir fG with
          | RIGHT => false
          | LEFT => match rc (f_sib fG) with RED => left_ok ctx' | BLACK => true end
          end
      end
  | _ => true
  end.

(** Reading back a tree stored with the sentinel [s]: as [reify], with a
    child equal to the sentinel for an absent child. *)
Fixpoint sreify (s : nat) (fuel : nat) (m : gmap nat RBnode) (par p : ptr)
  : option tree :=
  match p with
  | None => None
  | Some a =>
      if decide (a = s) then Some Leaf
      else
        match fuel with
        | O => None
        | S fuel =>
            n ← m !! a;
            if decide (parent n = par) then
              l ← sreify s fuel m (Some a) (left n);
              r ← sreify s fuel m (Some a) (right n);
              Some (Node (color n) l a (key n) r)
            else None
        end
  end.

Definition stree_of (s : nat) (T : RBtree) : option tree :=
  match root T with
  | None => Some Leaf
  | Some _ => sreify s (S (size (mem T))) (mem T) NULL (root T)
  end.

(** Modelled from the spec: [validate()] of section 6 for a tree stored
    with a sentinel; it "checks all five invariants in §3". *)
Definition svalidate (s : nat) (T : RBtree) : bool :=
  match stree_of s T with
  | Some t => root_black t && balanced t
  | None => false
  end.

(** A red-black tree with a sentinel at address 0: 10B(5B, 20R(15B(12R,
    17R), 25B)), and a fresh node with key 11 at address 8. *)
Definition ex_deep : RBtree :=
  mkRBtree (mem_of [(0%nat, mkRBnode BLACK 0 None None None);
                    (1%nat, mkRBnode BLACK 10 None (Some 2%nat) (Some 3%nat));
                    (2%nat, mkRBnode BLACK 5 (Some 1%nat) (Some 0%nat) (Some 0%nat));
                    (3%nat, mkRBnode RED 20 (Some 1%nat) (Some 4%nat) (Some 5%nat));
                    (4%nat, mkRBnode BLACK 15 (Some 3%nat) (Some 6%nat) (Some 7%nat));
                    (5%nat, mkRBnode BLACK 25 (Some 3%nat) (Some 0%nat) (Some 0%nat));
                    (6%nat, mkRBnode RED 12 (Some 4%nat) (Some 0%nat) (Some 0%nat));
                    (7%nat, mkRBnode RED 17 (Some 4%nat) (Some 0%nat) (Some 0%nat));
                    (8%nat, mkRBnode BLACK 11 None None None)]) (Some 1%nat).

(** The tree held by [ex_deep]. *)
Definition ex_deep_tree : tree :=
  Node BLACK (Node BLACK Leaf 2 5 Leaf) 1 10
    (Node RED (Node BLACK (Node RED Leaf 6 12 Leaf) 4 15 (Node RED Leaf 7 17 Leaf))
       3 20 (Node BLACK Leaf 5 25 Leaf)).

(** The tree held by [ex_sentinel]: 5B(3R, -). *)
Definition ex_sentinel_tree : tree :=
  Node BLACK (Node RED Leaf 2 3 Leaf) 1 5 Leaf.

(** [ex_sentinel] with the key of the fresh node at address 3 changed to 4. *)
Definition ex_sentinel_inner : RBtree :=
  mkRBtree (<[3%nat := mkRBnode BLACK 4 None None None]> (mem ex_sentinel))
           (root ex_sentinel).

(** ** Larger memories, and other keys *)

(** The tree object [T] in a memory that has the further nodes [E]. *)
Definition ext (E : gmap nat RBnode) (T : RBtree) : RBtree :=
  mkRBtree (mem T ∪ E) (root T).

(** The same for what one pass through the loop body decided. *)
Definition ext_control (E : gmap nat RBnode) (r : control) : control :=
  match r with
  | Return T => Return (ext E T)
  | Iterate T N => Iterate (ext E T) N
  end.

(** The nodes of [m] at the addresses in [A]. *)
Definition restrict (A : gset nat) (m : gmap nat RBnode) : gmap nat RBnode :=
  filter (λ bn, bn.1 ∈ A) m.

(** The node [n] with its key replaced by [f (key n)], and the tree object
    with the key of every node replaced so. *)
Definition set_key (f : Z → Z) (n : RBnode) : RBnode :=
  mkRBnode (color n) (f (key n)) (parent n) (left n) (right n).

Definition kmap (f : Z → Z) (T : RBtree) : RBtree :=
  mkRBtree (set_key f <$> mem T) (root T).

(** The same for what one pass through the loop body decided. *)
Definition kmap_control (f : Z → Z) (r : control) : control :=
  match r with
  | Return T => Return (kmap f T)
  | Iterate T N => Iterate (kmap f T) N
  end.

(** ** Plain insertion on top of [rb_insert] *)

(** Modelled from the spec: [insert(key)] of section 6 on top of
    [rb_insert]: a fresh node with the key is allocated and handed to
    [rb_insert]; absent children are the sentinel [s], and the loop budget
    is the number of allocated nodes. *)
Definition c_insert (s : nat) (k : Z) (T : RBtree) : outcome RBtree :=
  let '(T, N) := alloc T k in
  rb_insert (Some s) (S (size (mem T))) T N.

(** A sequence of insertions, first key first. *)
Fixpoint c_insert_all (s : nat) (ks : list Z) (T : RBtree) : outcome RBtree :=
  match ks with
  | [] => Done T
  | k :: ks => T ← c_insert s k T; c_insert_all s ks T
  end.

(** The empty tree in a memory that holds the BLACK sentinel at address 0. *)
Definition ex_sentinel_empty : RBtree :=
  mkRBtree (mem_of [(0%nat, mkRBnode BLACK 0 None None None)]) NULL.

(** 2B(1R, 3R) with a sentinel at address 0, as [rb_insert] leaves it after
    the keys 2, 1, 3, and a fresh node with key 4 at address 4. *)
Definition ex_red_uncle : RBtree :=
  mkRBtree (mem_of [(0%nat, mkRBnode BLACK 0 None None None);
                    (1%nat, mkRBnode BLACK 2 None (Some 2%nat) (Some 3%nat));
                    (2%nat, mkRBnode RED 1 (Some 1%nat) (Some 0%nat) (Some 0%nat));
                    (3%nat, mkRBnode RED 3 (Some 1%nat) (Some 0%nat) (Some 0%nat));
                    (4%nat, mkRBnode BLACK 4 None None None)]) (Some 1%nat).

(** The tree held by [ex_red_uncle]. *)
Definition ex_red_uncle_tree : tree :=
  Node BLACK (Node RED Leaf 2 1 Leaf) 1 2 (Node RED Leaf 3 3 Leaf).

(** [ex_red_uncle] once the new node 4 is linked to the right of 3 and
    coloured RED: a RED parent that is a right child, and a RED uncle. *)
Definition ex_red_uncle_linked : RBtree :=
  mkRBtree (mem_of [(0%nat, mkRBnode BLACK 0 None None None);
                    (1%nat, mkRBnode BLACK 2 None (Some 2%nat) (Some 3%nat));
                    (2%nat, mkRBnode RED 1 (Some 1%nat) (Some 0%nat) (Some 0%nat));
                    (3%nat, mkRBnode RED 3 (Some 1%nat) (Some 0%nat) (Some 4%nat));
                    (4%nat, mkRBnode RED 4 (Some 3%nat) (Some 0%nat) (Some 0%nat))])
           (Some 1%nat).

(** 1B(-, 3R) with a sentinel at address 0, as [rb_insert] leaves it after
    the keys 1, 3, and a fresh node with key 2 at address 3. *)
Definition ex_inner : RBtree :=
  mkRBtree (mem_of [(0%nat, mkRBnode BLACK 0 None None None);
                    (1%nat, mkRBnode BLACK 1 None (Some 0%nat) (Some 2%nat));
                    (2%nat, mkRBnode RED 3 (Some 1%nat) (Some 0%nat) (Some 0%nat));
                    (3%nat, mkRBnode BLACK 2 None None None)]) (Some 1%nat).

(** [ex_inner] once the new node 2 is linked to the left of 3 and coloured
    RED: an inner grandchild below a RED parent that is a right child. *)
Definition ex_inner_linked : RBtree :=
  mkRBtree (mem_of [(0%nat, mkRBnode BLACK 0 None None None);
                    (1%nat, mkRBnode BLACK 1 None (Some 0%nat) (Some 2%nat));
                    (2%nat, mkRBnode RED 3 (Some 1%nat) (Some 3%nat) (Some 0%nat));
                    (3%nat, mkRBnode RED 2 (Some 2%nat) (Some 0%nat) (Some 0%nat))])
           (Some 1%nat).

(* ================================================================== *)
(** * Lemmas *)

(** ** Pure facts about trees and paths *)

Lemma addrs_fill1 f t : addrs (fill1 f t) = {[f_addr f]} ∪ addrs (f_sib f) ∪ addrs t.
Proof. destruct f as [[] c a k s]; unfold fill1; simpl; set_solver. Qed.

Lemma distinct_fill1 f t :
  distinct (fill1 f t) ↔
  f_addr f ∉ addrs t ∧ f_addr f ∉ addrs (f_sib f) ∧ (addrs t ## addrs (f_sib f))
  ∧ distinct t ∧ distinct (f_sib f).
Proof. destruct f as [[] c a k s]; unfold fill1; simpl; set_solver. Qed.

Lemma inorder_fill_same ctx t t' :
  inorder t = inorder t' → inorder (fill ctx t) = inorder (fill ctx t').
Proof.
  revert t t'. induction ctx as [|f ctx IH]; intros t t' E; simpl; auto.
  apply IH. destruct f as [[] c a k s]; unfold fill1; simpl; by rewrite E.
Qed.

(** ** Memory and representation *)

Lemma addrs_fill ctx t : addrs (fill ctx t) = addrs t ∪ addrs_ctx ctx.
Proof.
  revert t. induction ctx as [|f ctx IH]; intros t; simpl; [set_solver|].
  rewrite IH, addrs_fill1. set_solver.
Qed.

Lemma distinct_fill ctx t :
  distinct (fill ctx t) ↔ distinct t ∧ distinct_ctx ctx ∧ addrs t ## addrs_ctx ctx.
Proof.
  revert t. induction ctx as [|f ctx IH]; intros t; simpl; [set_solver|].
  rewrite IH, distinct_fill1, addrs_fill1. set_solver.
Qed.

Lemma root_ptr_fill1 f t : root_ptr (fill1 f t) = Some (f_addr f).
Proof. destruct f as [[] c a k s]; reflexivity. Qed.

Lemma ctx_root_fill ctx t : root_ptr (fill ctx t) = ctx_root ctx (root_ptr t).
Proof.
  revert t. induction ctx as [|f ctx IH]; intros t; [done|].
  simpl. rewrite IH, root_ptr_fill1. unfold ctx_root.
  destruct ctx as [|g ctx]; [done|]. rewrite last_cons_cons.
  destruct (last (g :: ctx)) eqn:E; [done|]. by apply last_None in E.
Qed.

Lemma fill_cons_node f ctx t : fill (f :: ctx) t ≠ Leaf.
Proof.
  revert f t. induction ctx as [|g ctx IH]; intros f t; simpl.
  - by destruct f as [[] ? ? ? ?].
  - apply (IH g).
Qed.

Lemma rep_fill1 m par f t :
  rep m par (fill1 f t) ↔
  m !! f_addr f = Some (frame_node f par (root_ptr t))
  ∧ rep m (Some (f_addr f)) (f_sib f) ∧ rep m (Some (f_addr f)) t.
Proof. destruct f as [[] c a k s]; unfold fill1, frame_node; simpl; tauto. Qed.

Lemma rep_fill m ctx t :
  rep m None (fill ctx t) ↔ rep m (ctx_par ctx) t ∧ repc m ctx (root_ptr t).
Proof.
  revert t. induction ctx as [|f ctx IH]; intros t; simpl; [tauto|].
  rewrite IH, rep_fill1, root_ptr_fill1. tauto.
Qed.

Lemma rep_frame m m' par t :
  (∀ a, a ∈ addrs t → m' !! a = m !! a) → rep m par t → rep m' par t.
Proof.
  revert par. induction t as [|c l IHl b k r IHr]; intros par Ha; simpl; [done|].
  intros (Hb & Hl & Hr). simpl in Ha.
  split_and!; [rewrite Ha; [done|set_solver]| |].
  - apply IHl; [|done]. intros; apply Ha; set_solver.
  - apply IHr; [|done]. intros; apply Ha; set_solver.
Qed.

Lemma repc_frame m m' ctx p :
  (∀ a, a ∈ addrs_ctx ctx → m' !! a = m !! a) → repc m ctx p → repc m' ctx p.
Proof.
  revert p. induction ctx as [|f ctx IH]; intros p Ha; simpl; [done|].
  intros (Hf & Hs & Hc). simpl in Ha. split_and!.
  - rewrite Ha; [done|set_solver].
  - eapply rep_frame; [|done]. intros; apply Ha; set_solver.
  - apply IH; [|done]. intros; apply Ha; set_solver.
Qed.

(** Redirecting the hole of a path: only the innermost node is written. *)
Lemma repc_hole m m' ctx p p' :
  distinct_ctx ctx →
  repc m ctx p →
  (∀ a, a ∈ addrs_ctx ctx → ctx_par ctx ≠ Some a → m' !! a = m !! a) →
  match ctx with
  | [] => True
  | f :: _ => ∃ n, m !! f_addr f = Some n
                ∧ m' !! f_addr f = Some (set_child (f_dir f) p' n)
  end →
  repc m' ctx p'.
Proof.
  destruct ctx as [|f ctx]; simpl; [done|].
  intros (D1 & D2 & D3 & D4) (Hf & Hs & Hc) Hsame (n & Hn & Hn').
  split_and!.
  - rewrite Hn'. rewrite Hf in Hn. inversion Hn; subst n.
    destruct f as [[] c a k s]; reflexivity.
  - eapply rep_frame; [|done]. intros a Ha. apply Hsame; [set_solver|].
    intros [=]. set_solver.
  - eapply repc_frame; [|done]. intros a Ha. apply Hsame; [set_solver|].
    intros [=]. set_solver.
Qed.

(** ** Reading and writing a held tree *)

Lemma holds_lookup T ctx c l a k r :
  holds T (fill ctx (Node c l a k r)) →
  mem T !! a = Some (mkRBnode c k (ctx_par ctx) (root_ptr l) (root_ptr r)).
Proof. intros [_ R _ _]. apply rep_fill in R as [R _]. apply R. Qed.

Lemma load_fill T ctx c l a k r :
  holds T (fill ctx (Node c l a k r)) →
  load T (Some a) = Done (mkRBnode c k (ctx_par ctx) (root_ptr l) (root_ptr r)).
Proof. intros H. unfold load. by rewrite (holds_lookup _ _ _ _ _ _ _ H). Qed.

Lemma upd_lookup T a n f :
  mem T !! a = Some n →
  upd T (Some a) f = Done (mkRBtree (<[a := f n]> (mem T)) (root T)).
Proof. intros H. unfold upd. by rewrite H. Qed.

(** Replacing the subtree in the hole by one over the same addresses. *)
Lemma holds_replace T T' ctx t t' :
  holds T (fill ctx t) →
  addrs t' = addrs t → distinct t' →
  dom (mem T') = dom (mem T) →
  (∀ a, a ∉ addrs t → ctx_par ctx ≠ Some a → mem T' !! a = mem T !! a) →
  rep (mem T') (ctx_par ctx) t' →
  match ctx with
  | [] => True
  | f :: _ => ∃ n, mem T !! f_addr f = Some n
                ∧ mem T' !! f_addr f = Some (set_child (f_dir f) (root_ptr t') n)
  end →
  root T' = ctx_root ctx (root_ptr t') →
  holds T' (fill ctx t').
Proof.
  intros [Hr R D Hd] Ha Dt' Hd' Hsame R' Hhole Hr'.
  apply distinct_fill in D as (D1 & D2 & D3).
  apply rep_fill in R as [R1 R2].
  split.
  - by rewrite ctx_root_fill.
  - apply rep_fill. split; [done|].
    eapply repc_hole; [done|exact R2| |done].
    intros a Hin Hp. apply Hsame; [set_solver|done].
  - apply distinct_fill. rewrite Ha. done.
  - rewrite Hd', !addrs_fill, Ha. by rewrite addrs_fill in Hd.
Qed.

Lemma recolor_fill T ctx c c' l a k r :
  holds T (fill ctx (Node c l a k r)) →
  ∃ T', upd T (Some a) (set_color c') = Done T'
        ∧ holds T' (fill ctx (Node c' l a k r)).
Proof.
  intros H. pose proof (holds_lookup _ _ _ _ _ _ _ H) as Hl.
  rewrite (upd_lookup _ _ _ _ Hl). eexists; split; [done|].
  pose proof H as [Hr R D Hd].
  apply distinct_fill in D as (D1 & D2 & D3).
  apply rep_fill in R as [R1 R2]. simpl in D1, D3, R1.
  assert (Hne : ctx_par ctx ≠ Some a).
  { destruct ctx as [|f ctx]; [done|]. simpl in *. intros [=]. set_solver. }
  eapply holds_replace; [exact H|done|done|..]; simpl.
  - rewrite dom_insert_L. apply elem_of_dom_2 in Hl. set_solver.
  - intros b Hb _. rewrite lookup_insert_ne; [done|set_solver].
  - rewrite lookup_insert_eq. unfold set_color; simpl.
    split_and!; [done|..]; (eapply rep_frame; [|apply R1]);
      intros b Hb; (rewrite lookup_insert_ne; [done|set_solver]).
  - destruct ctx as [|f ctx]; [done|]. simpl in *. destruct R2 as (Hf & _).
    eexists; split; [exact Hf|]. rewrite lookup_insert_ne; [|set_solver].
    rewrite Hf. destruct f as [[] ? ? ? ?]; reflexivity.
  - rewrite Hr. apply ctx_root_fill.
Qed.

(** ** Rotations *)

Lemma rot_addrs dir t t' : rot dir t = Some t' → addrs t' = addrs t.
Proof.
  destruct dir, t as [|cn [|cc ta c kc tb] n kn [|cc' tb' c' kc' td]];
    simpl; intros [= <-]; simpl; set_solver.
Qed.

Lemma rot_distinct dir t t' : rot dir t = Some t' → distinct t → distinct t'.
Proof.
  destruct dir, t as [|cn [|cc ta c kc tb] n kn [|cc' tb' c' kc' td]];
    simpl; intros [= <-]; simpl; set_solver.
Qed.

Lemma rot_inorder dir t t' : rot dir t = Some t' → inorder t' = inorder t.
Proof.
  destruct dir, t as [|cn [|cc ta c kc tb] n kn [|cc' tb' c' kc' td]];
    simpl; intros [= <-]; simpl; by rewrite <- ?app_assoc.
Qed.

Ltac heap_simpl :=
  cbn [mbind outcome_bind load upd mem root parent left right color key child flip
       set_child set_parent set_color set_root root_ptr fst snd].

Ltac heap_step :=
  first
    [ rewrite lookup_insert_eq
    | rewrite lookup_insert_ne by congruence
    | match goal with H : ?m !! ?a = Some _ |- context [?m !! ?a] => rewrite H end ];
  heap_simpl.

Lemma rotate_links_fill T par dir t t' :
  rep (mem T) par t → distinct t → addrs t ⊆ dom (mem T) →
  rot dir t = Some t' →
  ∃ m', rotate_links NIL T (root_ptr t) dir
          = Done (mkRBtree m' (root T), par, root_ptr t')
        ∧ dom m' = dom (mem T)
        ∧ (∀ a, a ∉ addrs t → m' !! a = mem T !! a)
        ∧ rep m' par t'.
Proof.
  intros R D Hdom Hrot.
  destruct dir;
    [destruct t as [|cn ta n kn [|cc [|cb bl b kb br] c kc td]]
    |destruct t as [|cn [|cc ta c kc [|cb bl b kb br]] n kn td]];
    simpl in Hrot; try discriminate; injection Hrot as <-.
  all: simpl in R, D, Hdom; destruct_and!.
  all: assert (n ≠ c) by set_solver.
  all: try (assert (n ≠ b ∧ c ≠ b) as [??] by set_solver).
  all: unfold rotate_links, NIL; heap_simpl; repeat heap_step.
  all: destruct (decide (@eq (option nat) _ _)) as [?|?];
    [try discriminate|try congruence]; heap_simpl; repeat heap_step.
  all: eexists; split; [reflexivity|].
  all: split; [rewrite !dom_insert_L; set_solver|].
  all: split; [intros a Ha; rewrite !lookup_insert_ne by set_solver; done|].
  all: simpl; repeat heap_step.
  all: unfold set_parent; simpl.
  all: split_and!; try done.
  all: (eapply rep_frame; [|eassumption]); intros a Ha;
    rewrite !lookup_insert_ne by set_solver; done.
Qed.

Lemma rotate_root_fill T ctx dir t t' :
  holds T (fill ctx t) → rot dir t = Some t' →
  ∃ T', rotate_root NIL T (root_ptr t) dir = Done T' ∧ holds T' (fill ctx t').
Proof.
  intros H Hrot. pose proof H as [Hr R D Hd].
  apply distinct_fill in D as (D1 & D2 & D3).
  apply rep_fill in R as [R1 R2].
  destruct (rotate_links_fill T (ctx_par ctx) dir t t') as (m' & E & Hd' & Hsame & R');
    [done|done| |done|].
  { rewrite addrs_fill in Hd. set_solver. }
  unfold rotate_root. rewrite E. heap_simpl.
  pose proof (rot_addrs _ _ _ Hrot) as Ha.
  pose proof (rot_distinct _ _ _ Hrot D1) as Dt'.
  destruct ctx as [|f ctx]; simpl in *.
  - eexists; split; [reflexivity|].
    eapply (holds_replace T _ [] t t'); [exact H|done|done|..]; simpl; try done.
    intros a Ha' _. by apply Hsame.
  - destruct R2 as (Hf & Rs & Rc).
    assert (Hnf : f_addr f ∉ addrs t) by set_solver.
    rewrite (Hsame _ Hnf), Hf. heap_simpl.
    eexists; split; [reflexivity|].
    assert (Hdir : (if decide (right (frame_node f (ctx_par ctx) (root_ptr t)) = root_ptr t)
                    then RIGHT else LEFT) = f_dir f).
    { destruct f as [[] c a k s]; unfold frame_node; simpl in *.
      - destruct (decide _) as [E'|]; [|done].
        destruct t as [|? ? b ? ?]; [destruct dir; discriminate|].
        destruct s as [|? ? b' ? ?]; [discriminate|]. simpl in *.
        injection E' as ->. set_solver.
      - destruct (decide _); done. }
    rewrite Hdir.
    eapply (holds_replace T _ (f :: ctx) t t'); [exact H|done|done|..]; simpl.
    + rewrite dom_insert_L, Hd'. apply elem_of_dom_2 in Hf. set_solver.
    + intros a Ha1 Ha2. rewrite lookup_insert_ne by congruence. by apply Hsame.
    + eapply rep_frame; [|exact R']. intros a Ha'.
      rewrite lookup_insert_ne; [done|]. rewrite Ha in Ha'. set_solver.
    + eexists; split; [exact Hf|]. by rewrite lookup_insert_eq.
    + rewrite Hr. change (root_ptr (fill (f :: ctx) t) = ctx_root (f :: ctx) (root_ptr t')).
      rewrite ctx_root_fill. unfold ctx_root.
      destruct (last (f :: ctx)) eqn:El; [done|]. by apply last_None in El.
Qed.

Ltac bind_inv H :=
  repeat match type of H with
         | mbind _ ?x = Done _ =>
             destruct x eqn:?; cbn [mbind outcome_bind] in H; try discriminate H
         end.

Lemma rotate_links_parent nil T node dir T' G C :
  rotate_links nil T node dir = Done (T', G, C) →
  ∃ n, load T node = Done n ∧ G = parent n.
Proof.
  unfold rotate_links. intros H. bind_inv H.
  injection H as _ <- _. eauto.
Qed.

Lemma rotate_inner_root nil T node dir n g :
  load T node = Done n → parent n = Some g →
  rotate_inner nil T node dir = rotate_root nil T node dir.
Proof.
  intros Hl Hp. unfold rotate_inner, rotate_root.
  destruct (rotate_links nil T node dir) as [[[T1 G] C]| |] eqn:E; try done.
  apply rotate_links_parent in E as (n' & Hl' & ->).
  rewrite Hl in Hl'. injection Hl' as <-. cbn [mbind outcome_bind]. by rewrite Hp.
Qed.

Lemma rotate_inner_fill T ctx dir t t' :
  ctx ≠ [] →
  holds T (fill ctx t) → rot dir t = Some t' →
  ∃ T', rotate_inner NIL T (root_ptr t) dir = Done T' ∧ holds T' (fill ctx t').
Proof.
  intros Hne H Hrot.
  destruct (rotate_root_fill _ _ _ _ _ H Hrot) as (T' & E & H').
  exists T'. split; [|done]. rewrite <- E.
  destruct ctx as [|f ctx]; [done|].
  destruct t as [|c l a k r]; [destruct dir; discriminate|].
  eapply rotate_inner_root; [by eapply load_fill|reflexivity].
Qed.

Lemma load_frame T f ctx t :
  holds T (fill (f :: ctx) t) →
  load T (Some (f_addr f)) = Done (frame_node f (ctx_par ctx) (root_ptr t)).
Proof.
  intros [_ R _ _]. apply rep_fill in R as [_ R]. simpl in R.
  unfold load. by rewrite (proj1 R).
Qed.

Lemma recolor_frame T f ctx t c' :
  holds T (fill (f :: ctx) t) →
  ∃ T', upd T (Some (f_addr f)) (set_color c') = Done T'
        ∧ holds T' (fill (paint c' f :: ctx) t).
Proof.
  simpl. destruct f as [[] c a k s]; unfold fill1, paint; simpl; apply recolor_fill.
Qed.

Lemma fill_flip f ctx t :
  fill (f :: ctx) t
  = fill (Frame (flip (f_dir f)) (f_color f) (f_addr f) (f_key f) t :: ctx) (f_sib f).
Proof. simpl. f_equal. destruct f as [[] c a k s]; reflexivity. Qed.

Lemma load_sib T f ctx t c l a k r :
  holds T (fill (f :: ctx) t) → f_sib f = Node c l a k r →
  load T (Some a) = Done (mkRBnode c k (Some (f_addr f)) (root_ptr l) (root_ptr r)).
Proof.
  intros H Hs. rewrite fill_flip, Hs in H. by apply load_fill in H.
Qed.

Lemma recolor_sib T f ctx t c c' l a k r :
  holds T (fill (f :: ctx) t) → f_sib f = Node c l a k r →
  ∃ T', upd T (Some a) (set_color c') = Done T'
        ∧ holds T' (fill (with_sib (Node c' l a k r) f :: ctx) t).
Proof.
  intros H Hs. rewrite fill_flip, Hs in H.
  apply (recolor_fill _ _ _ c') in H as (T' & E & H'). exists T'. split; [done|].
  rewrite fill_flip. simpl. destruct f as [[] ? ? ? ?]; exact H'.
Qed.

Lemma frame_side T f ctx t :
  holds T (fill (f :: ctx) t) → t ≠ Leaf →
  (if decide (right (frame_node f (ctx_par ctx) (root_ptr t)) = root_ptr t)
   then RIGHT else LEFT) = f_dir f.
Proof.
  intros [_ _ D _] Ht. apply distinct_fill in D as (D1 & D2 & D3).
  destruct f as [[] c a k s]; unfold frame_node; simpl in *.
  - destruct (decide _) as [E'|]; [|done].
    destruct t as [|? ? b ? ?]; [done|].
    destruct s as [|? ? b' ? ?]; [discriminate|]. simpl in *.
    injection E' as ->. set_solver.
  - destruct (decide _); done.
Qed.

Lemma childDir_frame T fP fG ctx t :
  holds T (fill (fP :: fG :: ctx) t) →
  childDir T (Some (f_addr fP)) = Done (f_dir fG).
Proof.
  intros H. unfold childDir, GetParent.
  rewrite (load_frame _ _ _ _ H). cbn [mbind outcome_bind].
  assert (parent (frame_node fP (ctx_par (fG :: ctx)) (root_ptr t)) = Some (f_addr fG)) as ->.
  { destruct fP as [[] ? ? ? ?]; reflexivity. }
  change (fill (fP :: fG :: ctx) t) with (fill (fG :: ctx) (fill1 fP t)) in H.
  rewrite (load_frame _ _ _ _ H). cbn [mbind outcome_bind]. f_equal.
  rewrite <- (frame_side _ _ _ _ H), root_ptr_fill1; [done|].
  destruct fP as [[] ? ? ? ?]; done.
Qed.

Lemma GetUncle_frame T fP fG ctx c l a k r :
  holds T (fill (fP :: fG :: ctx) (Node c l a k r)) →
  GetUncle T (Some a) = Done (root_ptr (f_sib fG)).
Proof.
  intros H. unfold GetUncle, GetParent.
  assert (Hn := H). change (fill (fP :: fG :: ctx) ?t) with (fill (fG :: ctx) (fill1 fP t)) in Hn.
  rewrite (load_fill _ _ _ _ _ _ _ H). cbn [mbind outcome_bind parent ctx_par].
  rewrite (load_frame _ _ _ _ H). cbn [mbind outcome_bind].
  assert (parent (frame_node fP (ctx_par (fG :: ctx)) (root_ptr (Node c l a k r))) = Some (f_addr fG)) as ->.
  { destruct fP as [[] ? ? ? ?]; reflexivity. }
  rewrite (childDir_frame _ _ _ _ _ H). cbn [mbind outcome_bind].
  rewrite (load_frame _ _ _ _ Hn). cbn [mbind outcome_bind]. f_equal.
  destruct fG as [[] ? ? ? ?]; reflexivity.
Qed.

Lemma child_frame_node f par hole :
  child (f_dir f) (frame_node f par hole) = hole
  ∧ child (flip (f_dir f)) (frame_node f par hole) = root_ptr (f_sib f).
Proof. destruct f as [[] ? ? ? ?]; done. Qed.

Lemma rot_root_ptr dir t t' : rot dir t = Some t' → t' ≠ Leaf.
Proof.
  destruct dir, t as [|cn [|cc ta c kc tb] n kn [|cc' tb' c' kc' td]];
    simpl; intros [= <-]; done.
Qed.

Lemma Case_I5_fill T fG ctx tP t' :
  holds T (fill (fG :: ctx) tP) → tP ≠ Leaf →
  case_I5_tree fG tP = Some t' →
  ∃ T', Case_I5 T (root_ptr tP) (Some (f_addr fG)) (f_dir fG) = Done T'
        ∧ holds T' (fill ctx t').
Proof.
  intros H Hne Hc. destruct tP as [|c l p k r]; [done|]. unfold Case_I5. simpl root_ptr.
  destruct (recolor_fill _ _ _ BLACK _ _ _ _ H) as (T1 & -> & H1).
  cbn [mbind outcome_bind].
  destruct (recolor_frame _ _ _ _ RED H1) as (T2 & -> & H2).
  cbn [mbind outcome_bind].
  change (fill (paint RED fG :: ctx) ?t) with (fill ctx (fill1 (paint RED fG) t)) in H2.
  unfold case_I5_tree in Hc. simpl recolor in Hc.
  destruct (rotate_root_fill _ _ _ _ _ H2 Hc) as (T3 & E & H3).
  rewrite root_ptr_fill1 in E. exists T3. by split.
Qed.

Lemma Case_I45_fill T fP fG ctx c l n k r t' :
  holds T (fill (fP :: fG :: ctx) (Node c l n k r)) →
  case_I45_tree fP fG (Node c l n k r) = Some t' →
  ∃ T', Case_I45 T (Some n) (Some (f_addr fP)) (Some (f_addr fG)) = Done T'
        ∧ holds T' (fill ctx t').
Proof.
  intros H Hc. unfold Case_I45.
  rewrite (childDir_frame _ _ _ _ _ H). cbn [mbind outcome_bind].
  rewrite (load_frame _ _ _ _ H). cbn [mbind outcome_bind].
  assert (HP := H).
  change (fill (fP :: fG :: ctx) ?t) with (fill (fG :: ctx) (fill1 fP t)) in HP.
  unfold case_I45_tree in Hc.
  pose proof H as [_ _ D _]. apply distinct_fill in D as (D1 & D2 & D3).
  destruct (decide (f_dir fP = f_dir fG)) as [Ed|Ed].
  - rewrite decide_False.
    + rewrite <- (root_ptr_fill1 fP (Node c l n k r)).
      eapply Case_I5_fill; [done| |done]. by destruct fP as [[] ? ? ? ?].
    + rewrite <- Ed.
      destruct fP as [[] cP p kP [|? ? b ? ?]]; unfold frame_node; simpl in *;
        try done; intros [= ->]; set_solver.
  - rewrite decide_True.
    2:{ destruct fP as [[] ? ? ? ?], fG as [[] ? ? ? ?]; simpl in *; done. }
    destruct (rot (f_dir fG) (fill1 fP (Node c l n k r))) as [tP|] eqn:Er; [|done].
    simpl in Hc. unfold Case_I4, RotateDir.
    destruct (rotate_inner_fill T (fG :: ctx) (f_dir fG) _ _ ltac:(done) HP Er)
      as (T1 & E & H1).
    rewrite root_ptr_fill1 in E. rewrite E. cbn [mbind outcome_bind].
    rewrite (load_frame _ _ _ _ H1). cbn [mbind outcome_bind].
    rewrite (proj1 (child_frame_node _ _ _)).
    eapply Case_I5_fill; [done| |done]. by eapply rot_root_ptr.
Qed.

(** ** One pass through the loop body, case by case *)

Lemma frame_node_color f par hole : color (frame_node f par hole) = f_color f.
Proof. by destruct f as [[] ? ? ? ?]. Qed.

Lemma frame_node_parent f par hole : parent (frame_node f par hole) = par.
Proof. by destruct f as [[] ? ? ? ?]. Qed.

Lemma loop_body_black T fP ctx tN :
  holds T (fill (fP :: ctx) tN) → f_color fP = BLACK →
  loop_body T (Some (f_addr fP)) (root_ptr tN) = Done (Return T).
Proof.
  intros H Hc. unfold loop_body. rewrite (load_frame _ _ _ _ H).
  cbn [mbind outcome_bind]. rewrite frame_node_color. by rewrite decide_True.
Qed.

Lemma loop_body_I6 T fP tN :
  holds T (fill [fP] tN) → f_color fP = RED →
  ∃ T', loop_body T (Some (f_addr fP)) (root_ptr tN) = Done (Return T')
        ∧ holds T' (fill [paint BLACK fP] tN).
Proof.
  intros H Hc. unfold loop_body, GetParent. rewrite (load_frame _ _ _ _ H).
  cbn [mbind outcome_bind]. rewrite frame_node_color, frame_node_parent.
  rewrite decide_False by (rewrite Hc; done). cbn [ctx_par]. unfold Case_I6.
  destruct (recolor_frame _ _ _ _ BLACK H) as (T' & -> & H'). by exists T'.
Qed.

Lemma loop_body_I45 T fP fG ctx c l n k r t' :
  holds T (fill (fP :: fG :: ctx) (Node c l n k r)) → f_color fP = RED →
  rc (f_sib fG) = BLACK →
  case_I45_tree fP fG (Node c l n k r) = Some t' →
  ∃ T', loop_body T (Some (f_addr fP)) (Some n) = Done (Return T')
        ∧ holds T' (fill ctx t')
        ∧ Case_I45 T (Some n) (Some (f_addr fP)) (Some (f_addr fG)) = Done T'.
Proof.
  intros H Hc Hu Ht. unfold loop_body, GetParent. rewrite (load_frame _ _ _ _ H).
  cbn [mbind outcome_bind]. rewrite frame_node_color, frame_node_parent.
  rewrite decide_False by (rewrite Hc; done). cbn [ctx_par].
  rewrite (GetUncle_frame _ _ _ _ _ _ _ _ _ H). cbn [mbind outcome_bind].
  destruct (Case_I45_fill _ _ _ _ _ _ _ _ _ _ H Ht) as (T' & E & H').
  exists T'. split; [|done].
  clear H'.
  destruct (f_sib fG) as [|cu ul u uk ur] eqn:Es; cbn [root_ptr].
  - by rewrite E.
  - rewrite (load_sib T fG ctx (fill1 fP (Node c l n k r)) _ _ _ _ _ H Es).
    cbn [mbind outcome_bind color]. simpl in Hu. rewrite decide_True by done.
    by rewrite E.
Qed.

Lemma loop_body_I1 T fP fG ctx tN ul u uk ur :
  holds T (fill (fP :: fG :: ctx) tN) → tN ≠ Leaf → f_color fP = RED →
  f_sib fG = Node RED ul u uk ur →
  ∃ T', loop_body T (Some (f_addr fP)) (root_ptr tN)
          = Done (Iterate T' (Some (f_addr fG)))
        ∧ holds T' (fill (paint RED (with_sib (Node BLACK ul u uk ur) fG) :: ctx)
                       (fill1 (paint BLACK fP) tN)).
Proof.
  intros H Hne Hc Hu. destruct tN as [|c l n k r]; [done|].
  unfold loop_body, GetParent. rewrite (load_frame _ _ _ _ H).
  cbn [mbind outcome_bind]. rewrite frame_node_color, frame_node_parent.
  rewrite decide_False by (rewrite Hc; done). cbn [ctx_par root_ptr].
  rewrite (GetUncle_frame _ _ _ _ _ _ _ _ _ H). cbn [mbind outcome_bind].
  rewrite Hu. cbn [root_ptr].
  rewrite (load_sib T fG ctx (fill1 fP (Node c l n k r)) _ _ _ _ _ H Hu).
  cbn [mbind outcome_bind color]. rewrite decide_False by done.
  destruct (recolor_frame _ _ _ _ BLACK H) as (T1 & -> & H1).
  cbn [mbind outcome_bind].
  change (fill (paint BLACK fP :: fG :: ctx) ?t)
    with (fill (fG :: ctx) (fill1 (paint BLACK fP) t)) in H1.
  destruct (recolor_sib _ _ _ _ _ BLACK _ _ _ _ H1 Hu) as (T2 & -> & H2).
  cbn [mbind outcome_bind].
  destruct (recolor_frame _ _ _ _ RED H2) as (T3 & E & H3).
  simpl f_addr in E. rewrite E. cbn [mbind outcome_bind].
  by exists T3.
Qed.

(** ** The red-black predicates along a path *)

Lemma RB_fill1 f t n :
  RB n t → RB n (f_sib f) →
  (f_color f = RED → rc t = BLACK ∧ rc (f_sib f) = BLACK) →
  RB (bump (f_color f) n) (fill1 f t).
Proof.
  destruct f as [[] [] a k s]; unfold fill1; simpl; intros Ht Hs Hc;
    try (constructor; naive_solver).
Qed.

Lemma rc_fill1 f t : rc (fill1 f t) = f_color f.
Proof. by destruct f as [[] ? ? ? ?]. Qed.

Lemma RB_fill1_inv f t m :
  RB m (fill1 f t) →
  ∃ n, m = bump (f_color f) n ∧ RB n t ∧ RB n (f_sib f)
       ∧ (f_color f = RED → rc t = BLACK ∧ rc (f_sib f) = BLACK).
Proof.
  destruct f as [[] c a k s]; unfold fill1; simpl; inversion 1; subst;
    eexists; simpl; split_and!; eauto; done.
Qed.

Lemma RBC_fill ctx : ∀ t n, RB n t → RBC ctx n (rc t) → ∃ m, RB m (fill ctx t).
Proof.
  induction ctx as [|f ctx IH]; intros t n Ht Hc; simpl in *; [eauto|].
  destruct Hc as (Hs & Hcol & Hc). eapply IH; [|by rewrite rc_fill1].
  apply RB_fill1; auto.
Qed.

Lemma RBC_unfill ctx : ∀ t m, RB m (fill ctx t) → ∃ n, RB n t ∧ RBC ctx n (rc t).
Proof.
  induction ctx as [|f ctx IH]; intros t m Ht; simpl in *; [eauto|].
  apply IH in Ht as (n' & Hf & Hc). rewrite rc_fill1 in Hc.
  apply RB_fill1_inv in Hf as (n & -> & Ht & Hs & Hcol).
  exists n. split_and!; auto.
Qed.

Lemma inorder_fill1_paint c f t : inorder (fill1 (paint c f) t) = inorder (fill1 f t).
Proof. by destruct f as [[] ? ? ? ?]. Qed.

Lemma case_I45_tree_RB fP fG l a k r n :
  RB n (Node RED l a k r) →
  f_color fP = RED → RB n (f_sib fP) → rc (f_sib fP) = BLACK →
  RB n (f_sib fG) → rc (f_sib fG) = BLACK →
  ∃ t', case_I45_tree fP fG (Node RED l a k r) = Some t'
        ∧ RB (S n) t' ∧ rc t' = BLACK
        ∧ inorder t' = inorder (fill1 fG (fill1 fP (Node RED l a k r))).
Proof.
  intros HN HcP HsP HrP HsG HrG. inversion HN; subst.
  destruct fP as [dP cP p kP sP], fG as [dG cG g kG sG]; simpl in *; subst cP.
  unfold case_I45_tree, case_I5_tree; simpl.
  destruct dP, dG; simpl; eexists; (split; [reflexivity|]); simpl;
    (split_and!; [repeat (constructor; try done)|done|
                  repeat (simpl; rewrite <- ?app_assoc); done]).
Qed.

Lemma inorder_fill1_sib f s t :
  inorder s = inorder (f_sib f) → inorder (fill1 (with_sib s f) t) = inorder (fill1 f t).
Proof. destruct f as [[] ? ? ? ?]; unfold fill1; simpl; by intros ->. Qed.

(** The fixup loop, started below a path that is well-formed except for a
    possible RED-RED pair at the current node, returns a red-black tree
    with the same keys in the same order.  Every pass that does not return
    moves the current node two frames up the path, so one pass per two
    frames (and one more) is enough. *)
Lemma RBinsert1_loop_correct : ∀ fuel T fP ctx tN nb,
  (length ctx < 2 * fuel)%nat →
  holds T (fill (fP :: ctx) tN) →
  rc tN = RED → RB nb tN →
  RBC (fP :: ctx) nb BLACK →
  ∃ T' t' nb', RBinsert1_loop fuel T (Some (f_addr fP)) (root_ptr tN) = Done T'
     ∧ holds T' t' ∧ RB nb' t'
     ∧ inorder t' = inorder (fill (fP :: ctx) tN).
Proof.
  induction fuel as [|fuel IH]; intros T fP ctx tN nb Hlen H Hred HN HC; [lia|].
  cbn [RBinsert1_loop].
  destruct HC as (HsP & HcP & HC).
  destruct (f_color fP) eqn:EcP.
  2:{ (* Case_I3 *)
    rewrite (loop_body_black _ _ _ _ H EcP). cbn [mbind outcome_bind].
    destruct (RBC_fill (fP :: ctx) tN nb HN) as (m & Hm).
    { simpl. rewrite EcP. split_and!; done. }
    by exists T, (fill (fP :: ctx) tN), m. }
  destruct HcP as [_ HrP]; [done|]. simpl in HC.
  destruct ctx as [|fG ctx].
  { (* Case_I6 *)
    destruct (loop_body_I6 _ _ _ H EcP) as (T' & -> & H'). cbn [mbind outcome_bind].
    exists T', (fill [paint BLACK fP] tN), (S nb). split_and!; [done|done| |].
    - simpl. apply (RB_fill1 (paint BLACK fP)); auto. done.
    - simpl. apply inorder_fill1_paint. }
  destruct HC as (HsG & HcG & HC).
  assert (EcG : f_color fG = BLACK).
  { destruct (f_color fG); [|done]. by destruct HcG. }
  rewrite EcG in HC. simpl in HC.
  destruct tN as [|cN l n k r]; [done|]. simpl in Hred. subst cN.
  destruct (f_sib fG) as [|[] ul u uk ur] eqn:EsG.
  1,3: (* Case_I45 *)
    destruct (case_I45_tree_RB fP fG l n k r nb) as (t' & Ht' & HRB & Hrc & Hin);
      [done|done|done|done|by rewrite EsG|by rewrite EsG|];
    destruct (loop_body_I45 _ _ _ _ _ _ _ _ _ _ H EcP ltac:(by rewrite EsG) Ht')
      as (T' & E & H' & _);
    cbn [root_ptr]; rewrite E; cbn [mbind outcome_bind];
    destruct (RBC_fill ctx t' (S nb) HRB) as (m & Hm); [by rewrite Hrc|];
    exists T', (fill ctx t'), m; split_and!; [done|done|done|];
    simpl; by apply inorder_fill_same.
  (* Case_I1 *)
  destruct (loop_body_I1 _ _ _ _ _ _ _ _ _ H ltac:(done) EcP EsG) as (T' & E & H').
  rewrite E. cbn [mbind outcome_bind]. unfold GetParent.
  pose proof (load_frame _ _ _ _ H') as Hl. simpl f_addr in Hl.
  rewrite Hl. clear Hl. cbn [mbind outcome_bind].
  rewrite frame_node_parent.
  set (fG' := paint RED (with_sib (Node BLACK ul u uk ur) fG)) in *.
  set (tG := fill1 fG' (fill1 (paint BLACK fP) (Node RED l n k r))).
  assert (HG : RB (S nb) tG ∧ rc tG = RED).
  { split; [|by unfold tG; rewrite rc_fill1].
    apply (RB_fill1 fG' _ (S nb)); simpl.
    - apply (RB_fill1 (paint BLACK fP)); simpl; auto; done.
    - inversion HsG; subst. by constructor.
    - intros _. by rewrite rc_fill1. }
  assert (HinG : inorder tG = inorder (fill1 fG (fill1 fP (Node RED l n k r)))).
  { unfold tG, fG'. rewrite inorder_fill1_paint, inorder_fill1_sib by (by rewrite EsG).
    destruct fG as [[] ? ? ? ?]; unfold fill1 at 1 3; simpl;
      by rewrite inorder_fill1_paint. }
  destruct ctx as [|fGG ctx]; cbn [ctx_par].
  { (* Case_I2 *)
    exists T', tG, (S nb). split_and!; [done|done|tauto|done]. }
  destruct (IH T' fGG ctx tG (S nb)) as (T'' & t'' & nb'' & E2 & H2 & HRB2 & Hin2);
    [simpl in Hlen; lia|done|tauto|tauto|done|].
  unfold tG at 1 in E2. rewrite root_ptr_fill1 in E2. simpl f_addr in E2.
  exists T'', t'', nb''. split_and!; [done|done|done|].
  rewrite Hin2. change (fill (fGG :: ctx) tG) with (fill (fGG :: ctx) tG).
  change (fill (fP :: fG :: fGG :: ctx) ?t) with (fill (fGG :: ctx) (fill1 fG (fill1 fP t))).
  by apply inorder_fill_same.
Qed.

(** ** Linking the new node *)

Lemma RBinsert1_link_fill T ctx a n0 :
  holds T (fill ctx Leaf) → a ∉ dom (mem T) →
  ∃ T1, RBinsert1_link (mkRBtree (<[a := n0]> (mem T)) (root T))
          (ctx_par ctx) (Some a) (ctx_dir ctx) = Done T1
        ∧ holds T1 (fill ctx (Node RED Leaf a (key n0) Leaf)).
Proof.
  intros H Ha. pose proof H as [Hr R D Hd].
  apply distinct_fill in D as (D1 & D2 & D3).
  apply rep_fill in R as [R1 R2].
  rewrite addrs_fill in Hd.
  unfold RBinsert1_link, NIL. heap_simpl. repeat heap_step.
  rewrite !insert_insert_eq. unfold set_parent, set_color. heap_simpl.
  destruct ctx as [|f ctx]; cbn [ctx_par ctx_dir]; heap_simpl.
  - eexists; split; [reflexivity|]. split; simpl.
    + done.
    + repeat heap_step. done.
    + set_solver.
    + rewrite !dom_insert_L. simpl in *. set_solver.
  - simpl in R2. destruct R2 as (Hf & Rs & Rc).
    assert (a ≠ f_addr f) by (simpl in Ha; set_solver).
    repeat heap_step. eexists; split; [reflexivity|].
    change (fill (f :: ctx) ?t) with (fill ctx (fill1 f t)) in Hr.
    split; heap_simpl.
    + rewrite Hr. change (fill ctx (fill1 f ?t)) with (fill (f :: ctx) t).
      rewrite !ctx_root_fill. unfold ctx_root.
      destruct (last (f :: ctx)) eqn:El; [done|]. by apply last_None in El.
    + apply rep_fill. split.
      * simpl. repeat heap_step. done.
      * eapply repc_hole; [done|by split_and!| |].
        -- intros b Hb Hne. simpl in Hne.
           rewrite !lookup_insert_ne; [done|set_solver|congruence].
        -- eexists; split; [exact Hf|]. by rewrite lookup_insert_eq.
    + apply distinct_fill. simpl. split_and!; try done; set_solver.
    + rewrite !dom_insert_L, !addrs_fill. simpl in *. set_solver.
Qed.

(** ** The descent *)

Lemma ins_path_fill k t : ∀ ctx, fill (ins_path k t ctx) Leaf = fill ctx t.
Proof.
  induction t as [|c l IHl a x r IHr]; intros ctx; simpl; [done|].
  destruct (decide _); [rewrite IHl|rewrite IHr]; done.
Qed.

Lemma descend_fill k : ∀ t fuel T ctx,
  holds T (fill ctx t) → t ≠ Leaf → (height t ≤ fuel)%nat →
  descend NIL fuel T (root_ptr t) k
  = Done (ctx_par (ins_path k t ctx), ctx_dir (ins_path k t ctx)).
Proof.
  induction t as [|c l IHl a x r IHr]; intros fuel T ctx H Hne Hfuel; [done|].
  destruct fuel as [|fuel]; [simpl in Hfuel; lia|]. simpl in Hfuel.
  cbn [descend root_ptr]. rewrite (load_fill _ _ _ _ _ _ _ H).
  cbn [mbind outcome_bind key ins_path].
  destruct (decide (k < x)); cbn [child left right].
  - destruct l as [|cl ll la lx lr]; [done|].
    rewrite decide_False by done.
    apply (IHl fuel T (Frame LEFT c a x r :: ctx)); [done|done|lia].
  - destruct r as [|cr rl ra rx rr]; [done|].
    rewrite decide_False by done.
    apply (IHr fuel T (Frame RIGHT c a x l :: ctx)); [done|done|lia].
Qed.

(** ** Reading the tree back: [tree_of] and the checks of [validate] *)

Lemma reify_rep : ∀ t fuel m par,
  rep m par t → (height t ≤ fuel)%nat → reify fuel m par (root_ptr t) = Some t.
Proof.
  induction t as [|c l IHl a k r IHr]; intros fuel m par R Hf; simpl.
  - by destruct fuel.
  - destruct fuel as [|fuel]; [simpl in Hf; lia|]. simpl in Hf.
    destruct R as (Ha & Rl & Rr). simpl. rewrite Ha. simpl.
    rewrite decide_True by done.
    rewrite (IHl fuel m (Some a) Rl) by lia. simpl.
    rewrite (IHr fuel m (Some a) Rr) by lia. done.
Qed.

Lemma height_le_size t : distinct t → (height t ≤ size (addrs t))%nat.
Proof.
  induction t as [|c l IHl a k r IHr]; simpl; [lia|].
  intros (H1 & H2 & H3 & Dl & Dr).
  rewrite !size_union by set_solver. rewrite size_singleton.
  specialize (IHl Dl). specialize (IHr Dr). lia.
Qed.

Lemma holds_height T t : holds T t → (height t ≤ size (mem T))%nat.
Proof.
  intros [_ _ D Hd]. rewrite <- size_dom.
  etrans; [by apply height_le_size|]. by apply subseteq_size.
Qed.

Lemma height_fill ctx : ∀ t, (length ctx + height t ≤ height (fill ctx t))%nat.
Proof.
  induction ctx as [|f ctx IH]; intros t; simpl; [lia|].
  etrans; [|apply IH]. destruct f as [[] ? ? ? ?]; unfold fill1; simpl; lia.
Qed.

Lemma holds_tree_of T t : holds T t → tree_of T = Some t.
Proof.
  intros H. unfold tree_of. rewrite (holds_root _ _ H).
  apply reify_rep; [apply H|]. pose proof (holds_height _ _ H). lia.
Qed.

Lemma RB_checks n t : RB n t → no_red_red t = true ∧ black_height t = Some n.
Proof.
  induction 1 as [|l a k r n Hl [IHl1 IHl2] Hr [IHr1 IHr2] Hcl Hcr
                   |l a k r n Hl [IHl1 IHl2] Hr [IHr1 IHr2]]; simpl; [done|..].
  - rewrite IHl1, IHr1, IHl2, IHr2, Hcl, Hcr. simpl.
    by rewrite decide_True.
  - rewrite IHl1, IHr1, IHl2, IHr2. simpl. by rewrite decide_True.
Qed.

Lemma sorted_bst_ordered t : sorted (inorder t) → bst_ordered t = true.
Proof.
  unfold sorted. induction t as [|c l IHl a k r IHr]; simpl; [done|].
  intros H. apply StronglySorted_app in H as (H1 & H2 & H3).
  apply StronglySorted_cons in H3 as (H3 & H4).
  rewrite IHl, IHr by done. rewrite !andb_true_r.
  apply andb_true_iff. split; apply forallb_forall; intros x Hx;
    apply bool_decide_eq_true.
  - apply H1; [by apply list_elem_of_In|set_solver].
  - rewrite Forall_forall in H3. by apply H3, list_elem_of_In.
Qed.

Lemma wf_validate_balanced T : wf T → validate_balanced T = true.
Proof.
  intros (t & n & H & HRB & Hs). unfold validate_balanced.
  rewrite (holds_tree_of _ _ H). unfold balanced.
  destruct (RB_checks _ _ HRB) as [-> ->].
  by rewrite (sorted_bst_ordered _ Hs).
Qed.

Lemma wf_empty_tree : wf empty_tree.
Proof.
  exists Leaf, O. split_and!; [|constructor|constructor].
  split; simpl; try done.
Qed.

(** ** Keys stay ordered *)

Lemma inorder_fill ctx : ∀ t, inorder (fill ctx t) = ctx_left ctx ++ inorder t ++ ctx_right ctx.
Proof.
  induction ctx as [|f ctx IH]; intros t; simpl; [by rewrite app_nil_r|].
  rewrite IH. destruct f as [[] c a k s]; unfold fill1; simpl;
    repeat (rewrite <- ?app_assoc; simpl); done.
Qed.

Lemma ins_path_bounds k : ∀ t ctx,
  sorted (inorder (fill ctx t)) →
  Forall (λ x, x ≤ k) (ctx_left ctx) → Forall (λ x, k ≤ x) (ctx_right ctx) →
  Forall (λ x, x ≤ k) (ctx_left (ins_path k t ctx))
  ∧ Forall (λ x, k ≤ x) (ctx_right (ins_path k t ctx)).
Proof.
  unfold sorted.
  induction t as [|c l IHl a x r IHr]; intros ctx Hs HL HR; simpl; [done|].
  pose proof Hs as Hs'. rewrite inorder_fill in Hs'. simpl in Hs'.
  apply StronglySorted_app in Hs' as (_ & _ & Hs').
  apply StronglySorted_app in Hs' as (_ & Hs' & _).
  apply StronglySorted_app in Hs' as (H1 & _ & H3).
  apply StronglySorted_cons in H3 as (H3 & _).
  destruct (decide (k < x)).
  - apply IHl; simpl; [done|by rewrite app_nil_r|].
    constructor; [lia|]. apply Forall_app. split; [|done].
    eapply Forall_impl; [exact H3|]. simpl. intros; lia.
  - apply IHr; simpl; [done| |done].
    rewrite !Forall_app. split_and!; [done| |by constructor; [lia|]].
    apply Forall_forall. intros y Hy.
    assert (y ≤ x) by (apply H1; [done|set_solver]). lia.
Qed.

Lemma sorted_insert_middle L R k :
  sorted (L ++ R) → Forall (λ x, x ≤ k) L → Forall (λ x, k ≤ x) R →
  sorted (L ++ k :: R).
Proof.
  unfold sorted. intros H HL HR.
  apply StronglySorted_app in H as (H1 & H2 & H3).
  apply StronglySorted_app. split_and!; [|done|by apply StronglySorted_cons].
  intros x1 x2 Hx1 Hx2. rewrite Forall_forall in HL, HR.
  apply elem_of_cons in Hx2 as [->|Hx2]; [by apply HL|by apply H1].
Qed.

Lemma ins_path_sorted k t a :
  sorted (inorder t) →
  sorted (inorder (fill (ins_path k t []) (Node RED Leaf a k Leaf))).
Proof.
  intros Hs.
  destruct (ins_path_bounds k t []) as [HL HR]; [done|constructor|constructor|].
  rewrite inorder_fill. simpl. apply sorted_insert_middle; [|done|done].
  pose proof (inorder_fill (ins_path k t []) Leaf) as E.
  rewrite ins_path_fill in E. simpl in E. by rewrite <- E.
Qed.

(** ** A whole insertion *)

Lemma RBinsert1_fill fuel T ctx a n0 :
  holds T (fill ctx Leaf) → a ∉ dom (mem T) →
  (∃ n, RB n (fill ctx Leaf)) →
  (length ctx ≤ fuel)%nat →
  ∃ T' t' n', RBinsert1 fuel (mkRBtree (<[a := n0]> (mem T)) (root T))
                (ctx_par ctx) (Some a) (ctx_dir ctx) = Done T'
     ∧ holds T' t' ∧ RB n' t'
     ∧ inorder t' = inorder (fill ctx (Node RED Leaf a (key n0) Leaf)).
Proof.
  intros H Ha [n HRB] Hfuel. unfold RBinsert1.
  destruct (RBinsert1_link_fill _ _ _ n0 H Ha) as (T1 & -> & H1).
  cbn [mbind outcome_bind].
  assert (HN : RB 0 (Node RED Leaf a (key n0) Leaf)) by (by repeat constructor).
  destruct ctx as [|fP ctx]; cbn [ctx_par].
  - exists T1, (Node RED Leaf a (key n0) Leaf), O. by split_and!.
  - apply RBC_unfill in HRB as (n' & HL & HC). inversion HL; subst n'.
    apply (RBinsert1_loop_correct fuel T1 fP ctx (Node RED Leaf a (key n0) Leaf) O);
      [simpl in Hfuel; lia|done|done|done|done].
Qed.

Lemma insert_spec k T t n :
  holds T t → RB n t → sorted (inorder t) →
  ∃ T' t' n', insert k T = Done T' ∧ holds T' t' ∧ RB n' t'
     ∧ sorted (inorder t')
     ∧ inorder t' ≡ₚ k :: inorder t.
Proof.
  intros H HRB Hs. unfold insert, alloc.
  pose proof (is_fresh (dom (mem T))) as Hfresh.
  set (a := fresh (dom (mem T))) in *.
  set (ctx := ins_path k t []).
  assert (Hfill : fill ctx Leaf = t) by apply ins_path_fill.
  assert (Hlen : (length ctx ≤ S (size (mem T)))%nat).
  { pose proof (height_fill ctx Leaf). rewrite Hfill in H0.
    pose proof (holds_height _ _ H). lia. }
  destruct (RBinsert1_fill (S (size (mem T))) T ctx a (mkRBnode BLACK k NULL NULL NULL))
    as (T' & t' & n' & E & H' & HRB' & Hin); [by rewrite Hfill|done| |done|].
  { exists n. by rewrite Hfill. }
  simpl key in Hin.
  assert (Hres : insert k T = Done T').
  { unfold insert, alloc. fold a. rewrite (holds_root _ _ H) in E |- *.
    destruct t as [|c l b x r]; cbn [root_ptr].
    - exact E.
    - rewrite (descend_fill k (Node c l b x r) _ T [] H) by
        (try done; pose proof (holds_height _ _ H); lia).
      cbn [mbind outcome_bind]. exact E. }
  exists T', t', n'. split_and!; [exact Hres|done|done|..].
  - rewrite Hin. by apply ins_path_sorted.
  - rewrite Hin, inorder_fill. simpl.
    pose proof (inorder_fill ctx Leaf) as E'. rewrite Hfill in E'. simpl in E'.
    rewrite E'. by rewrite Permutation_middle.
Qed.

Lemma insert_wf k T : wf T → ∃ T', insert k T = Done T' ∧ wf T'.
Proof.
  intros (t & n & H & HRB & Hs).
  destruct (insert_spec k T t n H HRB Hs) as (T' & t' & n' & E & H' & HRB' & Hs' & _).
  exists T'. split; [done|]. by exists t', n'.
Qed.

Lemma insert_trace_keys ks : ∀ T t n,
  holds T t → RB n t → sorted (inorder t) →
  ∃ Ts, insert_trace ks T = Done Ts
        ∧ ∀ i Ti, Ts !! i = Some Ti →
            ∃ ti, tree_of Ti = Some ti ∧ sorted (inorder ti)
                  ∧ inorder ti ≡ₚ take (S i) ks ++ inorder t.
Proof.
  induction ks as [|k ks IH]; intros T t n H HRB Hs; simpl.
  - exists []. split; [done|]. intros i Ti Hi. by rewrite lookup_nil in Hi.
  - destruct (insert_spec k T t n H HRB Hs) as (T' & t' & n' & -> & H' & HRB' & Hs' & Hp).
    cbn [mbind outcome_bind].
    destruct (IH T' t' n' H' HRB' Hs') as (Ts & -> & HTs). cbn [mbind outcome_bind].
    exists (T' :: Ts). split; [done|]. intros [|i] Ti Hi; simpl in Hi.
    + injection Hi as <-. exists t'. split_and!; [by apply holds_tree_of|done|].
      by rewrite take_0.
    + destruct (HTs i Ti Hi) as (ti & Hti & Hsi & Hpi).
      exists ti. split_and!; [done|done|].
      rewrite Hpi, Hp. by rewrite Permutation_middle.
Qed.

Lemma insert_trace_wf ks : ∀ T, wf T →
  ∃ Ts, insert_trace ks T = Done Ts ∧ length Ts = length ks ∧ Forall wf Ts.
Proof.
  induction ks as [|k ks IH]; intros T Hwf; simpl.
  - exists []. by split_and!.
  - destruct (insert_wf k T Hwf) as (T' & -> & Hwf'). cbn [mbind outcome_bind].
    destruct (IH T' Hwf') as (Ts & -> & Hlen & HF). cbn [mbind outcome_bind].
    exists (T' :: Ts). split_and!; [done|simpl; lia|by constructor].
Qed.

(** ** Nothing is allocated by the fixup *)

#[global] Instance same_nodes_preorder : PreOrder same_nodes.
Proof.
  split.
  - intros T. split; [done|]. intros a n H. by exists n.
  - intros T1 T2 T3 [Hd1 H1] [Hd2 H2]. split; [congruence|].
    intros a n Ha. destruct (H1 a n Ha) as (n' & Ha' & Hk).
    destruct (H2 a n' Ha') as (n'' & Ha'' & Hk'). exists n''. split; [done|congruence].
Qed.

Lemma upd_same_nodes T p f T' :
  (∀ n, key (f n) = key n) → upd T p f = Done T' → same_nodes T T'.
Proof.
  intros Hf. unfold upd. destruct p as [a|]; [|done].
  destruct (mem T !! a) as [n|] eqn:E; [|done]. intros [= <-]. split; simpl.
  - rewrite dom_insert_L. apply elem_of_dom_2 in E. set_solver.
  - intros b m Hb. destruct (decide (a = b)) as [->|Hne].
    + rewrite lookup_insert_eq. exists (f n). split; [done|]. rewrite Hf. congruence.
    + rewrite lookup_insert_ne by done. by exists m.
Qed.

Lemma set_root_same_nodes T p : same_nodes T (set_root T p).
Proof. split; [done|]. intros a n H. by exists n. Qed.

Ltac bind_inv' H :=
  repeat first
    [ match type of H with
      | mbind _ ?x = Done _ =>
          destruct x eqn:?; cbn [mbind outcome_bind] in H; try discriminate H
      end
    | match type of H with
      | context [match ?p with pair _ _ => _ end] => destruct p
      end
    | match type of H with
      | context [match ?p with Some _ => _ | None => _ end] =>
          destruct p eqn:?; try discriminate H
      end
    | match type of H with
      | context [decide ?P] => destruct (decide P); try discriminate H
      end ].

Lemma key_set_child d c n : key (set_child d c n) = key n.
Proof. by destruct d. Qed.

(** Turns every executed write in the context into a [same_nodes] fact and
    chains them. *)
Ltac same_nodes_chain :=
  repeat match goal with
         | H : (if decide ?P then _ else _) = Done _ |- _ =>
             destruct (decide P); simplify_eq
         end;
  repeat match goal with
         | H : upd _ _ _ = Done _ |- _ =>
             apply upd_same_nodes in H;
             [|intros; first [apply key_set_child|reflexivity]]
         end;
  repeat first
    [ eassumption
    | reflexivity
    | apply set_root_same_nodes
    | (etrans; [eassumption|]) ].

Lemma rotate_links_same_nodes nil T node dir T' G C :
  rotate_links nil T node dir = Done (T', G, C) → same_nodes T T'.
Proof.
  unfold rotate_links. intros H. bind_inv' H; simplify_eq; same_nodes_chain.
Qed.

Lemma rotate_root_same_nodes nil T node dir T' :
  rotate_root nil T node dir = Done T' → same_nodes T T'.
Proof.
  unfold rotate_root. intros H. bind_inv' H; simplify_eq.
  all: match goal with
       | H : rotate_links _ _ _ _ = _ |- _ => apply rotate_links_same_nodes in H
       end.
  all: same_nodes_chain.
Qed.

Lemma rotate_inner_same_nodes nil T node dir T' :
  rotate_inner nil T node dir = Done T' → same_nodes T T'.
Proof.
  unfold rotate_inner. intros H. bind_inv' H; simplify_eq.
  all: match goal with
       | H : rotate_links _ _ _ _ = _ |- _ => apply rotate_links_same_nodes in H
       end.
  all: same_nodes_chain.
Qed.

Lemma Case_I5_same_nodes T P G dir T' :
  Case_I5 T P G dir = Done T' → same_nodes T T'.
Proof.
  unfold Case_I5, RotateDirRoot. intros H. bind_inv' H.
  apply rotate_root_same_nodes in H. same_nodes_chain.
Qed.

Lemma Case_I4_same_nodes T N P G dir T' N' P' :
  Case_I4 T N P G dir = Done (T', N', P') → same_nodes T T'.
Proof.
  unfold Case_I4, RotateDir. intros H. bind_inv' H; simplify_eq.
  by eapply rotate_inner_same_nodes.
Qed.

Lemma Case_I45_same_nodes T N P G T' :
  Case_I45 T N P G = Done T' → same_nodes T T'.
Proof.
  unfold Case_I45. intros H. bind_inv' H; simplify_eq.
  all: apply Case_I5_same_nodes in H.
  all: try match goal with
       | H : Case_I4 _ _ _ _ _ = _ |- _ => apply Case_I4_same_nodes in H
       end.
  all: same_nodes_chain.
Qed.

Lemma loop_body_same_nodes T P N r :
  loop_body T P N = Done r →
  match r with Return T' => same_nodes T T' | Iterate T' _ => same_nodes T T' end.
Proof.
  unfold loop_body, Case_I6. intros H. bind_inv' H; simplify_eq.
  all: try match goal with
       | H : Case_I45 _ _ _ _ = _ |- _ => apply Case_I45_same_nodes in H
       end.
  all: same_nodes_chain.
Qed.

Lemma RBinsert1_loop_same_nodes fuel : ∀ T P N T',
  RBinsert1_loop fuel T P N = Done T' → same_nodes T T'.
Proof.
  induction fuel as [|fuel IH]; intros T P N T' H; [done|].
  cbn [RBinsert1_loop] in H.
  destruct (loop_body T P N) as [r| |] eqn:Eb; try done.
  apply loop_body_same_nodes in Eb. cbn [mbind outcome_bind] in H.
  destruct r as [T1|T1 N1]; [by simplify_eq|].
  destruct (GetParent T1 N1) as [[p|]| |]; cbn [mbind outcome_bind] in H; try done.
  - apply IH in H. by etrans.
  - by simplify_eq.
Qed.

Lemma RBinsert1_link_same_nodes T P N dir T' :
  RBinsert1_link T P N dir = Done T' → same_nodes T T'.
Proof.
  unfold RBinsert1_link. intros H. bind_inv' H; simplify_eq; same_nodes_chain.
Qed.

Lemma RBinsert1_same_nodes fuel T P N dir T' :
  RBinsert1 fuel T P N dir = Done T' → same_nodes T T'.
Proof.
  unfold RBinsert1. intros H.
  destruct (RBinsert1_link T P N dir) as [T1| |] eqn:El; try done.
  apply RBinsert1_link_same_nodes in El. cbn [mbind outcome_bind] in H.
  destruct P; [|by simplify_eq].
  apply RBinsert1_loop_same_nodes in H. by etrans.
Qed.

(** ** The link step and the black-parent exit *)

Lemma RBinsert1_link_eq T P N dir n0 p0 :
  mem T !! N = Some n0 → mem T !! P = Some p0 → P ≠ N →
  RBinsert1_link T (Some P) (Some N) dir = Done (linked T P N dir n0 p0).
Proof.
  intros HN HP Hne. unfold RBinsert1_link, linked, NIL. heap_simpl.
  repeat heap_step. rewrite !insert_insert_eq. done.
Qed.

Lemma loop_body_black_parent T P N p :
  load T P = Done p → color p = BLACK → loop_body T P N = Done (Return T).
Proof.
  intros Hl Hc. unfold loop_body. rewrite Hl. cbn [mbind outcome_bind].
  by rewrite decide_True.
Qed.

Lemma RBinsert1_black_parent fuel T P N dir n0 p0 :
  mem T !! N = Some n0 → mem T !! P = Some p0 → P ≠ N → color p0 = BLACK →
  RBinsert1 (S fuel) T (Some P) (Some N) dir = Done (linked T P N dir n0 p0).
Proof.
  intros HN HP Hne Hc. unfold RBinsert1.
  rewrite (RBinsert1_link_eq _ _ _ _ _ _ HN HP Hne). cbn [mbind outcome_bind RBinsert1_loop].
  erewrite loop_body_black_parent; [done| |].
  - unfold load, linked. cbn [mem]. by rewrite lookup_insert_eq.
  - by destruct dir.
Qed.

Lemma links_to_spec T C b nb d :
  mem T !! b = Some nb → child d nb = Some C → (b, d) ∈ links_to T C.
Proof.
  intros Hb Hc. unfold links_to. apply list_elem_of_In, in_flat_map.
  exists (b, nb). split; [by apply list_elem_of_In, elem_of_map_to_list|].
  apply list_elem_of_In. simpl. destruct d; simpl in Hc; rewrite Hc.
  - rewrite decide_True by done. set_solver.
  - rewrite (decide_True (P := Some C = Some C)) by done. set_solver.
Qed.

Lemma linked_unreachable T P N dir n0 p0 C :
  mem T !! N = Some n0 → mem T !! P = Some p0 → P ≠ N →
  C ≠ N → root T ≠ Some C → links_to T C = [(P, dir)] →
  ¬ reachable (linked T P N dir n0 p0) C.
Proof.
  intros HN HP Hne HC Hr Hl Hreach.
  inversion Hreach as [a Ha|b n d a Hb Hn Hc]; subst; [done|].
  unfold linked in Hn. cbn [mem] in Hn.
  destruct (decide (P = b)) as [<-|HPb].
  - rewrite lookup_insert_eq in Hn. injection Hn as <-.
    destruct (decide (d = dir)) as [->|Hd].
    + destruct dir; simpl in Hc; congruence.
    + assert (child d p0 = Some C) as Hc' by (by destruct d, dir).
      pose proof (links_to_spec T C P p0 d HP Hc') as Hin.
      rewrite Hl in Hin. set_solver.
  - rewrite lookup_insert_ne in Hn by done.
    destruct (decide (N = b)) as [<-|HNb].
    + rewrite lookup_insert_eq in Hn. injection Hn as <-. by destruct d.
    + rewrite lookup_insert_ne in Hn by done.
      pose proof (links_to_spec T C b n d Hn Hc) as Hin.
      rewrite Hl in Hin. set_solver.
Qed.

(** ** Recolouring leaves every link in place *)

#[global] Instance same_links_preorder : PreOrder same_links.
Proof.
  split.
  - intros T. split_and!; [done|done|]. intros a n H. by exists n.
  - intros T1 T2 T3 (Hr1 & Hd1 & H1) (Hr2 & Hd2 & H2). split_and!; [congruence|congruence|].
    intros a n Ha. destruct (H1 a n Ha) as (n' & Ha' & Hk).
    destruct (H2 a n' Ha') as (n'' & Ha'' & Hk'). exists n''.
    destruct_and!. split_and!; congruence.
Qed.

Lemma upd_color_same_links T p c T' :
  upd T p (set_color c) = Done T' → same_links T T'.
Proof.
  unfold upd. destruct p as [a|]; [|done].
  destruct (mem T !! a) as [n|] eqn:E; [|done]. intros [= <-]. split_and!; simpl.
  - done.
  - rewrite dom_insert_L. apply elem_of_dom_2 in E. set_solver.
  - intros b m Hb. destruct (decide (a = b)) as [->|Hne].
    + rewrite lookup_insert_eq. exists (set_color c n).
      assert (m = n) as -> by congruence. done.
    + rewrite lookup_insert_ne by done. by exists m.
Qed.

Lemma loop_body_iterate_inv T P N T' N' :
  loop_body T P N = Done (Iterate T' N') →
  ∃ p U u, load T P = Done p ∧ color p = RED
    ∧ GetParent T P = Done N' ∧ N' ≠ NULL
    ∧ GetUncle T N = Done U ∧ U ≠ NIL
    ∧ load T U = Done u ∧ color u = RED
    ∧ same_links T T'.
Proof.
  unfold loop_body, Case_I6. intros H. bind_inv' H; simplify_eq.
  eexists _, _, _. split_and!; try done.
  - by destruct (color a).
  - by destruct (color a2).
  - etrans; [by eapply upd_color_same_links|].
    etrans; by eapply upd_color_same_links.
Qed.

(** ** Shapes around Case_I4 *)

Lemma holds_inner_shape T fP fG ctx c l n k r :
  holds T (fill (fP :: fG :: ctx) (Node c l n k r)) →
  f_dir fP = flip (f_dir fG) →
  inner_shape T (Some n) (Some (f_addr fP)) (Some (f_addr fG)) (f_dir fG).
Proof.
  intros H Hd. eexists _, _. split_and!.
  - by apply (load_frame _ _ _ _ H).
  - rewrite <- Hd. apply child_frame_node.
  - change (fill (fP :: fG :: ctx) ?t) with (fill (fG :: ctx) (fill1 fP t)) in H.
    by apply (load_frame _ _ _ _ H).
  - rewrite (proj1 (child_frame_node _ _ _)). apply root_ptr_fill1.
Qed.

Lemma holds_outer_shape T fP fG ctx c l n k r :
  holds T (fill (fP :: fG :: ctx) (Node c l n k r)) →
  f_dir fP = f_dir fG →
  outer_shape T (Some n) (Some (f_addr fP)) (Some (f_addr fG)) (f_dir fG).
Proof.
  intros H Hd. eexists _, _. split_and!.
  - by apply (load_frame _ _ _ _ H).
  - rewrite <- Hd. apply child_frame_node.
  - change (fill (fP :: fG :: ctx) ?t) with (fill (fG :: ctx) (fill1 fP t)) in H.
    by apply (load_frame _ _ _ _ H).
  - rewrite (proj1 (child_frame_node _ _ _)). apply root_ptr_fill1.
Qed.

Lemma Case_I45_outer T fP fG ctx c l n k r :
  holds T (fill (fP :: fG :: ctx) (Node c l n k r)) →
  f_dir fP = f_dir fG →
  Case_I45 T (Some n) (Some (f_addr fP)) (Some (f_addr fG))
  = Case_I5 T (Some (f_addr fP)) (Some (f_addr fG)) (f_dir fG).
Proof.
  intros H Ed. unfold Case_I45.
  rewrite (childDir_frame _ _ _ _ _ H). cbn [mbind outcome_bind].
  rewrite (load_frame _ _ _ _ H). cbn [mbind outcome_bind].
  pose proof H as [_ _ D _]. apply distinct_fill in D as (D1 & D2 & D3).
  rewrite decide_False; [done|]. rewrite <- Ed.
  destruct fP as [[] cP p kP [|? ? b ? ?]]; unfold frame_node; simpl in *;
    try done; intros [= ->]; set_solver.
Qed.

Lemma Case_I4_fill T fP fG ctx c l n k r :
  holds T (fill (fP :: fG :: ctx) (Node c l n k r)) →
  f_dir fP = flip (f_dir fG) →
  ∃ T1 tP,
    rot (f_dir fG) (fill1 fP (Node c l n k r)) = Some tP
    ∧ root_ptr tP = Some n
    ∧ RotateDir T (Some (f_addr fP)) (f_dir fG) = Done T1
    ∧ holds T1 (fill (fG :: ctx) tP)
    ∧ Case_I4 T (Some n) (Some (f_addr fP)) (Some (f_addr fG)) (f_dir fG)
      = Done (T1, Some (f_addr fP), Some n)
    ∧ outer_shape T1 (Some (f_addr fP)) (Some n) (Some (f_addr fG)) (f_dir fG)
    ∧ Case_I45 T (Some n) (Some (f_addr fP)) (Some (f_addr fG))
      = Case_I5 T1 (Some n) (Some (f_addr fG)) (f_dir fG)
    ∧ root T1 = root T.
Proof.
  intros H Ed.
  assert (HP := H).
  change (fill (fP :: fG :: ctx) ?t) with (fill (fG :: ctx) (fill1 fP t)) in HP.
  assert (∃ tP, rot (f_dir fG) (fill1 fP (Node c l n k r)) = Some tP
                ∧ root_ptr tP = Some n
                ∧ ∃ cP sub, tP = fill1 (Frame (f_dir fG) c n k sub)
                                  (Node cP (match f_dir fG with LEFT => f_sib fP | RIGHT => r end)
                                        (f_addr fP) (f_key fP)
                                        (match f_dir fG with LEFT => l | RIGHT => f_sib fP end)))
    as (tP & Er & Hroot & cP & sub & EtP).
  { destruct fP as [dP cP p kP sP], fG as [[] cG g kG sG]; simpl in Ed; subst dP;
      simpl; eexists; (split; [reflexivity|]); (split; [reflexivity|]);
      eexists _, _; reflexivity. }
  destruct (rotate_inner_fill T (fG :: ctx) (f_dir fG) _ _ ltac:(done) HP Er)
    as (T1 & E & H1).
  rewrite root_ptr_fill1 in E.
  assert (E4 : Case_I4 T (Some n) (Some (f_addr fP)) (Some (f_addr fG)) (f_dir fG)
               = Done (T1, Some (f_addr fP), Some n)).
  { unfold Case_I4, RotateDir. rewrite E. cbn [mbind outcome_bind].
    rewrite (load_frame _ _ _ _ H1). cbn [mbind outcome_bind].
    by rewrite (proj1 (child_frame_node _ _ _)), Hroot. }
  exists T1, tP. split_and!; try done.
  - rewrite EtP in H1.
    change (fill (fG :: ctx) (fill1 ?f ?t)) with (fill (f :: fG :: ctx) t) in H1.
    eexists _, _. split_and!.
    + by apply (load_frame _ _ _ _ H1).
    + apply (proj1 (child_frame_node (Frame (f_dir fG) c n k sub) _ _)).
    + change (fill (?f :: fG :: ctx) ?t) with (fill (fG :: ctx) (fill1 f t)) in H1.
      by apply (load_frame _ _ _ _ H1).
    + rewrite (proj1 (child_frame_node _ _ _)). apply root_ptr_fill1.
  - unfold Case_I45.
    rewrite (childDir_frame _ _ _ _ _ H). cbn [mbind outcome_bind].
    rewrite (load_frame _ _ _ _ H). cbn [mbind outcome_bind].
    rewrite decide_True.
    2:{ rewrite <- Ed. by rewrite (proj1 (child_frame_node _ _ _)). }
    rewrite E4. done.
  - rewrite (holds_root _ _ H1), (holds_root _ _ HP), !ctx_root_fill.
    unfold ctx_root. by destruct (last (fG :: ctx)) eqn:El; [|apply last_None in El].
Qed.

(** ** [rb_insert] of thing.c *)

Lemma rb_finish_black T T' :
  rb_finish T = Done T' → node_color T' (root T') = Some BLACK.
Proof.
  unfold rb_finish, upd, node_color. destruct (root T) as [a|] eqn:Er; [|done].
  destruct (mem T !! a) as [n|]; [|done]. intros [= <-]. simpl.
  by rewrite lookup_insert_eq.
Qed.

Lemma rb_while_root_black nil fuel : ∀ T x T',
  rb_while nil fuel T x = Done T' → node_color T' (root T') = Some BLACK.
Proof.
  induction fuel as [|fuel IH]; intros T x T' H; [done|]. cbn [rb_while] in H.
  destruct (decide (x = root T)); [by eapply rb_finish_black|].
  destruct (load T x) as [xn| |]; cbn [mbind outcome_bind] in H; try done.
  destruct (load T (parent xn)) as [p| |]; cbn [mbind outcome_bind] in H; try done.
  destruct (decide (color p = RED)); [|by eapply rb_finish_black].
  destruct (rb_body nil T x) as [[T1 x1]| |]; cbn [mbind outcome_bind] in H; try done.
  by eapply IH.
Qed.

Lemma rb_insert_root_black nil fuel T x T' :
  rb_insert nil fuel T x = Done T' → node_color T' (root T') = Some BLACK.
Proof.
  unfold rb_insert. intros H.
  destruct (tree_insert nil fuel T x) as [T1| |]; cbn [mbind outcome_bind] in H; try done.
  destruct (upd T1 x (set_color RED)) as [T2| |]; cbn [mbind outcome_bind] in H; try done.
  by eapply rb_while_root_black.
Qed.

(** With a red parent that is not a left child, the loop body changes
    nothing, so the loop condition stays true for ever. *)
Lemma rb_body_else nil T x xn p g :
  load T x = Done xn → load T (parent xn) = Done p → load T (parent p) = Done g →
  parent xn ≠ left g →
  rb_body nil T x = Done (T, x).
Proof.
  intros Hx Hp Hg Hne. unfold rb_body. rewrite Hx. cbn [mbind outcome_bind].
  rewrite Hp. cbn [mbind outcome_bind]. rewrite Hg. cbn [mbind outcome_bind].
  by rewrite decide_False.
Qed.

Lemma rb_while_stuck nil T x xn p g :
  x ≠ root T →
  load T x = Done xn → load T (parent xn) = Done p → color p = RED →
  load T (parent p) = Done g → parent xn ≠ left g →
  ∀ fuel, rb_while nil fuel T x = Timeout.
Proof.
  intros Hr Hx Hp Hc Hg Hne. induction fuel as [|fuel IH]; [done|].
  cbn [rb_while]. rewrite decide_False by done.
  rewrite Hx. cbn [mbind outcome_bind]. rewrite Hp. cbn [mbind outcome_bind].
  rewrite decide_True by done.
  rewrite (rb_body_else nil T x xn p g) by done. cbn [mbind outcome_bind]. exact IH.
Qed.

(** The uncle's colour is read without a check. *)
Lemma rb_body_null_uncle nil T x xn p g :
  load T x = Done xn → load T (parent xn) = Done p → load T (parent p) = Done g →
  parent xn = left g → right g = NULL →
  rb_body nil T x = Fault.
Proof.
  intros Hx Hp Hg Hl Hr. unfold rb_body. rewrite Hx. cbn [mbind outcome_bind].
  rewrite Hp. cbn [mbind outcome_bind]. rewrite Hg. cbn [mbind outcome_bind].
  rewrite decide_True by done. by rewrite Hr.
Qed.

Lemma rb_while_null_uncle nil T x xn p g fuel :
  x ≠ root T →
  load T x = Done xn → load T (parent xn) = Done p → color p = RED →
  load T (parent p) = Done g → parent xn = left g → right g = NULL →
  rb_while nil (S fuel) T x = Fault.
Proof.
  intros Hne Hx Hp Hc Hg Hl Hr. cbn [rb_while]. rewrite decide_False by done.
  rewrite Hx. cbn [mbind outcome_bind]. rewrite Hp. cbn [mbind outcome_bind].
  rewrite decide_True by done.
  by rewrite (rb_body_null_uncle nil T x xn p g).
Qed.

Lemma rb_body_sentinel_uncle nil T x xn p g s :
  load T x = Done xn → load T (parent xn) = Done p → load T (parent p) = Done g →
  parent xn = left g → load T (right g) = Done s → color s = BLACK →
  rb_body nil T x = rb_case23 nil T x.
Proof.
  intros Hx Hp Hg Hl Hr Hs. unfold rb_body. rewrite Hx. cbn [mbind outcome_bind].
  rewrite Hp. cbn [mbind outcome_bind]. rewrite Hg. cbn [mbind outcome_bind].
  rewrite decide_True by done. rewrite Hr. cbn [mbind outcome_bind].
  rewrite decide_False; [done|]. by rewrite Hs.
Qed.

(** [RBinsert1] on the same state: a NIL uncle is taken as black and its
    colour is never read. *)
Lemma loop_body_nil_uncle T N P G n p g :
  load T N = Done n → parent n = Some P →
  load T (Some P) = Done p → color p = RED → parent p = Some G →
  load T (Some G) = Done g → left g = Some P → right g = NIL →
  GetUncle T N = Done NIL
  ∧ loop_body T (Some P) N
    = (T' ← Case_I45 T N (Some P) (Some G); Done (Return T')).
Proof.
  intros Hn HnP Hp Hc HpG Hg Hl Hr.
  assert (HU : GetUncle T N = Done NIL).
  { unfold GetUncle, childDir, GetParent. rewrite Hn. cbn [mbind outcome_bind].
    rewrite HnP, Hp. cbn [mbind outcome_bind]. rewrite HpG, Hg.
    cbn [mbind outcome_bind]. rewrite Hr. unfold NIL. rewrite decide_False by done.
    cbn [flip child]. by rewrite Hr. }
  split; [done|].
  unfold loop_body, GetParent. rewrite Hp. cbn [mbind outcome_bind].
  rewrite decide_False by (by rewrite Hc). rewrite HpG, HU. done.
Qed.

Lemma reify_sound : ∀ fuel m par p t,
  reify fuel m par p = Some t → rep m par t ∧ root_ptr t = p.
Proof.
  induction fuel as [|fuel IH]; intros m par p t H.
  - destruct p; [done|]. simpl in H. by simplify_eq.
  - destruct p as [a|]; simpl in H; [|by simplify_eq].
    destruct (m !! a) as [[c k pa pl pr]|] eqn:Ea; cbn in H; [|done].
    destruct (decide (pa = par)) as [<-|]; [|done].
    destruct (reify fuel m (Some a) pl) as [l|] eqn:El; cbn in H; [|done].
    destruct (reify fuel m (Some a) pr) as [r|] eqn:Er; cbn in H; [|done].
    simplify_eq. apply IH in El as [Rl <-]. apply IH in Er as [Rr <-].
    split; [|done]. simpl. by split_and!.
Qed.

Lemma holds_check T t :
  tree_of T = Some t → bool_decide (distinct t) = true →
  bool_decide (addrs t ⊆ dom (mem T)) = true →
  holds T t.
Proof.
  intros Ht Hd Hdom. apply reify_sound in Ht as [R Hr].
  split; [done|done|by apply bool_decide_eq_true in Hd|by apply bool_decide_eq_true in Hdom].
Qed.

Lemma holds_node_color T t :
  holds T t → node_color T (root T) = match t with Leaf => None | Node c _ _ _ _ => Some c end.
Proof.
  intros [Hr R _ _]. unfold node_color. rewrite Hr.
  destruct t as [|c l a k r]; [done|]. simpl in *. by rewrite (proj1 R).
Qed.

(** ** Where the root colour comes from *)

Lemma RBinsert1_empty fuel T N n0 dir :
  mem T !! N = Some n0 →
  ∃ T', RBinsert1 fuel T NULL (Some N) dir = Done T'
        ∧ root T' = Some N ∧ node_color T' (root T') = Some RED.
Proof.
  intros HN. unfold RBinsert1, RBinsert1_link, NULL, NIL. heap_simpl.
  repeat heap_step. eexists; split; [reflexivity|]. split; [done|].
  unfold node_color. simpl. by rewrite lookup_insert_eq.
Qed.

Lemma RBinsert1_loop_I2 fuel T fP fG tN ul u uk ur :
  holds T (fill [fP; fG] tN) → tN ≠ Leaf → f_color fP = RED →
  f_sib fG = Node RED ul u uk ur →
  ∃ T', RBinsert1_loop (S fuel) T (Some (f_addr fP)) (root_ptr tN) = Done T'
        ∧ root T' = Some (f_addr fG) ∧ node_color T' (root T') = Some RED.
Proof.
  intros H Hne Hc Hu.
  destruct (loop_body_I1 _ _ _ _ _ _ _ _ _ H Hne Hc Hu) as (T' & E & H').
  exists T'. cbn [RBinsert1_loop]. rewrite E. cbn [mbind outcome_bind].
  unfold GetParent. pose proof (load_frame _ _ _ _ H') as Hl. simpl f_addr in Hl.
  rewrite Hl. cbn [mbind outcome_bind]. rewrite frame_node_parent. cbn [ctx_par].
  split; [done|]. rewrite (holds_node_color _ _ H'), (holds_root _ _ H').
  simpl. unfold fill1. simpl. by destruct (f_dir fG).
Qed.

Lemma RBinsert1_loop_I6 fuel T fP tN :
  holds T (fill [fP] tN) → f_color fP = RED →
  ∃ T', RBinsert1_loop (S fuel) T (Some (f_addr fP)) (root_ptr tN) = Done T'
        ∧ root T' = Some (f_addr fP) ∧ node_color T' (root T') = Some BLACK.
Proof.
  intros H Hc. destruct (loop_body_I6 _ _ _ H Hc) as (T' & E & H').
  exists T'. cbn [RBinsert1_loop]. rewrite E. cbn [mbind outcome_bind].
  split; [done|]. rewrite (holds_node_color _ _ H'), (holds_root _ _ H').
  simpl. unfold fill1. simpl. by destruct (f_dir fP).
Qed.

(** ** Case 1 in both programs *)

Lemma loop_continues T P N T' G fuel :
  loop_body T P N = Done (Iterate T' G) →
  RBinsert1_loop (S fuel) T P N
  = (P' ← GetParent T' G;
     match P' with None => Done T' | Some _ => RBinsert1_loop fuel T' P' G end).
Proof. intros E. cbn [RBinsert1_loop]. by rewrite E. Qed.

Lemma case1_fill nil T fP fG ctx tN ul u uk ur :
  holds T (fill (fP :: fG :: ctx) tN) → tN ≠ Leaf → f_color fP = RED →
  f_sib fG = Node RED ul u uk ur →
  ∃ T', loop_body T (Some (f_addr fP)) (root_ptr tN)
          = Done (Iterate T' (Some (f_addr fG)))
        ∧ (f_dir fG = LEFT →
           rb_body nil T (root_ptr tN) = Done (T', Some (f_addr fG)))
        ∧ holds T' (fill (paint RED (with_sib (Node BLACK ul u uk ur) fG) :: ctx)
                       (fill1 (paint BLACK fP) tN)).
Proof.
  intros H Hne Hc Hu. destruct tN as [|c l n k r]; [done|].
  assert (HP := H).
  change (fill (fP :: fG :: ctx) ?t) with (fill (fG :: ctx) (fill1 fP t)) in HP.
  destruct (recolor_frame _ _ _ _ BLACK H) as (T1 & E1 & H1).
  assert (HP1 := H1).
  change (fill (paint BLACK fP :: fG :: ctx) ?t)
    with (fill (fG :: ctx) (fill1 (paint BLACK fP) t)) in HP1.
  destruct (recolor_sib _ _ _ _ _ BLACK _ _ _ _ HP1 Hu) as (T2 & E2 & HP2).
  destruct (recolor_frame _ _ _ _ RED HP2) as (T3 & E3 & HP3).
  simpl f_addr in E3.
  assert (H2 := HP2).
  change (fill (?g :: ctx) (fill1 ?f ?t)) with (fill (f :: g :: ctx) t) in H2.
  assert (H3 := HP3).
  change (fill (?g :: ctx) (fill1 ?f ?t)) with (fill (f :: g :: ctx) t) in H3.
  exists T3. split_and!; [|intros Hd|done].
  - unfold loop_body, GetParent. rewrite (load_frame _ _ _ _ H).
    cbn [mbind outcome_bind]. rewrite frame_node_color, frame_node_parent.
    rewrite decide_False by (rewrite Hc; done). cbn [ctx_par root_ptr].
    rewrite (GetUncle_frame _ _ _ _ _ _ _ _ _ H). cbn [mbind outcome_bind].
    rewrite Hu. cbn [root_ptr].
    rewrite (load_sib T fG ctx (fill1 fP (Node c l n k r)) _ _ _ _ _ HP Hu).
    cbn [mbind outcome_bind color]. rewrite decide_False by done.
    rewrite E1. cbn [mbind outcome_bind]. rewrite E2. cbn [mbind outcome_bind].
    by rewrite E3.
  - unfold rb_body, rb_case1. cbn [root_ptr].
    rewrite (load_fill _ _ _ _ _ _ _ H). cbn [mbind outcome_bind parent ctx_par].
    rewrite (load_frame _ _ _ _ H). cbn [mbind outcome_bind].
    rewrite frame_node_parent. cbn [ctx_par].
    rewrite (load_frame _ _ _ _ HP). cbn [mbind outcome_bind].
    assert (left (frame_node fG (ctx_par ctx) (root_ptr (fill1 fP (Node c l n k r))))
            = Some (f_addr fP)
            ∧ right (frame_node fG (ctx_par ctx) (root_ptr (fill1 fP (Node c l n k r))))
              = Some u) as [-> ->].
    { rewrite root_ptr_fill1. destruct fG as [dG cG g kG sG]; simpl in *; subst.
      done. }
    rewrite decide_True by done.
    rewrite (load_sib T fG ctx (fill1 fP (Node c l n k r)) _ _ _ _ _ HP Hu).
    cbn [mbind outcome_bind color]. rewrite decide_True by done.
    rewrite E1. cbn [mbind outcome_bind]. rewrite E2. cbn [mbind outcome_bind].
    rewrite (load_fill _ _ _ _ _ _ _ H2).
    cbn [mbind outcome_bind parent ctx_par f_addr paint with_sib].
    pose proof (load_frame _ _ _ _ H2) as Hl2. simpl f_addr in Hl2. rewrite Hl2.
    cbn [mbind outcome_bind]. rewrite frame_node_parent. cbn [ctx_par f_addr with_sib].
    rewrite E3. cbn [mbind outcome_bind].
    rewrite (load_fill _ _ _ _ _ _ _ H3).
    cbn [mbind outcome_bind parent ctx_par f_addr paint with_sib].
    pose proof (load_frame _ _ _ _ H3) as Hl3. simpl f_addr in Hl3. rewrite Hl3.
    cbn [mbind outcome_bind]. rewrite frame_node_parent. done.
Qed.

(** ** Case_I5 always finds something to rotate *)

Lemma case_I5_tree_some fG tP : tP ≠ Leaf → ∃ t', case_I5_tree fG tP = Some t'.
Proof.
  destruct tP as [|c l p k r]; [done|]. intros _. unfold case_I5_tree.
  destruct fG as [[] cG g kG sG]; simpl; eauto.
Qed.

Lemma case_I45_tree_some fP fG c l n k r :
  ∃ t', case_I45_tree fP fG (Node c l n k r) = Some t'.
Proof.
  unfold case_I45_tree, case_I5_tree.
  destruct fP as [[] cP p kP sP], fG as [[] cG g kG sG]; simpl; eauto.
Qed.

Lemma Case_I5_runs T fG ctx tP :
  holds T (fill (fG :: ctx) tP) → tP ≠ Leaf →
  ∃ t' T', case_I5_tree fG tP = Some t'
           ∧ Case_I5 T (root_ptr tP) (Some (f_addr fG)) (f_dir fG) = Done T'
           ∧ holds T' (fill ctx t').
Proof.
  intros H Hne. destruct (case_I5_tree_some fG tP Hne) as (t' & Ht').
  destruct (Case_I5_fill _ _ _ _ _ H Hne Ht') as (T' & E & H').
  by exists t', T'.
Qed.

(** ** Where the descent stops *)

Lemma descend_inv nil k fuel : ∀ T cur P dir,
  descend nil fuel T cur k = Done (P, dir) →
  ∃ p pn, P = Some p ∧ mem T !! p = Some pn
          ∧ dir = (if decide (k < key pn) then LEFT else RIGHT)
          ∧ child dir pn = nil.
Proof.
  induction fuel as [|fuel IH]; intros T cur P dir H; [done|].
  cbn [descend] in H. destruct cur as [a|]; [|done]. unfold load in H.
  destruct (mem T !! a) as [n|] eqn:Ea; [|done]. cbn [mbind outcome_bind] in H.
  destruct (decide (child _ n = nil)) as [E|E].
  - injection H as <- <-. by exists a, n.
  - by apply IH in H.
Qed.

(** ** Cases 2 and 3 of thing.c against Case_I45 *)

Lemma rb_case23_fill T fP fG ctx c l n k r :
  holds T (fill (fP :: fG :: ctx) (Node c l n k r)) → f_dir fG = LEFT →
  rb_case23 NIL T (Some n)
  = (T' ← Case_I45 T (Some n) (Some (f_addr fP)) (Some (f_addr fG));
     Done (T', match f_dir fP with LEFT => Some n | RIGHT => Some (f_addr fP) end)).
Proof.
  intros H HdG.
  assert (HP := H).
  change (fill (fP :: fG :: ctx) ?t) with (fill (fG :: ctx) (fill1 fP t)) in HP.
  pose proof H as [_ _ D _]. apply distinct_fill in D as (D1 & D2 & D3).
  unfold rb_case23.
  rewrite (load_fill _ _ _ _ _ _ _ H). cbn [mbind outcome_bind parent ctx_par].
  rewrite (load_frame _ _ _ _ H). cbn [mbind outcome_bind].
  destruct (f_dir fP) eqn:HdP.
  - (* outer *)
    rewrite decide_False.
    2:{ destruct fP as [dP cP p kP [|? ? b ? ?]]; simpl in HdP; subst dP;
          unfold frame_node; simpl in *; try done. intros [= ->]. set_solver. }
    cbn [mbind outcome_bind].
    rewrite (Case_I45_outer _ _ _ _ _ _ _ _ _ H) by congruence. rewrite HdG.
    unfold Case_I5.
    rewrite (load_fill _ _ _ _ _ _ _ H). cbn [mbind outcome_bind parent ctx_par].
    destruct (recolor_frame _ _ _ _ BLACK H) as (T2 & -> & H2).
    cbn [mbind outcome_bind].
    rewrite (load_fill _ _ _ _ _ _ _ H2).
    cbn [mbind outcome_bind parent ctx_par f_addr paint].
    pose proof (load_frame _ _ _ _ H2) as Hl. simpl f_addr in Hl. rewrite Hl. clear Hl.
    cbn [mbind outcome_bind]. rewrite frame_node_parent. cbn [ctx_par].
    change (fill (?f :: fG :: ctx) ?t) with (fill (fG :: ctx) (fill1 f t)) in H2.
    destruct (recolor_frame _ _ _ _ RED H2) as (T3 & -> & H3).
    cbn [mbind outcome_bind].
    change (fill (?g :: ctx) (fill1 ?f ?t)) with (fill (f :: g :: ctx) t) in H3.
    rewrite (load_fill _ _ _ _ _ _ _ H3).
    cbn [mbind outcome_bind parent ctx_par f_addr paint].
    pose proof (load_frame _ _ _ _ H3) as Hl. simpl f_addr in Hl. rewrite Hl. clear Hl.
    cbn [mbind outcome_bind]. rewrite frame_node_parent. cbn [ctx_par f_addr paint].
    reflexivity.
  - (* inner *)
    rewrite decide_True.
    2:{ destruct fP as [dP cP p kP sP]; simpl in HdP; subst dP. reflexivity. }
    assert (Hd : f_dir fP = flip (f_dir fG)) by (by rewrite HdP, HdG).
    destruct (Case_I4_fill _ _ _ _ _ _ _ _ _ H Hd)
      as (T1 & tP & Er & Hroot & E & H1 & E4 & Hout & E45 & Hrt).
    rewrite E45. rewrite HdG in *.
    unfold left_rotate.
    rewrite <- (rotate_inner_root NIL T (Some (f_addr fP)) LEFT _ (f_addr fG)
                  (load_frame _ _ _ _ H) ltac:(by rewrite frame_node_parent)).
    unfold RotateDir in E. rewrite E. cbn [mbind outcome_bind].
    destruct fP as [dP cP p kP sP]; simpl in HdP; subst dP. simpl in Er.
    injection Er as <-. cbn [f_addr] in *.
    change (fill (fG :: ctx) (Node c ?a n k r))
      with (fill (Frame LEFT c n k r :: fG :: ctx) a) in H1.
    unfold Case_I5.
    rewrite (load_fill _ _ _ _ _ _ _ H1). cbn [mbind outcome_bind parent ctx_par f_addr].
    destruct (recolor_frame _ _ _ _ BLACK H1) as (T2 & E2 & H2).
    cbn [f_addr] in E2. rewrite E2. cbn [mbind outcome_bind].
    rewrite (load_fill _ _ _ _ _ _ _ H2).
    cbn [mbind outcome_bind parent ctx_par f_addr paint].
    pose proof (load_frame _ _ _ _ H2) as Hl. simpl f_addr in Hl. rewrite Hl. clear Hl.
    cbn [mbind outcome_bind]. rewrite frame_node_parent. cbn [ctx_par].
    change (fill (?f :: fG :: ctx) ?t) with (fill (fG :: ctx) (fill1 f t)) in H2.
    destruct (recolor_frame _ _ _ _ RED H2) as (T3 & -> & H3).
    cbn [mbind outcome_bind].
    change (fill (?g :: ctx) (fill1 ?f ?t)) with (fill (f :: g :: ctx) t) in H3.
    rewrite (load_fill _ _ _ _ _ _ _ H3).
    cbn [mbind outcome_bind parent ctx_par f_addr paint].
    pose proof (load_frame _ _ _ _ H3) as Hl. simpl f_addr in Hl. rewrite Hl. clear Hl.
    cbn [mbind outcome_bind]. rewrite frame_node_parent. cbn [ctx_par f_addr paint].
    reflexivity.
Qed.

Lemma rb_finish_id T : node_color T (root T) = Some BLACK → rb_finish T = Done T.
Proof.
  unfold node_color, rb_finish, upd. destruct T as [m [a|]]; simpl; [|done].
  destruct (m !! a) as [[[] k pa pl pr]|] eqn:E; simpl; try done.
  intros _. by rewrite insert_id.
Qed.

Lemma rb_while_black_parent nil fuel T x xn p :
  x ≠ root T → load T x = Done xn → load T (parent xn) = Done p →
  color p = BLACK →
  rb_while nil (S fuel) T x = rb_finish T.
Proof.
  intros Hr Hx Hp Hc. cbn [rb_while]. rewrite decide_False by done.
  rewrite Hx. cbn [mbind outcome_bind]. rewrite Hp. cbn [mbind outcome_bind].
  rewrite decide_False; [done|]. by rewrite Hc.
Qed.

(** ** The fixup on trees of any colouring *)

Lemma addrs_fill_same ctx t t' :
  addrs t = addrs t' → addrs (fill ctx t) = addrs (fill ctx t').
Proof. intros E. by rewrite !addrs_fill, E. Qed.

Lemma addrs_fill1_paint c f t : addrs (fill1 (paint c f) t) = addrs (fill1 f t).
Proof. by destruct f as [[] ? ? ? ?]. Qed.

Lemma case_I45_tree_same fP fG c l n k r t' :
  case_I45_tree fP fG (Node c l n k r) = Some t' →
  inorder t' = inorder (fill1 fG (fill1 fP (Node c l n k r)))
  ∧ addrs t' = addrs (fill1 fG (fill1 fP (Node c l n k r))).
Proof.
  unfold case_I45_tree, case_I5_tree.
  destruct fP as [[] cP p kP sP], fG as [[] cG g kG sG]; simpl;
    intros [= <-]; simpl; split; try set_solver;
    repeat (simpl; rewrite <- ?app_assoc); done.
Qed.

(** On a well-linked tree of any colouring the loop returns without a
    fault, within one pass per two levels of the path and one more, and
    leaves a well-linked tree over the same nodes with the same keys in
    the same order. *)
Lemma RBinsert1_loop_any : ∀ fuel T fP ctx tN,
  (length ctx < 2 * fuel)%nat →
  holds T (fill (fP :: ctx) tN) → tN ≠ Leaf →
  ∃ T' t', RBinsert1_loop fuel T (Some (f_addr fP)) (root_ptr tN) = Done T'
     ∧ holds T' t'
     ∧ inorder t' = inorder (fill (fP :: ctx) tN)
     ∧ addrs t' = addrs (fill (fP :: ctx) tN).
Proof.
  induction fuel as [|fuel IH]; intros T fP ctx tN Hlen H Hne; [lia|].
  cbn [RBinsert1_loop].
  destruct (f_color fP) eqn:EcP.
  2:{ rewrite (loop_body_black _ _ _ _ H EcP). cbn [mbind outcome_bind].
      by exists T, (fill (fP :: ctx) tN). }
  destruct ctx as [|fG ctx].
  { destruct (loop_body_I6 _ _ _ H EcP) as (T' & -> & H'). cbn [mbind outcome_bind].
    exists T', (fill [paint BLACK fP] tN). split_and!; [done|done|..]; simpl.
    - apply inorder_fill1_paint.
    - apply addrs_fill1_paint. }
  destruct tN as [|cN l n k r]; [done|].
  destruct (f_sib fG) as [|[] ul u uk ur] eqn:EsG.
  1,3:
    destruct (case_I45_tree_some fP fG cN l n k r) as (t' & Ht');
    destruct (case_I45_tree_same _ _ _ _ _ _ _ _ Ht') as [Hin Had];
    destruct (loop_body_I45 _ _ _ _ _ _ _ _ _ _ H EcP ltac:(by rewrite EsG) Ht')
      as (T' & E & H' & _);
    cbn [root_ptr]; rewrite E; cbn [mbind outcome_bind];
    exists T', (fill ctx t'); split_and!; [done|done|..]; simpl;
    [by apply inorder_fill_same|by apply addrs_fill_same].
  destruct (loop_body_I1 _ _ _ _ _ _ _ _ _ H ltac:(done) EcP EsG) as (T' & E & H').
  rewrite E. cbn [mbind outcome_bind]. unfold GetParent.
  pose proof (load_frame _ _ _ _ H') as Hl. simpl f_addr in Hl.
  rewrite Hl. clear Hl. cbn [mbind outcome_bind].
  rewrite frame_node_parent.
  set (fG' := paint RED (with_sib (Node BLACK ul u uk ur) fG)) in *.
  set (tG := fill1 fG' (fill1 (paint BLACK fP) (Node cN l n k r))).
  assert (HinG : inorder tG = inorder (fill1 fG (fill1 fP (Node cN l n k r)))).
  { unfold tG, fG'. rewrite inorder_fill1_paint, inorder_fill1_sib by (by rewrite EsG).
    destruct fG as [[] ? ? ? ?]; unfold fill1 at 1 3; simpl;
      by rewrite inorder_fill1_paint. }
  assert (HadG : addrs tG = addrs (fill1 fG (fill1 fP (Node cN l n k r)))).
  { unfold tG, fG'. destruct fG as [[] ? ? ? ?], fP as [[] ? ? ? ?];
      simpl in *; subst; simpl; set_solver. }
  assert (HneG : tG ≠ Leaf).
  { unfold tG, fG'. by destruct fG as [[] ? ? ? ?]. }
  destruct ctx as [|fGG ctx]; cbn [ctx_par].
  { exists T', tG. by split_and!. }
  destruct (IH T' fGG ctx tG) as (T'' & t'' & E2 & H2 & Hin2 & Had2);
    [simpl in Hlen; lia|done|done|].
  unfold tG at 1 in E2. rewrite root_ptr_fill1 in E2. simpl f_addr in E2.
  exists T'', t''. split_and!; [done|done|..].
  - rewrite Hin2.
    change (fill (fP :: fG :: fGG :: ctx) ?t) with (fill (fGG :: ctx) (fill1 fG (fill1 fP t))).
    by apply inorder_fill_same.
  - rewrite Had2.
    change (fill (fP :: fG :: fGG :: ctx) ?t) with (fill (fGG :: ctx) (fill1 fG (fill1 fP t))).
    by apply addrs_fill_same.
Qed.

(** ** Height and black-height *)

Lemma RB_height n t : RB n t →
  (height t ≤ 2 * n + match rc t with RED => 1 | BLACK => 0 end)%nat
  ∧ (2 ^ n ≤ S (length (inorder t)))%nat.
Proof.
  induction 1 as [|l a k r n Hl [IHl1 IHl2] Hr [IHr1 IHr2] Hcl Hcr
                   |l a k r n Hl [IHl1 IHl2] Hr [IHr1 IHr2]]; simpl.
  - split; lia.
  - rewrite Hcl in IHl1. rewrite Hcr in IHr1. rewrite length_app. simpl. split; lia.
  - rewrite length_app. simpl.
    destruct (rc l), (rc r); split; lia.
Qed.

Lemma RB_height_log n t : RB n t →
  (height t ≤ 2 * Nat.log2 (S (length (inorder t)))
              + match rc t with RED => 1 | BLACK => 0 end)%nat.
Proof.
  intros H. destruct (RB_height n t H) as [H1 H2].
  apply Nat.log2_le_mono in H2. rewrite Nat.log2_pow2 in H2 by lia. lia.
Qed.

Lemma insert_all_cons k ks T T' :
  insert k T = Done T' → insert_all (k :: ks) T = insert_all ks T'.
Proof. unfold insert_all. simpl. cbn [mbind outcome_bind]. by intros ->. Qed.

Lemma insert_all_spec ks : ∀ T t n,
  holds T t → RB n t → sorted (inorder t) →
  ∃ T' t' n', insert_all ks T = Done T' ∧ holds T' t' ∧ RB n' t'
     ∧ sorted (inorder t') ∧ inorder t' ≡ₚ ks ++ inorder t.
Proof.
  induction ks as [|k ks IH]; intros T t n H HRB Hs.
  - exists T, t, n. by split_and!.
  - destruct (insert_spec k T t n H HRB Hs) as (T1 & t1 & n1 & E & H1 & HRB1 & Hs1 & Hp1).
    destruct (IH T1 t1 n1 H1 HRB1 Hs1) as (T' & t' & n' & E' & H' & HRB' & Hs' & Hp').
    exists T', t', n'. split_and!; [|done..|].
    + by rewrite (insert_all_cons _ _ _ _ E).
    + rewrite Hp', Hp1. simpl. by rewrite Permutation_middle.
Qed.

Lemma RB_unique n m t : RB n t → RB m t → n = m.
Proof.
  intros H1 H2. apply RB_checks in H1 as [_ H1]. apply RB_checks in H2 as [_ H2].
  congruence.
Qed.

Lemma RB_fill_bh ctx : ∀ t n m, RB n t → RB m (fill ctx t) → m = ctx_bh ctx n.
Proof.
  induction ctx as [|f ctx IH]; intros t n m Ht Hm; simpl in *.
  - by eapply RB_unique.
  - destruct (RBC_unfill ctx _ _ Hm) as (n1 & H1 & _).
    destruct (RB_fill1_inv _ _ _ H1) as (n2 & -> & H2 & _).
    rewrite (RB_unique _ _ _ Ht H2). by eapply IH.
Qed.

Lemma rc_fill_cons f ctx t t' : rc (fill (f :: ctx) t) = rc (fill (f :: ctx) t').
Proof.
  revert f t t'. induction ctx as [|g ctx IH]; intros f t t'; simpl.
  - by rewrite !rc_fill1.
  - apply (IH g).
Qed.

(** The loop leaves the number of BLACK nodes on the paths from the root
    as it was, except when it ends at Case_I6, which needs a RED root and
    raises the number by one; the colour of the root changes only there
    (RED to BLACK) and at Case_I2 (BLACK to RED). *)
Lemma RBinsert1_loop_bh : ∀ fuel T fP ctx tN nb,
  (length ctx < 2 * fuel)%nat →
  holds T (fill (fP :: ctx) tN) →
  rc tN = RED → RB nb tN →
  RBC (fP :: ctx) nb BLACK →
  ∃ T' t' nb', RBinsert1_loop fuel T (Some (f_addr fP)) (root_ptr tN) = Done T'
     ∧ holds T' t' ∧ RB nb' t' ∧ t' ≠ Leaf
     ∧ ((nb' = ctx_bh (fP :: ctx) nb
         ∧ (rc t' = rc (fill (fP :: ctx) tN)
            ∨ (rc (fill (fP :: ctx) tN) = BLACK ∧ rc t' = RED)))
        ∨ (nb' = S (ctx_bh (fP :: ctx) nb)
           ∧ rc (fill (fP :: ctx) tN) = RED ∧ rc t' = BLACK)).
Proof.
  induction fuel as [|fuel IH]; intros T fP ctx tN nb Hlen H Hred HN HC; [lia|].
  cbn [RBinsert1_loop].
  destruct HC as (HsP & HcP & HC).
  destruct (f_color fP) eqn:EcP.
  2:{ rewrite (loop_body_black _ _ _ _ H EcP). cbn [mbind outcome_bind].
    destruct (RBC_fill (fP :: ctx) tN nb HN) as (m & Hm).
    { simpl. rewrite EcP. split_and!; done. }
    exists T, (fill (fP :: ctx) tN), m. split_and!; [done..|apply fill_cons_node|].
    left. split; [exact (RB_fill_bh (fP :: ctx) tN nb m HN Hm)|by left]. }
  destruct HcP as [_ HrP]; [done|]. simpl in HC.
  destruct ctx as [|fG ctx].
  { destruct (loop_body_I6 _ _ _ H EcP) as (T' & -> & H'). cbn [mbind outcome_bind].
    exists T', (fill [paint BLACK fP] tN), (S nb). split_and!; [done|done| | |].
    - simpl. apply (RB_fill1 (paint BLACK fP)); auto. done.
    - apply fill_cons_node.
    - right. simpl. rewrite EcP, !rc_fill1. done. }
  destruct HC as (HsG & HcG & HC).
  assert (EcG : f_color fG = BLACK).
  { destruct (f_color fG); [|done]. by destruct HcG. }
  rewrite EcG in HC. simpl in HC.
  destruct tN as [|cN l n k r]; [done|]. simpl in Hred. subst cN.
  assert (Ebh : ctx_bh (fP :: fG :: ctx) nb = ctx_bh ctx (S nb)).
  { simpl. by rewrite EcP, EcG. }
  assert (Hrc0 : ∀ t0, rc t0 = BLACK →
            rc (fill ctx t0) = rc (fill (fP :: fG :: ctx) (Node RED l n k r))).
  { intros t0 Ht0. destruct ctx as [|fGG ctx].
    - simpl. by rewrite rc_fill1, EcG.
    - change (fill (fP :: fG :: fGG :: ctx) ?t)
        with (fill (fGG :: ctx) (fill1 fG (fill1 fP t))).
      apply rc_fill_cons. }
  destruct (f_sib fG) as [|[] ul u uk ur] eqn:EsG.
  1,3:
    destruct (case_I45_tree_RB fP fG l n k r nb) as (t' & Ht' & HRB & Hrc & Hin);
      [done|done|done|done|by rewrite EsG|by rewrite EsG|];
    destruct (loop_body_I45 _ _ _ _ _ _ _ _ _ _ H EcP ltac:(by rewrite EsG) Ht')
      as (T' & E & H' & _);
    cbn [root_ptr]; rewrite E; cbn [mbind outcome_bind];
    destruct (RBC_fill ctx t' (S nb) HRB) as (m & Hm); [by rewrite Hrc|];
    exists T', (fill ctx t'), m; split_and!; [done|done|done| |];
    [destruct ctx; [simpl; intros ->; inversion HRB|apply fill_cons_node]|];
    left; rewrite Ebh; split; [exact (RB_fill_bh ctx t' (S nb) m HRB Hm)|];
    left; by apply Hrc0.
  destruct (loop_body_I1 _ _ _ _ _ _ _ _ _ H ltac:(done) EcP EsG) as (T' & E & H').
  rewrite E. cbn [mbind outcome_bind]. unfold GetParent.
  pose proof (load_frame _ _ _ _ H') as Hl. simpl f_addr in Hl.
  rewrite Hl. clear Hl. cbn [mbind outcome_bind].
  rewrite frame_node_parent.
  set (fG' := paint RED (with_sib (Node BLACK ul u uk ur) fG)) in *.
  set (tG := fill1 fG' (fill1 (paint BLACK fP) (Node RED l n k r))).
  assert (HG : RB (S nb) tG ∧ rc tG = RED).
  { split; [|by unfold tG; rewrite rc_fill1].
    apply (RB_fill1 fG' _ (S nb)); simpl.
    - apply (RB_fill1 (paint BLACK fP)); simpl; auto; done.
    - inversion HsG; subst. by constructor.
    - intros _. by rewrite rc_fill1. }
  assert (HneG : tG ≠ Leaf) by (unfold tG, fG'; by destruct fG as [[] ? ? ? ?]).
  destruct ctx as [|fGG ctx]; cbn [ctx_par].
  { exists T', tG, (S nb). split_and!; [done|done|tauto|done|]. left.
    split; [by rewrite Ebh|]. right. split; [|tauto].
    simpl. by rewrite rc_fill1. }
  destruct (IH T' fGG ctx tG (S nb)) as (T'' & t'' & nb'' & E2 & H2 & HRB2 & Hne2 & Hbh);
    [simpl in Hlen; lia|done|tauto|tauto|done|].
  unfold tG at 1 in E2. rewrite root_ptr_fill1 in E2. simpl f_addr in E2.
  exists T'', t'', nb''. split_and!; [done|done|done|done|].
  rewrite Ebh.
  assert (Hrc1 : rc (fill (fGG :: ctx) tG)
                 = rc (fill (fP :: fG :: fGG :: ctx) (Node RED l n k r))).
  { change (fill (fP :: fG :: fGG :: ctx) ?t)
      with (fill (fGG :: ctx) (fill1 fG (fill1 fP t))).
    apply rc_fill_cons. }
  rewrite <- Hrc1. exact Hbh.
Qed.

(** ** [rb_insert] of thing.c on trees with a sentinel *)

Section sentinel.

Variable s : nat.

Lemma sptr_fill1 f t : sptr s (fill1 f t) = Some (f_addr f).
Proof. destruct f as [[] c a k sb]; reflexivity. Qed.

Lemma srep_fill1 m par f t :
  srep s m par (fill1 f t) ↔
  m !! f_addr f = Some (sframe_node s f par (sptr s t))
  ∧ srep s m (Some (f_addr f)) (f_sib f) ∧ srep s m (Some (f_addr f)) t.
Proof. destruct f as [[] c a k sb]; unfold fill1, sframe_node; simpl; tauto. Qed.

Lemma srep_fill m ctx t :
  srep s m None (fill ctx t) ↔ srep s m (ctx_par ctx) t ∧ srepc s m ctx (sptr s t).
Proof.
  revert t. induction ctx as [|f ctx IH]; intros t; simpl; [tauto|].
  rewrite IH, srep_fill1, sptr_fill1. tauto.
Qed.

Lemma srep_frame m m' par t :
  (∀ a, a ∈ addrs t → m' !! a = m !! a) → srep s m par t → srep s m' par t.
Proof.
  revert par. induction t as [|c l IHl b k r IHr]; intros par Ha; simpl; [done|].
  intros (Hb & Hl & Hr). simpl in Ha.
  split_and!; [rewrite Ha; [done|set_solver]| |].
  - apply IHl; [|done]. intros; apply Ha; set_solver.
  - apply IHr; [|done]. intros; apply Ha; set_solver.
Qed.

Lemma srepc_frame m m' ctx p :
  (∀ a, a ∈ addrs_ctx ctx → m' !! a = m !! a) → srepc s m ctx p → srepc s m' ctx p.
Proof.
  revert p. induction ctx as [|f ctx IH]; intros p Ha; simpl; [done|].
  intros (Hf & Hs & Hc). simpl in Ha. split_and!.
  - rewrite Ha; [done|set_solver].
  - eapply srep_frame; [|done]. intros; apply Ha; set_solver.
  - apply IH; [|done]. intros; apply Ha; set_solver.
Qed.

Lemma srepc_hole m m' ctx p p' :
  distinct_ctx ctx →
  srepc s m ctx p →
  (∀ a, a ∈ addrs_ctx ctx → ctx_par ctx ≠ Some a → m' !! a = m !! a) →
  match ctx with
  | [] => True
  | f :: _ => ∃ n, m !! f_addr f = Some n
                ∧ m' !! f_addr f = Some (set_child (f_dir f) p' n)
  end →
  srepc s m' ctx p'.
Proof.
  destruct ctx as [|f ctx]; simpl; [done|].
  intros (D1 & D2 & D3 & D4) (Hf & Hs & Hc) Hsame (n & Hn & Hn').
  split_and!.
  - rewrite Hn'. rewrite Hf in Hn. inversion Hn; subst n.
    destruct f as [[] c a k sb]; reflexivity.
  - eapply srep_frame; [|done]. intros a Ha. apply Hsame; [set_solver|].
    intros [=]. set_solver.
  - eapply srepc_frame; [|done]. intros a Ha. apply Hsame; [set_solver|].
    intros [=]. set_solver.
Qed.

Lemma ctx_par_in ctx a : ctx_par ctx = Some a → a ∈ addrs_ctx ctx.
Proof. destruct ctx as [|f ctx]; [done|]. simpl. intros [= <-]. set_solver. Qed.

Lemma sholds_lookup T ctx c l a k r :
  sholds s T (fill ctx (Node c l a k r)) →
  mem T !! a = Some (mkRBnode c k (ctx_par ctx) (sptr s l) (sptr s r)).
Proof. intros [_ R _ _ _]. apply srep_fill in R as [R _]. apply R. Qed.

Lemma sload_fill T ctx c l a k r :
  sholds s T (fill ctx (Node c l a k r)) →
  load T (Some a) = Done (mkRBnode c k (ctx_par ctx) (sptr s l) (sptr s r)).
Proof. intros H. unfold load. by rewrite (sholds_lookup _ _ _ _ _ _ _ H). Qed.

(** Replacing the subtree in the hole: the nodes of the path other than
    the innermost one and the sentinel are left as they were. *)
Lemma sholds_replace T T' ctx t t' :
  sholds s T (fill ctx t) →
  distinct t' → addrs t' ## addrs_ctx ctx → s ∉ addrs t' →
  (∀ a, a ∈ {[s]} ∪ addrs_ctx ctx → ctx_par ctx ≠ Some a → mem T' !! a = mem T !! a) →
  srep s (mem T') (ctx_par ctx) t' →
  match ctx with
  | [] => True
  | f :: _ => ∃ n, mem T !! f_addr f = Some n
                ∧ mem T' !! f_addr f = Some (set_child (f_dir f) (sptr s t') n)
  end →
  root T' = ctx_root ctx (root_ptr t') →
  sholds s T' (fill ctx t').
Proof.
  intros [Hr R D Hs Hsen] Dt' Hdisj Hs' Hsame R' Hhole Hr'.
  apply distinct_fill in D as (D1 & D2 & D3).
  apply srep_fill in R as [R1 R2].
  rewrite addrs_fill in Hs.
  split.
  - by rewrite ctx_root_fill.
  - apply srep_fill. split; [done|].
    eapply srepc_hole; [done|exact R2| |done].
    intros a Hin Hp. apply Hsame; [set_solver|done].
  - apply distinct_fill. done.
  - rewrite addrs_fill. set_solver.
  - destruct Hsen as (sn & Hsn & Hc). exists sn. split; [|done].
    rewrite Hsame; [done|set_solver|].
    intros Hp. apply ctx_par_in in Hp. set_solver.
Qed.

Lemma srecolor_fill T ctx c c' l a k r :
  sholds s T (fill ctx (Node c l a k r)) →
  ∃ T', upd T (Some a) (set_color c') = Done T'
        ∧ sholds s T' (fill ctx (Node c' l a k r)).
Proof.
  intros H. pose proof (sholds_lookup _ _ _ _ _ _ _ H) as Hl.
  rewrite (upd_lookup _ _ _ _ Hl). eexists; split; [done|].
  pose proof H as [Hr R D Hs Hsen].
  apply distinct_fill in D as (D1 & D2 & D3).
  apply srep_fill in R as [R1 R2]. simpl in D1, D3, R1.
  rewrite addrs_fill in Hs. simpl in Hs.
  eapply sholds_replace; [exact H|done|done|simpl; set_solver|..]; simpl.
  - intros b Hb _. rewrite lookup_insert_ne; [done|set_solver].
  - rewrite lookup_insert_eq. unfold set_color; simpl.
    split_and!; [done|..]; (eapply srep_frame; [|apply R1]);
      intros b Hb; (rewrite lookup_insert_ne; [done|set_solver]).
  - destruct ctx as [|f ctx]; [done|]. simpl in *. destruct R2 as (Hf & _).
    eexists; split; [exact Hf|]. rewrite lookup_insert_ne; [|set_solver].
    rewrite Hf. destruct f as [[] ? ? ? ?]; reflexivity.
  - rewrite Hr. apply ctx_root_fill.
Qed.

Ltac sheap_simpl :=
  cbn [mbind outcome_bind load upd mem root parent left right color key child flip
       set_child set_parent set_color set_root root_ptr sptr fst snd].

Ltac sheap_step :=
  first
    [ rewrite lookup_insert_eq
    | rewrite lookup_insert_ne by congruence
    | match goal with H : ?m !! ?a = Some _ |- context [?m !! ?a] => rewrite H end ];
  sheap_simpl.

Lemma srotate_links_fill T par dir t t' :
  srep s (mem T) par t → distinct t → s ∉ addrs t →
  rot dir t = Some t' →
  ∃ m', rotate_links (Some s) T (root_ptr t) dir
          = Done (mkRBtree m' (root T), par, root_ptr t')
        ∧ (∀ a, a ∉ addrs t → m' !! a = mem T !! a)
        ∧ srep s m' par t'.
Proof.
  intros R D Hs Hrot.
  destruct dir;
    [destruct t as [|cn ta n kn [|cc [|cb bl b kb br] c kc td]]
    |destruct t as [|cn [|cc ta c kc [|cb bl b kb br]] n kn td]];
    simpl in Hrot; try discriminate; injection Hrot as <-.
  all: simpl in R, D, Hs; destruct_and!.
  all: assert (n ≠ c) by set_solver.
  all: try (assert (n ≠ b ∧ c ≠ b ∧ b ≠ s) as (? & ? & ?) by set_solver).
  all: unfold rotate_links; sheap_simpl; repeat sheap_step.
  all: destruct (decide (@eq (option nat) _ _)) as [?|?];
    [try congruence|try congruence]; sheap_simpl; repeat sheap_step.
  all: eexists; split; [reflexivity|].
  all: split; [intros a Ha; rewrite !lookup_insert_ne by set_solver; done|].
  all: simpl; repeat sheap_step.
  all: unfold set_parent; simpl.
  all: split_and!; try done.
  all: (eapply srep_frame; [|eassumption]); intros a Ha;
    rewrite !lookup_insert_ne by set_solver; done.
Qed.

Lemma sframe_side f par t :
  f_addr f ∉ addrs t → addrs t ## addrs (f_sib f) → s ∉ addrs t → t ≠ Leaf →
  (if decide (right (sframe_node s f par (sptr s t)) = root_ptr t)
   then RIGHT else LEFT) = f_dir f.
Proof.
  intros D1 D2 Hs Ht.
  destruct f as [[] c a k sb]; unfold sframe_node; simpl in *.
  - destruct (decide _) as [E'|]; [|done].
    destruct t as [|? ? b ? ?]; [done|].
    destruct sb as [|? ? b' ? ?]; simpl in *; injection E' as ->; set_solver.
  - destruct t as [|? ? b ? ?]; [done|]. simpl. by rewrite decide_True.
Qed.

Lemma srotate_root_fill T ctx dir t t' :
  sholds s T (fill ctx t) → rot dir t = Some t' →
  ∃ T', rotate_root (Some s) T (root_ptr t) dir = Done T' ∧ sholds s T' (fill ctx t').
Proof.
  intros H Hrot. pose proof H as [Hr R D Hs Hsen].
  apply distinct_fill in D as (D1 & D2 & D3).
  apply srep_fill in R as [R1 R2].
  rewrite addrs_fill in Hs.
  destruct (srotate_links_fill T (ctx_par ctx) dir t t') as (m' & E & Hsame & R');
    [done|done|set_solver|done|].
  unfold rotate_root. rewrite E. sheap_simpl.
  pose proof (rot_addrs _ _ _ Hrot) as Ha.
  pose proof (rot_distinct _ _ _ Hrot D1) as Dt'.
  assert (Hne : t ≠ Leaf) by (destruct t; [destruct dir; discriminate|done]).
  destruct ctx as [|f ctx]; simpl in *.
  - eexists; split; [reflexivity|].
    eapply (sholds_replace T _ [] t t'); [exact H|done|set_solver|set_solver|..];
      simpl; try done.
    intros a Ha' _. apply Hsame. set_solver.
  - destruct R2 as (Hf & Rs & Rc).
    assert (Hnf : f_addr f ∉ addrs t) by set_solver.
    rewrite (Hsame _ Hnf), Hf. sheap_simpl.
    eexists; split; [reflexivity|].
    rewrite sframe_side; [|set_solver..|done].
    eapply (sholds_replace T _ (f :: ctx) t t'); [exact H|done|set_solver|set_solver|..];
      simpl.
    + intros a Ha1 Ha2. rewrite lookup_insert_ne by congruence. apply Hsame. set_solver.
    + eapply srep_frame; [|exact R']. intros a Ha'.
      rewrite lookup_insert_ne; [done|]. rewrite Ha in Ha'. set_solver.
    + eexists; split; [exact Hf|]. rewrite lookup_insert_eq.
      destruct t' as [|? ? b ? ?]; [|done].
      destruct dir, t as [|? [] ? ? []]; discriminate.
    + rewrite Hr. change (root_ptr (fill (f :: ctx) t) = ctx_root (f :: ctx) (root_ptr t')).
      rewrite ctx_root_fill. unfold ctx_root.
      destruct (last (f :: ctx)) eqn:El; [done|]. by apply last_None in El.
Qed.

Lemma sload_frame T f ctx t :
  sholds s T (fill (f :: ctx) t) →
  load T (Some (f_addr f)) = Done (sframe_node s f (ctx_par ctx) (sptr s t)).
Proof.
  intros [_ R _ _ _]. apply srep_fill in R as [_ R]. simpl in R.
  unfold load. by rewrite (proj1 R).
Qed.

Lemma srecolor_frame T f ctx t c' :
  sholds s T (fill (f :: ctx) t) →
  ∃ T', upd T (Some (f_addr f)) (set_color c') = Done T'
        ∧ sholds s T' (fill (paint c' f :: ctx) t).
Proof.
  simpl. destruct f as [[] c a k sb]; unfold fill1, paint; simpl; apply srecolor_fill.
Qed.

Lemma sload_sib T f ctx t c l a k r :
  sholds s T (fill (f :: ctx) t) → f_sib f = Node c l a k r →
  load T (Some a) = Done (mkRBnode c k (Some (f_addr f)) (sptr s l) (sptr s r)).
Proof.
  intros H Hs. rewrite fill_flip, Hs in H. by apply sload_fill in H.
Qed.

Lemma srecolor_sib T f ctx t c c' l a k r :
  sholds s T (fill (f :: ctx) t) → f_sib f = Node c l a k r →
  ∃ T', upd T (Some a) (set_color c') = Done T'
        ∧ sholds s T' (fill (with_sib (Node c' l a k r) f :: ctx) t).
Proof.
  intros H Hs. rewrite fill_flip, Hs in H.
  apply (srecolor_fill _ _ _ c') in H as (T' & E & H'). exists T'. split; [done|].
  rewrite fill_flip. simpl. destruct f as [[] ? ? ? ?]; exact H'.
Qed.

Lemma sload_sentinel T t :
  sholds s T t → ∃ sn, load T (Some s) = Done sn ∧ color sn = BLACK.
Proof.
  intros [_ _ _ _ (sn & Hsn & Hc)]. exists sn. unfold load. by rewrite Hsn.
Qed.

Lemma sholds_frame T T' t :
  sholds s T t → root T' = root T →
  (∀ b, b ∈ {[s]} ∪ addrs t → mem T' !! b = mem T !! b) →
  sholds s T' t.
Proof.
  intros [Hr R D Hs (sn & Hsn & Hc)] Hr' Hsame. split; [congruence| |done|done|].
  - eapply srep_frame; [|done]. intros a Ha. apply Hsame. set_solver.
  - exists sn. split; [|done]. rewrite Hsame; [done|set_solver].
Qed.

Lemma sptr_nil t : s ∉ addrs t → (sptr s t = Some s ↔ t = Leaf).
Proof.
  destruct t as [|c l a k r]; simpl; [done|]. intros Hs. split; [|done].
  intros [= ->]. set_solver.
Qed.

(** The descent either finds the absent child where the key belongs or
    runs out of budget. *)
Lemma sdescend_cases k : ∀ t fuel T ctx,
  sholds s T (fill ctx t) → t ≠ Leaf →
  descend (Some s) fuel T (root_ptr t) k
  = Done (ctx_par (ins_path k t ctx), ctx_dir (ins_path k t ctx))
  ∨ descend (Some s) fuel T (root_ptr t) k = Timeout.
Proof.
  induction t as [|c l IHl a x r IHr]; intros fuel T ctx H Hne; [done|].
  destruct fuel as [|fuel]; [by right|].
  cbn [descend root_ptr]. rewrite (sload_fill _ _ _ _ _ _ _ H).
  cbn [mbind outcome_bind key ins_path].
  pose proof H as [_ _ _ Hs _]. rewrite addrs_fill in Hs. simpl in Hs.
  destruct (decide (k < x)); cbn [child left right].
  - destruct l as [|cl ll la lx lr]; simpl sptr.
    + rewrite decide_True by done. by left.
    + rewrite decide_False by (intros [= ->]; set_solver).
      apply (IHl fuel T (Frame LEFT c a x r :: ctx)); done.
  - destruct r as [|cr rl ra rx rr]; simpl sptr.
    + rewrite decide_True by done. by left.
    + rewrite decide_False by (intros [= ->]; set_solver).
      apply (IHr fuel T (Frame RIGHT c a x l :: ctx)); done.
Qed.

Lemma sdescend_fill k : ∀ t fuel T ctx,
  sholds s T (fill ctx t) → t ≠ Leaf → (height t ≤ fuel)%nat →
  descend (Some s) fuel T (root_ptr t) k
  = Done (ctx_par (ins_path k t ctx), ctx_dir (ins_path k t ctx)).
Proof.
  induction t as [|c l IHl a x r IHr]; intros fuel T ctx H Hne Hfuel; [done|].
  destruct fuel as [|fuel]; [simpl in Hfuel; lia|]. simpl in Hfuel.
  cbn [descend root_ptr]. rewrite (sload_fill _ _ _ _ _ _ _ H).
  cbn [mbind outcome_bind key ins_path].
  pose proof H as [_ _ _ Hs _]. rewrite addrs_fill in Hs. simpl in Hs.
  destruct (decide (k < x)); cbn [child left right].
  - destruct l as [|cl ll la lx lr]; simpl sptr.
    + by rewrite decide_True.
    + rewrite decide_False by (intros [= ->]; set_solver).
      apply (IHl fuel T (Frame LEFT c a x r :: ctx)); [done|done|lia].
  - destruct r as [|cr rl ra rx rr]; simpl sptr.
    + by rewrite decide_True.
    + rewrite decide_False by (intros [= ->]; set_solver).
      apply (IHr fuel T (Frame RIGHT c a x l :: ctx)); [done|done|lia].
Qed.

Lemma ins_path_cons k t : ∀ ctx, t ≠ Leaf → ∃ f ctx', ins_path k t ctx = f :: ctx'.
Proof.
  induction t as [|c l IHl a x r IHr]; intros ctx Hne; [done|]. simpl.
  destruct (decide (k < x)).
  - destruct l; [simpl; eauto|]. by apply IHl.
  - destruct r; [simpl; eauto|]. by apply IHr.
Qed.

(** Linking an allocated node into the absent child at the end of a
    non-empty path. *)
Lemma slink_fill T f ctx a xn :
  sholds s T (fill (f :: ctx) Leaf) →
  mem T !! a = Some xn → left xn = Some s → right xn = Some s →
  a ∉ addrs (fill (f :: ctx) Leaf) → a ≠ s →
  ∃ T1, (T ← upd T (Some a) (set_parent (Some (f_addr f)));
         upd T (Some (f_addr f)) (set_child (f_dir f) (Some a))) = Done T1
        ∧ sholds s T1 (fill (f :: ctx) (Node (color xn) Leaf a (key xn) Leaf)).
Proof.
  intros H Ha Hl Hr Hna Has. pose proof H as [Hroot R D Hs Hsen].
  apply distinct_fill in D as (D1 & D2 & D3).
  apply srep_fill in R as [R1 R2].
  rewrite addrs_fill in Hs, Hna.
  pose proof R2 as (Hf & Rs & Rc).
  assert (a ≠ f_addr f) by (simpl in Hna; set_solver).
  sheap_simpl. repeat sheap_step.
  eexists; split; [reflexivity|].
  eapply (sholds_replace T _ (f :: ctx) Leaf); [exact H|..]; sheap_simpl.
  - simpl. set_solver.
  - simpl in *. set_solver.
  - simpl. set_solver.
  - intros b Hb Hne. simpl in Hne.
    rewrite !lookup_insert_ne; [done|set_solver|congruence].
  - simpl. repeat sheap_step. destruct xn as [cx kx px lx rx]; simpl in *; subst.
    done.
  - eexists; split; [exact Hf|]. by rewrite lookup_insert_eq.
  - rewrite Hroot. change (root_ptr (fill (f :: ctx) Leaf) = ctx_root (f :: ctx) (Some a)).
    rewrite ctx_root_fill. unfold ctx_root.
    destruct (last (f :: ctx)) eqn:El; [done|]. by apply last_None in El.
Qed.

Lemma tree_insert_cases fuel T t a xn :
  sholds s T t → mem T !! a = Some xn → a ∉ addrs t → a ≠ s →
  (∃ T1, tree_insert (Some s) fuel T (Some a) = Done T1
         ∧ sholds s T1 (fill (ins_path (key xn) t [])
                          (Node (color xn) Leaf a (key xn) Leaf)))
  ∨ (tree_insert (Some s) fuel T (Some a) = Timeout ∧ (fuel < height t)%nat).
Proof.
  intros H Ha Hna Has. unfold tree_insert, load. rewrite Ha.
  cbn [mbind outcome_bind]. rewrite (upd_lookup T a xn _ Ha).
  cbn [mbind outcome_bind].
  erewrite upd_lookup by (cbn [mem]; apply lookup_insert_eq).
  cbn [mbind outcome_bind mem root]. rewrite insert_insert_eq.
  set (xn' := set_child RIGHT (Some s) (set_child LEFT (Some s) xn)).
  set (T2 := mkRBtree (<[a := xn']> (mem T)) (root T)).
  assert (H2 : sholds s T2 t).
  { eapply sholds_frame; [exact H|done|]. intros b Hb. unfold T2. simpl.
    rewrite lookup_insert_ne; [done|set_solver]. }
  assert (Ha2 : mem T2 !! a = Some xn') by (unfold T2; simpl; by rewrite lookup_insert_eq).
  assert (Hk : key xn' = key xn) by (by destruct xn).
  assert (Hcol : color xn' = color xn) by (by destruct xn).
  pose proof H as [Hroot R D Hs Hsen].
  destruct t as [|c l b x r].
  - left. simpl in Hroot. rewrite Hroot.
    rewrite (upd_lookup T2 a xn' _ Ha2). cbn [mbind outcome_bind].
    eexists; split; [reflexivity|].
    split; simpl; try done; try set_solver.
    + rewrite lookup_insert_eq. by destruct xn.
    + destruct Hsen as (sn & Hsn & Hc). exists sn. split; [|done].
      by rewrite !lookup_insert_ne.
  - simpl in Hroot. rewrite Hroot.
    change (Some b) with (root_ptr (Node c l b x r)).
    assert (Hne : Node c l b x r ≠ Leaf) by done.
    destruct (ins_path_cons (key xn) (Node c l b x r) [] Hne) as (f & ctx & Ep).
    pose proof (ins_path_fill (key xn) (Node c l b x r) []) as Efill. rewrite Ep in Efill.
    simpl fill at 2 in Efill.
    destruct (sdescend_cases (key xn) (Node c l b x r) fuel T2 [] H2 Hne) as [E|E].
    + left. rewrite E. cbn [mbind outcome_bind]. rewrite Ep. cbn [ctx_par ctx_dir].
      rewrite <- Efill in H2, Hna.
      destruct (slink_fill T2 f ctx a xn' H2 Ha2) as (T1 & E1 & H1);
        [by destruct xn|by destruct xn|done|done|].
      exists T1. rewrite Hk, Hcol in H1. by split.
    + right. rewrite E. split; [done|].
      destruct (decide (fuel < height (Node c l b x r))%nat); [done|].
      rewrite (sdescend_fill (key xn) _ fuel T2 [] H2 Hne) in E by lia. done.
Qed.

Lemma tree_insert_fill fuel T t a xn :
  sholds s T t → mem T !! a = Some xn → a ∉ addrs t → a ≠ s →
  (height t ≤ fuel)%nat →
  ∃ T1, tree_insert (Some s) fuel T (Some a) = Done T1
        ∧ sholds s T1 (fill (ins_path (key xn) t [])
                         (Node (color xn) Leaf a (key xn) Leaf)).
Proof.
  intros H Ha Hna Has Hf.
  destruct (tree_insert_cases fuel T t a xn H Ha Hna Has) as [?|[_ ?]]; [done|lia].
Qed.

Lemma sframe_node_color f par hole : color (sframe_node s f par hole) = f_color f.
Proof. by destruct f as [[] ? ? ? ?]. Qed.

Lemma sframe_node_parent f par hole : parent (sframe_node s f par hole) = par.
Proof. by destruct f as [[] ? ? ? ?]. Qed.

Lemma last_addr_in ctx g : last ctx = Some g → f_addr g ∈ addrs_ctx ctx.
Proof.
  induction ctx as [|f ctx IH]; [done|]. destruct ctx as [|f' ctx].
  - simpl. intros [= ->]. set_solver.
  - rewrite last_cons_cons. intros E. apply IH in E. simpl in *. set_solver.
Qed.

(** The node in the hole of a non-empty path is not the root. *)
Lemma sroot_ne T f ctx c l a k r :
  sholds s T (fill (f :: ctx) (Node c l a k r)) → Some a ≠ root T.
Proof.
  intros [Hr _ D _ _]. rewrite Hr, ctx_root_fill. unfold ctx_root.
  apply distinct_fill in D as (_ & _ & D).
  destruct (last (f :: ctx)) as [g|] eqn:El; [|by apply last_None in El].
  apply last_addr_in in El. intros [= ->]. simpl in D. set_solver.
Qed.

Lemma sroot_fill T f ctx t :
  sholds s T (fill (f :: ctx) t) → ∃ g, last (f :: ctx) = Some g ∧ root T = Some (f_addr g).
Proof.
  intros [Hr _ _ _ _]. rewrite Hr, ctx_root_fill. unfold ctx_root.
  destruct (last (f :: ctx)) as [g|] eqn:El; [eauto|by apply last_None in El].
Qed.

(** Lines 38: colouring the root BLACK. *)
Lemma srb_finish_fill T t :
  sholds s T t → t ≠ Leaf →
  ∃ T', rb_finish T = Done T' ∧ sholds s T' (recolor BLACK t).
Proof.
  intros H Hne. destruct t as [|c l a k r]; [done|]. unfold rb_finish.
  rewrite (sholds_root _ _ _ H). simpl.
  apply (srecolor_fill T [] c BLACK l a k r H).
Qed.

Lemma recolor_id t : rc t = BLACK → recolor BLACK t = t.
Proof. destruct t; simpl; [done|]. by intros ->. Qed.

(** Case 1 of the loop body: the RED parent is a left child and the uncle
    is RED. *)
Lemma srb_body_case1 T fP fG ctx tN ul u uk ur :
  sholds s T (fill (fP :: fG :: ctx) tN) → tN ≠ Leaf →
  f_dir fG = LEFT → f_sib fG = Node RED ul u uk ur →
  ∃ T', rb_body (Some s) T (root_ptr tN) = Done (T', Some (f_addr fG))
        ∧ sholds s T' (fill (paint RED (with_sib (Node BLACK ul u uk ur) fG) :: ctx)
                         (fill1 (paint BLACK fP) tN)).
Proof.
  intros H Hne Hd Hu. destruct tN as [|c l n k r]; [done|].
  assert (HP := H).
  change (fill (fP :: fG :: ctx) ?t) with (fill (fG :: ctx) (fill1 fP t)) in HP.
  destruct (srecolor_frame _ _ _ _ BLACK H) as (T1 & E1 & H1).
  assert (HP1 := H1).
  change (fill (paint BLACK fP :: fG :: ctx) ?t)
    with (fill (fG :: ctx) (fill1 (paint BLACK fP) t)) in HP1.
  destruct (srecolor_sib _ _ _ _ _ BLACK _ _ _ _ HP1 Hu) as (T2 & E2 & HP2).
  destruct (srecolor_frame _ _ _ _ RED HP2) as (T3 & E3 & HP3).
  simpl f_addr in E3.
  assert (H2 := HP2).
  change (fill (?g :: ctx) (fill1 ?f ?t)) with (fill (f :: g :: ctx) t) in H2.
  assert (H3 := HP3).
  change (fill (?g :: ctx) (fill1 ?f ?t)) with (fill (f :: g :: ctx) t) in H3.
  exists T3. split; [|done].
  unfold rb_body, rb_case1. cbn [root_ptr].
  rewrite (sload_fill _ _ _ _ _ _ _ H). cbn [mbind outcome_bind parent ctx_par].
  rewrite (sload_frame _ _ _ _ H). cbn [mbind outcome_bind].
  rewrite sframe_node_parent. cbn [ctx_par].
  rewrite (sload_frame _ _ _ _ HP). cbn [mbind outcome_bind].
  assert (left (sframe_node s fG (ctx_par ctx) (sptr s (fill1 fP (Node c l n k r))))
          = Some (f_addr fP)
          ∧ right (sframe_node s fG (ctx_par ctx) (sptr s (fill1 fP (Node c l n k r))))
            = Some u) as [-> ->].
  { rewrite sptr_fill1. destruct fG as [dG cG g kG sG]; simpl in *; subst.
    done. }
  rewrite decide_True by done.
  rewrite (sload_sib T fG ctx (fill1 fP (Node c l n k r)) _ _ _ _ _ HP Hu).
  cbn [mbind outcome_bind color]. rewrite decide_True by done.
  rewrite E1. cbn [mbind outcome_bind]. rewrite E2. cbn [mbind outcome_bind].
  rewrite (sload_fill _ _ _ _ _ _ _ H2).
  cbn [mbind outcome_bind parent ctx_par f_addr paint with_sib].
  pose proof (sload_frame _ _ _ _ H2) as Hl2. simpl f_addr in Hl2. rewrite Hl2.
  cbn [mbind outcome_bind]. rewrite sframe_node_parent. cbn [ctx_par f_addr with_sib].
  rewrite E3. cbn [mbind outcome_bind].
  rewrite (sload_fill _ _ _ _ _ _ _ H3).
  cbn [mbind outcome_bind parent ctx_par f_addr paint with_sib].
  pose proof (sload_frame _ _ _ _ H3) as Hl3. simpl f_addr in Hl3. rewrite Hl3.
  cbn [mbind outcome_bind]. rewrite sframe_node_parent. done.
Qed.

(** The loop body reaches cases 2 and 3 when the RED parent is a left
    child and the uncle is BLACK: an absent uncle is the sentinel, whose
    colour is read. *)
Lemma srb_body_black_uncle T fP fG ctx c l n k r :
  sholds s T (fill (fP :: fG :: ctx) (Node c l n k r)) →
  f_dir fG = LEFT → rc (f_sib fG) = BLACK →
  rb_body (Some s) T (Some n) = rb_case23 (Some s) T (Some n).
Proof.
  intros H Hd Hu.
  assert (HP := H).
  change (fill (fP :: fG :: ctx) ?t) with (fill (fG :: ctx) (fill1 fP t)) in HP.
  unfold rb_body.
  rewrite (sload_fill _ _ _ _ _ _ _ H). cbn [mbind outcome_bind parent ctx_par].
  rewrite (sload_frame _ _ _ _ H). cbn [mbind outcome_bind].
  rewrite sframe_node_parent. cbn [ctx_par].
  rewrite (sload_frame _ _ _ _ HP). cbn [mbind outcome_bind].
  rewrite sptr_fill1.
  destruct fG as [dG cG g kG sG]; simpl in Hd, Hu; subst dG.
  unfold sframe_node. cbn [f_dir f_sib left right].
  rewrite decide_True by done.
  destruct sG as [|cu ul u uk ur]; cbn [sptr].
  - destruct (sload_sentinel _ _ H) as (sn & -> & Hc). cbn [mbind outcome_bind].
    rewrite decide_False; [done|]. by rewrite Hc.
  - rewrite (sload_sib T _ ctx _ _ _ _ _ _ HP eq_refl).
    cbn [mbind outcome_bind color]. simpl in Hu. subst cu. by rewrite decide_False.
Qed.

Lemma sptr_ne t a : a ∉ addrs t → a ≠ s → Some a ≠ sptr s t.
Proof. destruct t as [|? ? b ? ?]; simpl; intros ? ? [= ->]; set_solver. Qed.

(** Cases 2 and 3 with the RED parent a left child: the subtree below the
    grandparent becomes what label Case_I45 of [RBinsert1] makes of it, and
    the node the loop goes on with is a child of its BLACK root. *)
Lemma srb_case23_fill T fP fG ctx c l n k r :
  sholds s T (fill (fP :: fG :: ctx) (Node c l n k r)) → f_dir fG = LEFT →
  ∃ T' t' x' xn' p',
    rb_case23 (Some s) T (Some n) = Done (T', x')
    ∧ case_I45_tree fP fG (Node c l n k r) = Some t'
    ∧ sholds s T' (fill ctx t')
    ∧ x' ≠ root T' ∧ load T' x' = Done xn' ∧ load T' (parent xn') = Done p'
    ∧ color p' = BLACK
    ∧ x' = match f_dir fP with LEFT => Some n | RIGHT => Some (f_addr fP) end.
Proof.
  intros H Hd.
  pose proof H as [_ _ D Hs _]. apply distinct_fill in D as (D1 & D2 & D3).
  rewrite addrs_fill in Hs.
  destruct fP as [dP cP p kP sP], fG as [dG cG g kG sG]; simpl in Hd; subst dG.
  simpl in D1, D2, D3, Hs.
  unfold rb_case23.
  rewrite (sload_fill _ _ _ _ _ _ _ H). cbn [mbind outcome_bind parent ctx_par f_addr].
  pose proof (sload_frame _ _ _ _ H) as Hl. cbn [f_addr paint] in Hl. rewrite Hl. clear Hl.
  cbn [mbind outcome_bind].
  unfold sframe_node at 1. cbn [f_dir f_sib right f_color f_key].
  destruct dP.
  - (* outer grandchild: case 3 only *)
    cbn [right]. rewrite decide_False by (apply sptr_ne; set_solver).
    cbn [mbind outcome_bind].
    rewrite (sload_fill _ _ _ _ _ _ _ H). cbn [mbind outcome_bind parent ctx_par f_addr].
    destruct (srecolor_frame _ _ _ _ BLACK H) as (T2 & E2 & H2).
    cbn [f_addr] in E2. rewrite E2. cbn [mbind outcome_bind].
    rewrite (sload_fill _ _ _ _ _ _ _ H2). cbn [mbind outcome_bind parent ctx_par f_addr paint].
    pose proof (sload_frame _ _ _ _ H2) as Hl. cbn [f_addr paint] in Hl. rewrite Hl. clear Hl.
    cbn [mbind outcome_bind]. rewrite sframe_node_parent. cbn [ctx_par f_addr].
    assert (HP2 := H2).
    change (fill (?f :: ?g :: ctx) ?t) with (fill (g :: ctx) (fill1 f t)) in HP2.
    destruct (srecolor_frame _ _ _ _ RED HP2) as (T3 & E3 & HP3).
    cbn [f_addr] in E3. rewrite E3. cbn [mbind outcome_bind].
    assert (H3 := HP3).
    change (fill (?g :: ctx) (fill1 ?f ?t)) with (fill (f :: g :: ctx) t) in H3.
    rewrite (sload_fill _ _ _ _ _ _ _ H3). cbn [mbind outcome_bind parent ctx_par f_addr paint].
    pose proof (sload_frame _ _ _ _ H3) as Hl. cbn [f_addr paint] in Hl. rewrite Hl. clear Hl.
    cbn [mbind outcome_bind]. rewrite sframe_node_parent. cbn [ctx_par f_addr paint].
    unfold right_rotate.
    set (t' := Node BLACK (Node c l n k r) p kP (Node RED sP g kG sG)).
    destruct (srotate_root_fill T3 ctx RIGHT
                (Node RED (Node BLACK (Node c l n k r) p kP sP) g kG sG) t' HP3 eq_refl)
      as (T' & E & H').
    cbn [root_ptr] in E. rewrite E. cbn [mbind outcome_bind].
    assert (Hv : sholds s T' (fill (Frame LEFT BLACK p kP (Node RED sP g kG sG) :: ctx)
                                 (Node c l n k r))) by exact H'.
    eexists T', t', (Some n), _, _. split_and!; [done|done|done|..].
    + exact (sroot_ne _ _ _ _ _ _ _ _ Hv).
    + exact (sload_fill _ _ _ _ _ _ _ Hv).
    + exact (sload_frame _ _ _ _ Hv).
    + by rewrite sframe_node_color.
    + reflexivity.
  - (* inner grandchild: case 2, then case 3 *)
    cbn [right]. rewrite decide_True by done. cbn [mbind outcome_bind].
    unfold left_rotate.
    assert (HP := H).
    change (fill (?f :: ?g :: ctx) ?t) with (fill (g :: ctx) (fill1 f t)) in HP.
    destruct (srotate_root_fill T (Frame LEFT cG g kG sG :: ctx) LEFT
                (Node cP sP p kP (Node c l n k r))
                (Node c (Node cP sP p kP l) n k r) HP eq_refl) as (T1 & E1 & HP1).
    cbn [root_ptr] in E1. rewrite E1. cbn [mbind outcome_bind].
    assert (H1 : sholds s T1 (fill (Frame LEFT c n k r :: Frame LEFT cG g kG sG :: ctx)
                                (Node cP sP p kP l))) by exact HP1.
    rewrite (sload_fill _ _ _ _ _ _ _ H1). cbn [mbind outcome_bind parent ctx_par f_addr].
    destruct (srecolor_frame _ _ _ _ BLACK H1) as (T2 & E2 & H2).
    cbn [f_addr] in E2. rewrite E2. cbn [mbind outcome_bind].
    rewrite (sload_fill _ _ _ _ _ _ _ H2). cbn [mbind outcome_bind parent ctx_par f_addr paint].
    pose proof (sload_frame _ _ _ _ H2) as Hl. cbn [f_addr paint] in Hl. rewrite Hl. clear Hl.
    cbn [mbind outcome_bind]. rewrite sframe_node_parent. cbn [ctx_par f_addr].
    assert (HP2 := H2).
    change (fill (?f :: ?g :: ctx) ?t) with (fill (g :: ctx) (fill1 f t)) in HP2.
    destruct (srecolor_frame _ _ _ _ RED HP2) as (T3 & E3 & HP3).
    cbn [f_addr] in E3. rewrite E3. cbn [mbind outcome_bind].
    assert (H3 := HP3).
    change (fill (?g :: ctx) (fill1 ?f ?t)) with (fill (f :: g :: ctx) t) in H3.
    rewrite (sload_fill _ _ _ _ _ _ _ H3). cbn [mbind outcome_bind parent ctx_par f_addr paint].
    pose proof (sload_frame _ _ _ _ H3) as Hl. cbn [f_addr paint] in Hl. rewrite Hl. clear Hl.
    cbn [mbind outcome_bind]. rewrite sframe_node_parent. cbn [ctx_par f_addr paint].
    unfold right_rotate.
    set (t' := Node BLACK (Node cP sP p kP l) n k (Node RED r g kG sG)).
    destruct (srotate_root_fill T3 ctx RIGHT
                (Node RED (Node BLACK (Node cP sP p kP l) n k r) g kG sG) t' HP3 eq_refl)
      as (T' & E & H').
    cbn [root_ptr] in E. rewrite E. cbn [mbind outcome_bind].
    assert (Hv : sholds s T' (fill (Frame LEFT BLACK n k (Node RED r g kG sG) :: ctx)
                                 (Node cP sP p kP l))) by exact H'.
    eexists T', t', (Some p), _, _. split_and!; [done|done|done|..].
    + exact (sroot_ne _ _ _ _ _ _ _ _ Hv).
    + exact (sload_fill _ _ _ _ _ _ _ Hv).
    + exact (sload_frame _ _ _ _ Hv).
    + by rewrite sframe_node_color.
    + reflexivity.
Qed.

Lemma left_ok_inv fP fG ctx :
  left_ok (fP :: fG :: ctx) = true → f_color fP = RED →
  f_dir fG = LEFT ∧ (rc (f_sib fG) = RED → left_ok ctx = true).
Proof.
  simpl. intros H Hc. rewrite Hc in H. destruct (f_dir fG); [|done]. split; [done|].
  intros Hr. by rewrite Hr in H.
Qed.

Lemma left_ok_false_inv ctx :
  left_ok ctx = false →
  ∃ fP fG ctx', ctx = fP :: fG :: ctx' ∧ f_color fP = RED
    ∧ (f_dir fG = RIGHT
       ∨ (f_dir fG = LEFT ∧ rc (f_sib fG) = RED ∧ left_ok ctx' = false)).
Proof.
  destruct ctx as [|fP [|fG ctx]]; simpl; try done.
  destruct (f_color fP) eqn:EcP; [|done]. intros H. exists fP, fG, ctx.
  split_and!; [done..|].
  destruct (f_dir fG); [right|by left]. by destruct (rc (f_sib fG)).
Qed.

(** The loop of [rb_insert] and the statement after it, started at a RED
    node below a path that is red-black apart from the colour of that
    node, with a BLACK root and with every RED parent on the way a left
    child: the loop ends and leaves a red-black tree with a BLACK root and
    the same keys in the same order. *)
Lemma srb_while_correct : ∀ fuel T ctx tN nb,
  (length ctx < 2 * fuel)%nat →
  sholds s T (fill ctx tN) → tN ≠ Leaf → rc tN = RED → RB nb tN →
  RBC ctx nb BLACK →
  (ctx ≠ [] → rc (fill ctx tN) = BLACK) →
  left_ok ctx = true →
  ∃ T' t' nb', rb_while (Some s) fuel T (root_ptr tN) = Done T'
     ∧ sholds s T' t' ∧ RB nb' t' ∧ rc t' = BLACK
     ∧ inorder t' = inorder (fill ctx tN).
Proof.
  induction fuel as [|fuel IH]; intros T ctx tN nb Hlen H Hne Hred HN HC Hroot Hok; [lia|].
  destruct tN as [|cN l n k r]; [done|]. simpl in Hred. subst cN.
  cbn [rb_while root_ptr].
  destruct ctx as [|fP ctx].
  { (* the current node is the root *)
    rewrite decide_True by (by rewrite (sholds_root _ _ _ H)).
    destruct (srb_finish_fill _ _ H) as (T' & E & H'); [done|].
    exists T', (Node BLACK l n k r), (S nb). split_and!; [done|done| |done|done].
    inversion HN; subst. by constructor. }
  rewrite decide_False by (by eapply sroot_ne).
  rewrite (sload_fill _ _ _ _ _ _ _ H). cbn [mbind outcome_bind parent ctx_par].
  rewrite (sload_frame _ _ _ _ H). cbn [mbind outcome_bind].
  rewrite sframe_node_color.
  specialize (Hroot ltac:(done)).
  destruct HC as (HsP & HcP & HC).
  destruct (f_color fP) eqn:EcP.
  2:{ (* BLACK parent *)
    rewrite decide_False by done.
    destruct (srb_finish_fill _ _ H) as (T' & E & H').
    { apply fill_cons_node. }
    rewrite recolor_id in H' by done.
    destruct (RBC_fill (fP :: ctx) (Node RED l n k r) nb HN) as (m & Hm).
    { simpl. rewrite EcP. split_and!; done. }
    by exists T', (fill (fP :: ctx) (Node RED l n k r)), m. }
  rewrite decide_True by done.
  destruct HcP as [_ HrP]; [done|]. simpl in HC.
  destruct ctx as [|fG ctx].
  { simpl in Hroot. rewrite rc_fill1 in Hroot. congruence. }
  destruct (left_ok_inv _ _ _ Hok EcP) as [HdG Hok'].
  destruct HC as (HsG & HcG & HC).
  assert (EcG : f_color fG = BLACK).
  { destruct (f_color fG); [|done]. by destruct HcG. }
  rewrite EcG in HC. simpl in HC.
  destruct (rc (f_sib fG)) eqn:ErG.
  - (* case 1 *)
    destruct (f_sib fG) as [|cu ul u uk ur] eqn:EsG; [done|]. simpl in ErG. subst cu.
    destruct (srb_body_case1 T fP fG ctx (Node RED l n k r) ul u uk ur H ltac:(done) HdG EsG)
      as (T' & E & H').
    cbn [root_ptr] in E. rewrite E. cbn [mbind outcome_bind].
    set (fG' := paint RED (with_sib (Node BLACK ul u uk ur) fG)) in *.
    set (tG := fill1 fG' (fill1 (paint BLACK fP) (Node RED l n k r))).
    assert (HG : RB (S nb) tG ∧ rc tG = RED).
    { split; [|by unfold tG; rewrite rc_fill1].
      apply (RB_fill1 fG' _ (S nb)); simpl.
      - apply (RB_fill1 (paint BLACK fP)); simpl; auto; done.
      - inversion HsG; subst. by constructor.
      - intros _. by rewrite rc_fill1. }
    assert (HinG : inorder tG = inorder (fill1 fG (fill1 fP (Node RED l n k r)))).
    { unfold tG, fG'. rewrite inorder_fill1_paint, inorder_fill1_sib by (by rewrite EsG).
      destruct fG as [[] ? ? ? ?]; unfold fill1 at 1 3; simpl;
        by rewrite inorder_fill1_paint. }
    assert (HneG : tG ≠ Leaf) by (unfold tG, fG'; by destruct fG as [[] ? ? ? ?]).
    destruct (IH T' ctx tG (S nb)) as (T'' & t'' & nb'' & E2 & H2 & HRB2 & Hrc2 & Hin2);
      [simpl in Hlen; lia|exact H'|done|tauto|tauto|done| |by apply Hok'|].
    { intros Hc. destruct ctx as [|fGG ctx]; [done|].
      rewrite <- Hroot.
      change (fill (fP :: fG :: fGG :: ctx) ?t)
        with (fill (fGG :: ctx) (fill1 fG (fill1 fP t))).
      apply rc_fill_cons. }
    unfold tG at 1 in E2. rewrite root_ptr_fill1 in E2. simpl f_addr in E2.
    exists T'', t'', nb''. split_and!; [done|done|done|done|].
    rewrite Hin2.
    change (fill (fP :: fG :: ctx) ?t) with (fill ctx (fill1 fG (fill1 fP t))).
    by apply inorder_fill_same.
  - (* cases 2 and 3 *)
    rewrite (srb_body_black_uncle T fP fG ctx RED l n k r H HdG ErG).
    destruct (srb_case23_fill T fP fG ctx RED l n k r H HdG)
      as (T' & t' & x' & xn' & p' & E & Ht' & H' & Hx1 & Hx2 & Hx3 & Hx4 & _).
    rewrite E. cbn [mbind outcome_bind].
    destruct (case_I45_tree_RB fP fG l n k r nb) as (t2 & Ht2 & HRB & Hrc & Hin);
      [done..|].
    rewrite Ht' in Ht2. injection Ht2 as <-.
    destruct fuel as [|fuel]; [simpl in Hlen; lia|].
    rewrite (rb_while_black_parent (Some s) fuel T' x' xn' p' Hx1 Hx2 Hx3 Hx4).
    assert (Hrc' : rc (fill ctx t') = BLACK).
    { destruct ctx as [|fGG ctx]; [done|]. rewrite <- Hroot.
      change (fill (fP :: fG :: fGG :: ctx) ?t)
        with (fill (fGG :: ctx) (fill1 fG (fill1 fP t))).
      apply rc_fill_cons. }
    destruct (srb_finish_fill _ _ H') as (T'' & E' & H'').
    { intros Hl. destruct ctx as [|f0 ctx0]; [|by apply fill_cons_node in Hl].
      simpl in Hl. subst t'. inversion HRB. }
    rewrite recolor_id in H'' by done.
    destruct (RBC_fill ctx t' (S nb) HRB) as (m & Hm); [by rewrite Hrc|].
    exists T'', (fill ctx t'), m. split_and!; [done|done|done|done|].
    change (fill (fP :: fG :: ctx) ?t) with (fill ctx (fill1 fG (fill1 fP t))).
    by apply inorder_fill_same.
Qed.

(** When the loop meets a RED parent that is not a left child, it never
    ends: the [else] branch changes nothing. *)
Lemma srb_while_diverges : ∀ fuel T ctx tN,
  sholds s T (fill ctx tN) → tN ≠ Leaf →
  left_ok ctx = false →
  rb_while (Some s) fuel T (root_ptr tN) = Timeout.
Proof.
  induction fuel as [|fuel IH]; intros T ctx tN H Hne Hok; [done|].
  destruct tN as [|c l n k r]; [done|].
  destruct (left_ok_false_inv _ Hok) as (fP & fG & ctx' & -> & EcP & Hcase).
  assert (HP := H).
  change (fill (fP :: fG :: ctx') ?t) with (fill (fG :: ctx') (fill1 fP t)) in HP.
  assert (Hx : Some n ≠ root T) by (by eapply sroot_ne).
  pose proof (sload_fill _ _ _ _ _ _ _ H) as Lx. cbn [ctx_par] in Lx.
  pose proof (sload_frame _ _ _ _ H) as Lp.
  pose proof (sload_frame _ _ _ _ HP) as Lg.
  destruct Hcase as [HdG|(HdG & ErG & Hok')].
  - eapply (rb_while_stuck (Some s) T (Some n)); [exact Hx|exact Lx|..]; cbn [parent].
    + exact Lp.
    + by rewrite sframe_node_color.
    + rewrite sframe_node_parent. exact Lg.
    + pose proof H as [_ _ D Hs _]. apply distinct_fill in D as (D1 & D2 & D3).
      rewrite addrs_fill in Hs.
      destruct fG as [dG cG g kG sG]; simpl in HdG; subst dG.
      unfold sframe_node at 1. cbn [f_dir left f_sib].
      apply sptr_ne; simpl in *; set_solver.
  - cbn [rb_while root_ptr]. rewrite decide_False by done.
    rewrite Lx. cbn [mbind outcome_bind parent]. rewrite Lp. cbn [mbind outcome_bind].
    rewrite sframe_node_color, decide_True by done.
    destruct (f_sib fG) as [|cu ul u uk ur] eqn:EsG; [done|]. simpl in ErG. subst cu.
    destruct (srb_body_case1 T fP fG ctx' (Node c l n k r) ul u uk ur H ltac:(done) HdG EsG)
      as (T' & E & H').
    cbn [root_ptr] in E. rewrite E. cbn [mbind outcome_bind].
    set (tG := fill1 (paint RED (with_sib (Node BLACK ul u uk ur) fG))
                 (fill1 (paint BLACK fP) (Node c l n k r))).
    specialize (IH T' ctx' tG H').
    unfold tG at 2 in IH. rewrite root_ptr_fill1 in IH. simpl f_addr in IH.
    apply IH; [|done]. unfold tG. by destruct fG as [[] ? ? ? ?].
Qed.

Lemma srb_insert_correct fuel T t n a xn :
  sholds s T t → RB n t → rc t = BLACK →
  mem T !! a = Some xn → a ∉ addrs t → a ≠ s →
  (height t < fuel)%nat →
  left_ok (ins_path (key xn) t []) = true →
  ∃ T' t' n', rb_insert (Some s) fuel T (Some a) = Done T'
    ∧ sholds s T' t' ∧ RB n' t' ∧ rc t' = BLACK
    ∧ inorder t'
      = inorder (fill (ins_path (key xn) t []) (Node RED Leaf a (key xn) Leaf)).
Proof.
  intros H HRB Hrc Ha Hna Has Hfuel Hok. unfold rb_insert.
  destruct (tree_insert_fill fuel T t a xn H Ha Hna Has) as (T1 & -> & H1); [lia|].
  cbn [mbind outcome_bind].
  destruct (srecolor_fill _ _ _ RED _ _ _ _ H1) as (T2 & -> & H2).
  cbn [mbind outcome_bind].
  set (ctx := ins_path (key xn) t []) in *.
  assert (Hfill : fill ctx Leaf = t) by apply ins_path_fill.
  rewrite <- Hfill in HRB. apply RBC_unfill in HRB as (n' & HL & HC).
  inversion HL; subst n'.
  apply (srb_while_correct fuel T2 ctx (Node RED Leaf a (key xn) Leaf) O);
    try done.
  - pose proof (height_fill ctx Leaf). rewrite Hfill in *. lia.
  - by repeat constructor.
  - intros Hc. destruct ctx as [|f ctx']; [done|]. rewrite <- Hrc, <- Hfill.
    apply rc_fill_cons.
Qed.

Lemma srb_insert_diverges fuel T t a xn :
  sholds s T t → mem T !! a = Some xn → a ∉ addrs t → a ≠ s →
  left_ok (ins_path (key xn) t []) = false →
  rb_insert (Some s) fuel T (Some a) = Timeout.
Proof.
  intros H Ha Hna Has Hok. unfold rb_insert.
  destruct (tree_insert_cases fuel T t a xn H Ha Hna Has) as [(T1 & -> & H1)|[-> _]];
    [|done].
  cbn [mbind outcome_bind].
  destruct (srecolor_fill _ _ _ RED _ _ _ _ H1) as (T2 & -> & H2).
  cbn [mbind outcome_bind].
  by apply (srb_while_diverges fuel T2 (ins_path (key xn) t [])
              (Node RED Leaf a (key xn) Leaf)).
Qed.

End sentinel.

Lemma ins_path_min k : ∀ t ctx,
  Forall (λ x, k < x) (inorder t) → Forall (λ f, f_dir f = LEFT) ctx →
  Forall (λ f, f_dir f = LEFT) (ins_path k t ctx).
Proof.
  induction t as [|c l IHl a x r IHr]; intros ctx Hk Hc; simpl; [done|].
  simpl in Hk. apply Forall_app in Hk as [Hl Hr]. apply Forall_cons in Hr as [Hx Hr].
  rewrite decide_True by done. apply IHl; [done|]. by constructor.
Qed.

Lemma left_ok_all_left : ∀ n ctx,
  (length ctx ≤ n)%nat → Forall (λ f, f_dir f = LEFT) ctx → left_ok ctx = true.
Proof.
  induction n as [|n IH]; intros [|fP [|fG ctx]] Hlen Hc; simpl in *; try done; try lia.
  apply Forall_cons in Hc as [_ Hc]. apply Forall_cons in Hc as [-> Hc].
  destruct (f_color fP); [|done]. destruct (rc (f_sib fG)); [|done].
  destruct n; [lia|]. apply IH; [lia|done].
Qed.

Lemma ctx_left_all_left ctx : Forall (λ f, f_dir f = LEFT) ctx → ctx_left ctx = [].
Proof.
  induction 1 as [|f ctx Hf _ IH]; simpl; [done|]. by rewrite IH, Hf.
Qed.

Lemma loop_body_return_inv T P N T' :
  loop_body T P N = Done (Return T') →
  T' = T ∨ Case_I6 T P = Done T' ∨ ∃ G, Case_I45 T N P G = Done T'.
Proof.
  unfold loop_body. intros H. bind_inv' H; simplify_eq; eauto.
Qed.

Lemma Case_I6_same_links T P T' : Case_I6 T P = Done T' → same_links T T'.
Proof. apply upd_color_same_links. Qed.

(** ** Concrete states with a sentinel *)

Lemma ex_sentinel_inner_holds : sholds 0 ex_sentinel_inner ex_sentinel_tree.
Proof.
  split.
  - reflexivity.
  - simpl. split_and!; try done; vm_compute; reflexivity.
  - simpl. set_solver.
  - simpl. set_solver.
  - eexists. split; [vm_compute; reflexivity|reflexivity].
Qed.

Lemma ex_deep_holds : sholds 0 ex_deep ex_deep_tree.
Proof.
  split.
  - reflexivity.
  - simpl. split_and!; try done; vm_compute; reflexivity.
  - simpl. set_solver.
  - simpl. set_solver.
  - eexists. split; [vm_compute; reflexivity|reflexivity].
Qed.

Lemma ex_sentinel_holds : sholds 0 ex_sentinel ex_sentinel_tree.
Proof.
  split.
  - reflexivity.
  - simpl. split_and!; try done; vm_compute; reflexivity.
  - simpl. set_solver.
  - simpl. set_solver.
  - eexists. split; [vm_compute; reflexivity|reflexivity].
Qed.

(** ** Nodes outside the tree *)

Section frame.

Variable E : gmap nat RBnode.

Lemma load_ext T p n : load T p = Done n → load (ext E T) p = Done n.
Proof.
  unfold load. destruct p as [a|]; [|done]. simpl.
  destruct (mem T !! a) as [n'|] eqn:Ea; [|done]. intros [= ->].
  by rewrite (lookup_union_Some_l _ _ _ _ Ea).
Qed.

Lemma upd_ext T p f T' : upd T p f = Done T' → upd (ext E T) p f = Done (ext E T').
Proof.
  unfold upd. destruct p as [a|]; [|done]. simpl.
  destruct (mem T !! a) as [n'|] eqn:Ea; [|done]. intros [= <-].
  rewrite (lookup_union_Some_l _ _ _ _ Ea). unfold ext. simpl.
  by rewrite insert_union_l.
Qed.

Ltac ext_step :=
  first
    [ match goal with
      | H : load ?T ?p = Done _ |- context [load (ext E ?T) ?p] =>
          rewrite (load_ext _ _ _ H)
      | H : upd ?T ?p ?f = Done _ |- context [upd (ext E ?T) ?p ?f] =>
          rewrite (upd_ext _ _ _ _ H)
      end
    | match goal with
      | |- context [decide ?P] =>
          first [rewrite (decide_True (P:=P)) by (first [assumption|done])
                |rewrite (decide_False (P:=P)) by (first [assumption|done])]
      end ];
  cbn [mbind outcome_bind].

Ltac ext_prep H :=
  bind_inv' H; simplify_eq;
  repeat match goal with
         | H' : (if decide ?P then _ else _) = Done _ |- _ =>
             destruct (decide P); simplify_eq
         end.

Lemma GetParent_ext T N P : GetParent T N = Done P → GetParent (ext E T) N = Done P.
Proof. unfold GetParent. intros H. ext_prep H. by repeat ext_step. Qed.

Lemma childDir_ext T P d : childDir T P = Done d → childDir (ext E T) P = Done d.
Proof.
  unfold childDir. intros H. ext_prep H.
  all: erewrite GetParent_ext by eassumption; cbn [mbind outcome_bind].
  all: by repeat ext_step.
Qed.

Lemma GetUncle_ext T N U : GetUncle T N = Done U → GetUncle (ext E T) N = Done U.
Proof.
  unfold GetUncle. intros H. ext_prep H.
  all: repeat (erewrite GetParent_ext by eassumption; cbn [mbind outcome_bind]).
  all: try (erewrite childDir_ext by eassumption; cbn [mbind outcome_bind]).
  all: by repeat ext_step.
Qed.

Lemma rotate_links_ext nil T node dir T' G C :
  rotate_links nil T node dir = Done (T', G, C) →
  rotate_links nil (ext E T) node dir = Done (ext E T', G, C).
Proof.
  unfold rotate_links. intros H. ext_prep H.
  all: by repeat ext_step.
Qed.

Lemma rotate_root_ext nil T node dir T' :
  rotate_root nil T node dir = Done T' →
  rotate_root nil (ext E T) node dir = Done (ext E T').
Proof.
  unfold rotate_root. intros H. ext_prep H.
  all: erewrite rotate_links_ext by eassumption; cbn [mbind outcome_bind].
  all: repeat ext_step; done.
Qed.

Lemma rotate_inner_ext nil T node dir T' :
  rotate_inner nil T node dir = Done T' →
  rotate_inner nil (ext E T) node dir = Done (ext E T').
Proof.
  unfold rotate_inner. intros H. ext_prep H.
  all: erewrite rotate_links_ext by eassumption; cbn [mbind outcome_bind].
  all: repeat ext_step; done.
Qed.

Lemma RBinsert1_link_ext T P N dir T' :
  RBinsert1_link T P N dir = Done T' →
  RBinsert1_link (ext E T) P N dir = Done (ext E T').
Proof.
  unfold RBinsert1_link. intros H. ext_prep H.
  all: repeat ext_step; done.
Qed.

Lemma Case_I5_ext T P G dir T' :
  Case_I5 T P G dir = Done T' → Case_I5 (ext E T) P G dir = Done (ext E T').
Proof.
  unfold Case_I5, RotateDirRoot. intros H. bind_inv' H.
  repeat ext_step. by apply rotate_root_ext.
Qed.

Lemma Case_I4_ext T N P G dir T' N' P' :
  Case_I4 T N P G dir = Done (T', N', P') →
  Case_I4 (ext E T) N P G dir = Done (ext E T', N', P').
Proof.
  unfold Case_I4, RotateDir. intros H. ext_prep H.
  erewrite rotate_inner_ext by eassumption. cbn [mbind outcome_bind].
  by repeat ext_step.
Qed.

Lemma Case_I45_ext T N P G T' :
  Case_I45 T N P G = Done T' → Case_I45 (ext E T) N P G = Done (ext E T').
Proof.
  unfold Case_I45. intros H. ext_prep H.
  all: erewrite childDir_ext by eassumption; cbn [mbind outcome_bind].
  all: repeat ext_step.
  all: try (erewrite Case_I4_ext by eassumption; cbn [mbind outcome_bind]).
  all: by apply Case_I5_ext.
Qed.

Lemma loop_body_ext T P N r :
  loop_body T P N = Done r → loop_body (ext E T) P N = Done (ext_control E r).
Proof.
  unfold loop_body, Case_I6. intros H. ext_prep H.
  all: repeat ext_step.
  all: repeat (erewrite GetParent_ext by eassumption; cbn [mbind outcome_bind]).
  all: repeat ext_step.
  all: try (erewrite GetUncle_ext by eassumption; cbn [mbind outcome_bind]).
  all: repeat ext_step.
  all: try (erewrite Case_I45_ext by eassumption; cbn [mbind outcome_bind]).
  all: done.
Qed.

Lemma RBinsert1_loop_ext fuel : ∀ T P N T',
  RBinsert1_loop fuel T P N = Done T' →
  RBinsert1_loop fuel (ext E T) P N = Done (ext E T').
Proof.
  induction fuel as [|fuel IH]; intros T P N T' H; [done|].
  cbn [RBinsert1_loop] in *.
  destruct (loop_body T P N) as [r| |] eqn:Eb; try done.
  rewrite (loop_body_ext _ _ _ _ Eb). cbn [mbind outcome_bind] in *.
  destruct r as [T1|T1 N1]; cbn [ext_control]; [by simplify_eq|].
  destruct (GetParent T1 N1) as [P1| |] eqn:Ep; cbn [mbind outcome_bind] in H; try done.
  rewrite (GetParent_ext _ _ _ Ep). cbn [mbind outcome_bind].
  destruct P1; [by apply IH|by simplify_eq].
Qed.

Lemma RBinsert1_ext fuel T P N dir T' :
  RBinsert1 fuel T P N dir = Done T' →
  RBinsert1 fuel (ext E T) P N dir = Done (ext E T').
Proof.
  unfold RBinsert1. intros H.
  destruct (RBinsert1_link T P N dir) as [T1| |] eqn:El; try done.
  rewrite (RBinsert1_link_ext _ _ _ _ _ El). cbn [mbind outcome_bind] in *.
  destruct P; [by apply RBinsert1_loop_ext|by simplify_eq].
Qed.

End frame.

Lemma restrict_lookup A m b : b ∈ A → restrict A m !! b = m !! b.
Proof.
  intros Hb. unfold restrict. destruct (m !! b) as [n|] eqn:Eb.
  - by apply map_lookup_filter_Some.
  - apply map_lookup_filter_None. left. done.
Qed.

Lemma restrict_dom A m : dom (restrict A m) ⊆ A.
Proof.
  intros b Hb. apply elem_of_dom in Hb as [n Hn].
  apply map_lookup_filter_Some in Hn as [_ Hn]. done.
Qed.

Lemma restrict_union A m : restrict A m ∪ m = m.
Proof. apply map_subseteq_union, map_filter_subseteq. Qed.

Lemma holds_restrict T t :
  holds T t → holds (mkRBtree (restrict (addrs t) (mem T)) (root T)) t.
Proof.
  intros [Hr R D Hd]. split; simpl; [done| |done|].
  - eapply rep_frame; [|done]. intros a Ha. by apply restrict_lookup.
  - intros a Ha. apply elem_of_dom. rewrite restrict_lookup by done.
    apply elem_of_dom. by apply Hd.
Qed.

(** ** The two loops on the same tree *)

(** The loop of [rb_insert] with the statement after it, and the loop of
    [RBinsert1], started at the same node of the same tree (one stored
    with a sentinel, one with NULL for absent children): when the root is
    BLACK and every RED parent on the way is a left child, both return,
    and [rb_insert] leaves the tree that [RBinsert1] leaves, with the root
    coloured BLACK. *)
Lemma loops_agree s : ∀ fuel Tc Tp ctx tN,
  (length ctx < 2 * fuel)%nat →
  sholds s Tc (fill ctx tN) → holds Tp (fill ctx tN) → tN ≠ Leaf →
  (ctx ≠ [] → rc (fill ctx tN) = BLACK) →
  left_ok ctx = true →
  ∃ Tc' Tp' t',
    rb_while (Some s) fuel Tc (root_ptr tN) = Done Tc'
    ∧ match ctx with
      | [] => Done Tp
      | fP :: _ => RBinsert1_loop fuel Tp (Some (f_addr fP)) (root_ptr tN)
      end = Done Tp'
    ∧ holds Tp' t' ∧ sholds s Tc' (recolor BLACK t').
Proof.
  induction fuel as [|fuel IH]; intros Tc Tp ctx tN Hlen Hc Hp Hne Hroot Hok; [lia|].
  destruct tN as [|c l n k r]; [done|].
  cbn [rb_while root_ptr].
  destruct ctx as [|fP ctx].
  { rewrite decide_True by (by rewrite (sholds_root _ _ _ Hc)).
    destruct (srb_finish_fill _ _ _ Hc) as (Tc' & E & Hc'); [done|].
    by exists Tc', Tp, (Node c l n k r). }
  rewrite decide_False by (by eapply sroot_ne).
  rewrite (sload_fill _ _ _ _ _ _ _ _ Hc). cbn [mbind outcome_bind parent ctx_par].
  rewrite (sload_frame _ _ _ _ _ Hc). cbn [mbind outcome_bind].
  rewrite sframe_node_color.
  specialize (Hroot ltac:(done)).
  cbn [RBinsert1_loop].
  destruct (f_color fP) eqn:EcP.
  2:{ rewrite decide_False by done.
    destruct (srb_finish_fill _ _ _ Hc) as (Tc' & E & Hc'); [apply fill_cons_node|].
    pose proof (loop_body_black _ _ _ _ Hp EcP) as Eb. cbn [root_ptr] in Eb.
    rewrite Eb. cbn [mbind outcome_bind].
    by exists Tc', Tp, (fill (fP :: ctx) (Node c l n k r)). }
  rewrite decide_True by done.
  destruct ctx as [|fG ctx].
  { simpl in Hroot. rewrite rc_fill1 in Hroot. congruence. }
  destruct (left_ok_inv _ _ _ Hok EcP) as [HdG Hok'].
  destruct (rc (f_sib fG)) eqn:ErG.
  - destruct (f_sib fG) as [|cu ul u uk ur] eqn:EsG; [done|]. simpl in ErG. subst cu.
    destruct (srb_body_case1 s Tc fP fG ctx (Node c l n k r) ul u uk ur Hc ltac:(done)
                HdG EsG) as (Tc1 & E & Hc1).
    cbn [root_ptr] in E. rewrite E. cbn [mbind outcome_bind].
    destruct (loop_body_I1 _ _ _ _ _ _ _ _ _ Hp ltac:(done) EcP EsG) as (Tp1 & Eb & Hp1).
    cbn [root_ptr] in Eb. rewrite Eb. cbn [mbind outcome_bind].
    unfold GetParent.
    pose proof (load_frame _ _ _ _ Hp1) as Hl. simpl f_addr in Hl.
    rewrite Hl. clear Hl. cbn [mbind outcome_bind]. rewrite frame_node_parent.
    set (fG' := paint RED (with_sib (Node BLACK ul u uk ur) fG)) in *.
    set (tG := fill1 fG' (fill1 (paint BLACK fP) (Node c l n k r))).
    assert (HneG : tG ≠ Leaf) by (unfold tG, fG'; by destruct fG as [[] ? ? ? ?]).
    destruct (IH Tc1 Tp1 ctx tG) as (Tc' & Tp' & t' & E1 & E2 & Hp' & Hc');
      [simpl in Hlen; lia|exact Hc1|exact Hp1|done| |by apply Hok'|].
    { intros Hcne. destruct ctx as [|fGG ctx]; [done|]. rewrite <- Hroot.
      change (fill (fP :: fG :: fGG :: ctx) ?t)
        with (fill (fGG :: ctx) (fill1 fG (fill1 fP t))).
      apply rc_fill_cons. }
    assert (Hrp : root_ptr tG = Some (f_addr fG)) by (unfold tG; by rewrite root_ptr_fill1).
    rewrite Hrp in E1, E2.
    exists Tc', Tp', t'. split_and!; [done| |done|done].
    by destruct ctx as [|fGG ctx].
  - rewrite (srb_body_black_uncle s Tc fP fG ctx c l n k r Hc HdG ErG).
    destruct (srb_case23_fill s Tc fP fG ctx c l n k r Hc HdG)
      as (Tc1 & t' & x' & xn' & p' & E & Ht' & Hc1 & Hx1 & Hx2 & Hx3 & Hx4 & _).
    rewrite E. cbn [mbind outcome_bind].
    destruct fuel as [|fuel]; [simpl in Hlen; lia|].
    rewrite (rb_while_black_parent (Some s) fuel Tc1 x' xn' p' Hx1 Hx2 Hx3 Hx4).
    destruct (loop_body_I45 _ _ _ _ _ _ _ _ _ _ Hp EcP ErG Ht') as (Tp' & Eb & Hp' & _).
    rewrite Eb. cbn [mbind outcome_bind].
    destruct (srb_finish_fill _ _ _ Hc1) as (Tc' & E' & Hc').
    { destruct ctx as [|f0 ctx0]; [|apply fill_cons_node]. simpl.
      unfold case_I45_tree, case_I5_tree in Ht'.
      destruct fP as [[] ? ? ? ?], fG as [[] ? ? ? ?]; simpl in Ht'; by simplify_eq. }
    by exists Tc', Tp', (fill ctx t').
Qed.

(** ** The fixup does not look at keys *)

Section keys.

Variable f : Z → Z.

Lemma load_kmap T p n : load T p = Done n → load (kmap f T) p = Done (set_key f n).
Proof.
  unfold load. destruct p as [a|]; [|done]. simpl. rewrite lookup_fmap.
  destruct (mem T !! a) as [n'|]; [|done]. by intros [= ->].
Qed.

Lemma upd_kmap T p g T' :
  upd T p g = Done T' →
  (∀ n, set_key f (g n) = g (set_key f n)) →
  upd (kmap f T) p g = Done (kmap f T').
Proof.
  intros H Hg. revert H. unfold upd. destruct p as [a|]; [|done]. simpl. rewrite lookup_fmap.
  destruct (mem T !! a) as [n'|]; [|done]. intros [= <-]. simpl.
  unfold kmap. simpl. by rewrite fmap_insert, Hg.
Qed.

Lemma set_key_child d c n : set_key f (set_child d c n) = set_child d c (set_key f n).
Proof. by destruct d. Qed.

Lemma child_set_key d n : child d (set_key f n) = child d n.
Proof. by destruct d. Qed.

Ltac kmap_prep H :=
  bind_inv' H; simplify_eq;
  repeat match goal with
         | H' : (if decide ?P then _ else _) = Done _ |- _ =>
             destruct (decide P); simplify_eq
         end.

Ltac kmap_step :=
  first
    [ match goal with
      | H : load ?T ?p = Done _ |- context [load (kmap f ?T) ?p] =>
          rewrite (load_kmap _ _ _ H)
      | H : upd ?T ?p ?g = Done _ |- context [upd (kmap f ?T) ?p ?g] =>
          rewrite (upd_kmap _ _ _ _ H)
            by (intros; first [apply set_key_child|reflexivity])
      end
    | progress rewrite ?child_set_key
    | match goal with
      | |- context [decide ?P] =>
          first [rewrite (decide_True (P:=P)) by (first [assumption|done])
                |rewrite (decide_False (P:=P)) by (first [assumption|done])]
      end ];
  cbn [mbind outcome_bind set_key color parent left right].

Lemma GetParent_kmap T N P : GetParent T N = Done P → GetParent (kmap f T) N = Done P.
Proof. unfold GetParent. intros H. kmap_prep H. by repeat kmap_step. Qed.

Lemma childDir_kmap T P d : childDir T P = Done d → childDir (kmap f T) P = Done d.
Proof.
  unfold childDir. intros H. kmap_prep H.
  all: erewrite GetParent_kmap by eassumption; cbn [mbind outcome_bind].
  all: by repeat kmap_step.
Qed.

Lemma GetUncle_kmap T N U : GetUncle T N = Done U → GetUncle (kmap f T) N = Done U.
Proof.
  unfold GetUncle. intros H. kmap_prep H.
  all: repeat (erewrite GetParent_kmap by eassumption; cbn [mbind outcome_bind]).
  all: try (erewrite childDir_kmap by eassumption; cbn [mbind outcome_bind]).
  all: by repeat kmap_step.
Qed.

Lemma rotate_links_kmap nil T node dir T' G C :
  rotate_links nil T node dir = Done (T', G, C) →
  rotate_links nil (kmap f T) node dir = Done (kmap f T', G, C).
Proof.
  unfold rotate_links. intros H. kmap_prep H.
  all: by repeat kmap_step.
Qed.

Lemma rotate_root_kmap nil T node dir T' :
  rotate_root nil T node dir = Done T' →
  rotate_root nil (kmap f T) node dir = Done (kmap f T').
Proof.
  unfold rotate_root. intros H. kmap_prep H.
  all: erewrite rotate_links_kmap by eassumption; cbn [mbind outcome_bind].
  all: repeat kmap_step; done.
Qed.

Lemma rotate_inner_kmap nil T node dir T' :
  rotate_inner nil T node dir = Done T' →
  rotate_inner nil (kmap f T) node dir = Done (kmap f T').
Proof.
  unfold rotate_inner. intros H. kmap_prep H.
  all: erewrite rotate_links_kmap by eassumption; cbn [mbind outcome_bind].
  all: repeat kmap_step; done.
Qed.

Lemma RBinsert1_link_kmap T P N dir T' :
  RBinsert1_link T P N dir = Done T' →
  RBinsert1_link (kmap f T) P N dir = Done (kmap f T').
Proof.
  unfold RBinsert1_link. intros H. kmap_prep H.
  all: repeat kmap_step; done.
Qed.

Lemma Case_I5_kmap T P G dir T' :
  Case_I5 T P G dir = Done T' → Case_I5 (kmap f T) P G dir = Done (kmap f T').
Proof.
  unfold Case_I5, RotateDirRoot. intros H. bind_inv' H.
  repeat kmap_step. by apply rotate_root_kmap.
Qed.

Lemma Case_I4_kmap T N P G dir T' N' P' :
  Case_I4 T N P G dir = Done (T', N', P') →
  Case_I4 (kmap f T) N P G dir = Done (kmap f T', N', P').
Proof.
  unfold Case_I4, RotateDir. intros H. kmap_prep H.
  erewrite rotate_inner_kmap by eassumption. cbn [mbind outcome_bind].
  by repeat kmap_step.
Qed.

Lemma Case_I45_kmap T N P G T' :
  Case_I45 T N P G = Done T' → Case_I45 (kmap f T) N P G = Done (kmap f T').
Proof.
  unfold Case_I45. intros H. kmap_prep H.
  all: erewrite childDir_kmap by eassumption; cbn [mbind outcome_bind].
  all: repeat kmap_step.
  all: try (erewrite Case_I4_kmap by eassumption; cbn [mbind outcome_bind]).
  all: by apply Case_I5_kmap.
Qed.

Lemma loop_body_kmap T P N r :
  loop_body T P N = Done r → loop_body (kmap f T) P N = Done (kmap_control f r).
Proof.
  unfold loop_body, Case_I6. intros H. kmap_prep H.
  all: repeat kmap_step.
  all: repeat (erewrite GetParent_kmap by eassumption; cbn [mbind outcome_bind]).
  all: repeat kmap_step.
  all: try (erewrite GetUncle_kmap by eassumption; cbn [mbind outcome_bind]).
  all: repeat kmap_step.
  all: try (erewrite Case_I45_kmap by eassumption; cbn [mbind outcome_bind]).
  all: done.
Qed.

Lemma RBinsert1_loop_kmap fuel : ∀ T P N T',
  RBinsert1_loop fuel T P N = Done T' →
  RBinsert1_loop fuel (kmap f T) P N = Done (kmap f T').
Proof.
  induction fuel as [|fuel IH]; intros T P N T' H; [done|].
  cbn [RBinsert1_loop] in *.
  destruct (loop_body T P N) as [r| |] eqn:Eb; try done.
  rewrite (loop_body_kmap _ _ _ _ Eb). cbn [mbind outcome_bind] in *.
  destruct r as [T1|T1 N1]; cbn [kmap_control]; [by simplify_eq|].
  destruct (GetParent T1 N1) as [P1| |] eqn:Ep; cbn [mbind outcome_bind] in H; try done.
  rewrite (GetParent_kmap _ _ _ Ep). cbn [mbind outcome_bind].
  destruct P1; [by apply IH|by simplify_eq].
Qed.

End keys.

(** ** No fault with a sentinel *)

Lemma rb_while_S nil fuel T x :
  rb_while nil (S fuel) T x
  = if decide (x = root T) then rb_finish T
    else
      xn ← load T x;
      p ← load T (parent xn);
      if decide (color p = RED) then
        '(T, x) ← rb_body nil T x;
        rb_while nil fuel T x
      else rb_finish T.
Proof. reflexivity. Qed.

(** A run that ended within its budget ends the same way with a larger
    budget. *)
Lemma rb_while_mono nil : ∀ fuel T x r,
  rb_while nil fuel T x = r → r ≠ Timeout → rb_while nil (S fuel) T x = r.
Proof.
  induction fuel as [|fuel IH]; intros T x r H Hr; [simpl in H; congruence|].
  rewrite rb_while_S in H. rewrite rb_while_S.
  destruct (decide (x = root T)); [done|].
  destruct (load T x) as [xn| |]; cbn [mbind outcome_bind] in *; try done.
  destruct (load T (parent xn)) as [p| |]; cbn [mbind outcome_bind] in *; try done.
  destruct (decide (color p = RED)); [|done].
  destruct (rb_body nil T x) as [[T1 x1]| |]; cbn [mbind outcome_bind] in *; try done.
  by apply IH.
Qed.

Lemma rb_while_mono_add nil k : ∀ fuel T x r,
  rb_while nil fuel T x = r → r ≠ Timeout → rb_while nil (k + fuel) T x = r.
Proof.
  induction k as [|k IH]; intros fuel T x r H Hr; [done|].
  simpl plus. apply rb_while_mono; [|done]. by apply IH.
Qed.

(** ** Insertions of a new minimum with [rb_insert] *)

Lemma srep_dom s m par t : srep s m par t → addrs t ⊆ dom m.
Proof.
  revert par. induction t as [|c l IHl a k r IHr]; intros par; simpl; [set_solver|].
  intros (Ha & Hl & Hr). apply elem_of_dom_2 in Ha.
  specialize (IHl _ Hl). specialize (IHr _ Hr). set_solver.
Qed.

Lemma sholds_height s T t : sholds s T t → (height t ≤ size (mem T))%nat.
Proof.
  intros [_ R D _ _]. rewrite <- size_dom.
  etrans; [by apply height_le_size|]. apply subseteq_size. by eapply srep_dom.
Qed.

Lemma c_insert_min s k T t n :
  sholds s T t → RB n t → rc t = BLACK →
  Forall (λ x, k < x) (inorder t) →
  ∃ T' t' n', c_insert s k T = Done T' ∧ sholds s T' t' ∧ RB n' t' ∧ rc t' = BLACK
    ∧ inorder t' = k :: inorder t.
Proof.
  intros H HRB Hrc Hmin. unfold c_insert, alloc.
  pose proof (is_fresh (dom (mem T))) as Hfresh.
  set (a := fresh (dom (mem T))) in *.
  set (xn := mkRBnode BLACK k NULL NULL NULL).
  set (T1 := mkRBtree (<[a := xn]> (mem T)) (root T)).
  pose proof H as [Hr R D Hs (sn & Hsn & Hc)].
  assert (Has : a ≠ s) by (intros ->; apply Hfresh; by apply elem_of_dom_2 in Hsn).
  assert (Hna : a ∉ addrs t) by (intros Hin; apply Hfresh; by eapply srep_dom).
  assert (H1 : sholds s T1 t).
  { eapply sholds_frame; [exact H|done|]. intros b Hb. unfold T1. simpl.
    rewrite lookup_insert_ne; [done|set_solver]. }
  assert (Ha1 : mem T1 !! a = Some xn) by (unfold T1; simpl; by rewrite lookup_insert_eq).
  pose proof (ins_path_min k t [] Hmin ltac:(constructor)) as Hleft.
  destruct (srb_insert_correct s (S (size (mem T1))) T1 t n a xn H1 HRB Hrc Ha1 Hna Has)
    as (T' & t' & n' & E & H' & HRB' & Hrc' & Hin).
  { pose proof (sholds_height _ _ _ H1). lia. }
  { by eapply left_ok_all_left. }
  exists T', t', n'. split_and!; [exact E|done..|].
  simpl key in Hin.
  rewrite Hin, inorder_fill, (ctx_left_all_left _ Hleft). simpl.
  pose proof (inorder_fill (ins_path k t []) Leaf) as E'.
  rewrite ins_path_fill, (ctx_left_all_left _ Hleft) in E'. simpl in E'.
  by rewrite E'.
Qed.

(** ** The two counts of BLACK nodes *)

Lemma RB_below n t :
  RB n t →
  black_height_below t
  = Some (match t with Node BLACK _ _ _ _ => Nat.pred n | _ => n end).
Proof.
  inversion 1 as [|l a k r n' Hl Hr Hcl Hcr|l a k r n' Hl Hr]; subst; simpl; [done|..].
  all: destruct (RB_checks _ _ Hl) as [_ ->], (RB_checks _ _ Hr) as [_ ->]; simpl.
  all: by rewrite decide_True.
Qed.



(** ** Reading back a tree stored with a sentinel *)

Lemma sreify_rep s : ∀ t fuel m par,
  srep s m par t → s ∉ addrs t → (height t ≤ fuel)%nat →
  sreify s fuel m par (sptr s t) = Some t.
Proof.
  induction t as [|c l IHl a k r IHr]; intros fuel m par R Hs Hf.
  - destruct fuel; simpl; by rewrite decide_True.
  - simpl in Hs. destruct fuel as [|fuel]; [simpl in Hf; lia|]. simpl in Hf.
    cbn [sptr sreify]. rewrite decide_False by set_solver.
    destruct R as (Ha & Rl & Rr). rewrite Ha. simpl.
    rewrite decide_True by done.
    rewrite (IHl fuel m (Some a) Rl) by (set_solver || lia). simpl.
    rewrite (IHr fuel m (Some a) Rr) by (set_solver || lia). done.
Qed.

Lemma sholds_stree_of s T t : sholds s T t → stree_of s T = Some t.
Proof.
  intros H. pose proof H as [Hr R D Hs _]. unfold stree_of. rewrite Hr.
  destruct t as [|c l a k r]; [done|]. cbn [root_ptr].
  change (Some a) with (sptr s (Node c l a k r)).
  apply sreify_rep; [done|done|]. pose proof (sholds_height _ _ _ H). lia.
Qed.

Lemma sholds_svalidate s T t n :
  sholds s T t → RB n t → rc t = BLACK → sorted (inorder t) →
  svalidate s T = true.
Proof.
  intros H HRB Hrc Hs. unfold svalidate. rewrite (sholds_stree_of _ _ _ H).
  destruct (RB_checks _ _ HRB) as [Hnr Hbh].
  unfold root_black, balanced. rewrite Hnr, Hbh, (sorted_bst_ordered _ Hs).
  rewrite !bool_decide_eq_true_2; [done|by eexists|done].
Qed.

(** ** Completed insertions with [rb_insert] *)

(** [rb_insert] either meets only RED parents that are left children, and
    then returns a red-black tree with a BLACK root, or never returns: a
    completed insertion keeps all five invariants. *)
Lemma c_insert_done s k T t n T' :
  sholds s T t → RB n t → rc t = BLACK → sorted (inorder t) →
  c_insert s k T = Done T' →
  ∃ t' n', sholds s T' t' ∧ RB n' t' ∧ rc t' = BLACK
    ∧ sorted (inorder t') ∧ inorder t' ≡ₚ k :: inorder t.
Proof.
  intros H HRB Hrc Hsort. unfold c_insert, alloc.
  pose proof (is_fresh (dom (mem T))) as Hfresh.
  set (a := fresh (dom (mem T))) in *.
  set (xn := mkRBnode BLACK k NULL NULL NULL).
  set (T1 := mkRBtree (<[a := xn]> (mem T)) (root T)).
  pose proof H as [Hr R D Hs (sn & Hsn & Hc)].
  assert (Has : a ≠ s) by (intros ->; apply Hfresh; by apply elem_of_dom_2 in Hsn).
  assert (Hna : a ∉ addrs t) by (intros Hin; apply Hfresh; by eapply srep_dom).
  assert (H1 : sholds s T1 t).
  { eapply sholds_frame; [exact H|done|]. intros b Hb. unfold T1. simpl.
    rewrite lookup_insert_ne; [done|set_solver]. }
  assert (Ha1 : mem T1 !! a = Some xn) by (unfold T1; simpl; by rewrite lookup_insert_eq).
  intros E.
  destruct (left_ok (ins_path k t [])) eqn:Hok.
  - destruct (srb_insert_correct s (S (size (mem T1))) T1 t n a xn H1 HRB Hrc Ha1 Hna Has)
      as (T'' & t' & n' & E' & H' & HRB' & Hrc' & Hin).
    { pose proof (sholds_height _ _ _ H1). lia. }
    { done. }
    rewrite E' in E. injection E as <-. exists t', n'.
    simpl key in Hin. split_and!; [done..| |].
    + rewrite Hin. by apply ins_path_sorted.
    + rewrite Hin, inorder_fill. simpl.
      pose proof (inorder_fill (ins_path k t []) Leaf) as E''.
      rewrite ins_path_fill in E''. simpl in E''. rewrite E''.
      by rewrite Permutation_middle.
  - by rewrite (srb_insert_diverges s _ T1 t a xn H1 Ha1 Hna Has Hok) in E.
Qed.

Lemma c_insert_all_done s : ∀ ks T t n T',
  sholds s T t → RB n t → rc t = BLACK → sorted (inorder t) →
  c_insert_all s ks T = Done T' →
  ∃ t' n', sholds s T' t' ∧ RB n' t' ∧ rc t' = BLACK
    ∧ sorted (inorder t') ∧ inorder t' ≡ₚ ks ++ inorder t.
Proof.
  induction ks as [|k ks IH]; intros T t n T' H HRB Hrc Hsort E; simpl in E.
  - injection E as <-. by exists t, n.
  - destruct (c_insert s k T) as [T1| |] eqn:E1; try done.
    cbn [mbind outcome_bind] in E.
    destruct (c_insert_done _ _ _ _ _ _ H HRB Hrc Hsort E1)
      as (t1 & n1 & H1 & HRB1 & Hrc1 & Hs1 & Hin1).
    destruct (IH _ _ _ _ H1 HRB1 Hrc1 Hs1 E) as (t' & n' & H' & HRB' & Hrc' & Hs' & Hin').
    exists t', n'. split_and!; [done..|].
    rewrite Hin', Hin1. simpl. by rewrite Permutation_middle.
Qed.

(** ** [rb_insert] allocates nothing *)

Lemma rb_case1_same_nodes T x y T' x' :
  rb_case1 T x y = Done (T', x') → same_nodes T T'.
Proof.
  unfold rb_case1. intros H. bind_inv' H; simplify_eq. same_nodes_chain.
Qed.

Lemma rb_case23_same_nodes nil T x T' x' :
  rb_case23 nil T x = Done (T', x') → same_nodes T T'.
Proof.
  unfold rb_case23, left_rotate, right_rotate. intros H.
  destruct (load T x) as [xn| |]; cbn [mbind outcome_bind] in H; try done.
  destruct (load T (parent xn)) as [p| |]; cbn [mbind outcome_bind] in H; try done.
  assert (∃ T1 x1, same_nodes T T1 ∧
            (xn ← load T1 x1;
             T ← upd T1 (parent xn) (set_color BLACK);
             xn ← load T x1;
             p ← load T (parent xn);
             T ← upd T (parent p) (set_color RED);
             xn ← load T x1;
             p ← load T (parent xn);
             T ← rotate_root nil T (parent p) RIGHT;
             Done (T, x1)) = Done (T', x')) as (T1 & x1 & HT1 & H1).
  { destruct (decide (x = right p)).
    - destruct (rotate_root nil T (parent xn) LEFT) as [T1| |] eqn:Er;
        cbn [mbind outcome_bind] in H; try done.
      exists T1, (parent xn). split; [by eapply rotate_root_same_nodes|done].
    - cbn [mbind outcome_bind] in H. by exists T, x. }
  clear H. bind_inv' H1; simplify_eq.
  match goal with
  | H : rotate_root _ _ _ _ = _ |- _ => apply rotate_root_same_nodes in H
  end.
  same_nodes_chain.
Qed.

Lemma rb_body_same_nodes nil T x T' x' :
  rb_body nil T x = Done (T', x') → same_nodes T T'.
Proof.
  unfold rb_body. intros H. bind_inv' H; simplify_eq; try reflexivity.
  - by eapply rb_case1_same_nodes.
  - by eapply rb_case23_same_nodes.
Qed.

Lemma rb_finish_same_nodes T T' : rb_finish T = Done T' → same_nodes T T'.
Proof. unfold rb_finish. intros H. by apply upd_same_nodes in H. Qed.

Lemma rb_while_same_nodes nil fuel : ∀ T x T',
  rb_while nil fuel T x = Done T' → same_nodes T T'.
Proof.
  induction fuel as [|fuel IH]; intros T x T' H; [done|].
  cbn [rb_while] in H.
  destruct (decide (x = root T)); [by apply rb_finish_same_nodes|].
  destruct (load T x) as [xn| |]; cbn [mbind outcome_bind] in H; try done.
  destruct (load T (parent xn)) as [p| |]; cbn [mbind outcome_bind] in H; try done.
  destruct (decide (color p = RED)); [|by apply rb_finish_same_nodes].
  destruct (rb_body nil T x) as [[T1 x1]| |] eqn:Eb; cbn [mbind outcome_bind] in H;
    try done.
  apply rb_body_same_nodes in Eb. apply IH in H. by etrans.
Qed.

Lemma tree_insert_same_nodes nil fuel T x T' :
  tree_insert nil fuel T x = Done T' → same_nodes T T'.
Proof.
  unfold tree_insert. intros H. bind_inv' H; simplify_eq; same_nodes_chain.
Qed.

Lemma rb_insert_same_nodes nil fuel T x T' :
  rb_insert nil fuel T x = Done T' → same_nodes T T'.
Proof.
  unfold rb_insert. intros H.
  destruct (tree_insert nil fuel T x) as [T1| |] eqn:E1; cbn [mbind outcome_bind] in H;
    try done.
  destruct (upd T1 x (set_color RED)) as [T2| |] eqn:E2; cbn [mbind outcome_bind] in H;
    try done.
  apply tree_insert_same_nodes in E1. apply upd_same_nodes in E2; [|done].
  apply rb_while_same_nodes in H. etrans; [done|]. by etrans.
Qed.

(** ** The side of the parent the descent ends at *)


(** ** The empty [else] branch of thing.c *)

(** With the parent a right child, one pass through the loop body of
    [rb_insert] changes neither the memory nor the current node. *)
Lemma srb_body_right s T fP fG ctx c l n k r :
  sholds s T (fill (fP :: fG :: ctx) (Node c l n k r)) → f_dir fG = RIGHT →
  rb_body (Some s) T (Some n) = Done (T, Some n).
Proof.
  intros H HdG. assert (HP := H).
  change (fill (fP :: fG :: ctx) ?t) with (fill (fG :: ctx) (fill1 fP t)) in HP.
  pose proof (sload_fill _ _ _ _ _ _ _ _ H) as Lx. cbn [ctx_par] in Lx.
  pose proof (sload_frame _ _ _ _ _ H) as Lp.
  pose proof (sload_frame _ _ _ _ _ HP) as Lg.
  eapply (rb_body_else (Some s) T (Some n)); [exact Lx|..]; cbn [parent].
  - exact Lp.
  - rewrite sframe_node_parent. exact Lg.
  - pose proof H as [_ _ D Hs _]. apply distinct_fill in D as (D1 & D2 & D3).
    rewrite addrs_fill in Hs.
    destruct fG as [dG cG g kG sG]; simpl in HdG; subst dG.
    unfold sframe_node at 1. cbn [f_dir left f_sib].
    apply sptr_ne; simpl in *; set_solver.
Qed.

Lemma srb_while_right s T fP fG ctx c l n k r fuel :
  sholds s T (fill (fP :: fG :: ctx) (Node c l n k r)) →
  f_color fP = RED → f_dir fG = RIGHT →
  rb_while (Some s) fuel T (Some n) = Timeout.
Proof.
  intros H Hc Hd.
  apply (srb_while_diverges s fuel T (fP :: fG :: ctx) (Node c l n k r) H); [done|].
  simpl. by rewrite Hc, Hd.
Qed.

Lemma rb_case1_same_links T x y T' x' :
  rb_case1 T x y = Done (T', x') → same_links T T'.
Proof.
  unfold rb_case1. intros H. bind_inv' H; simplify_eq.
  repeat match goal with
         | H : upd _ _ (set_color _) = Done _ |- _ => apply upd_color_same_links in H
         end.
  etrans; [eassumption|]. etrans; eassumption.
Qed.

(** ** Concrete states of [rb_insert] with a RED parent on the right *)

Lemma ex_sentinel_empty_holds : sholds 0 ex_sentinel_empty Leaf.
Proof.
  split; [reflexivity|done|done|set_solver|].
  eexists. split; [vm_compute; reflexivity|reflexivity].
Qed.

Lemma ex_red_uncle_holds : sholds 0 ex_red_uncle ex_red_uncle_tree.
Proof.
  split.
  - reflexivity.
  - simpl. split_and!; try done; vm_compute; reflexivity.
  - simpl. set_solver.
  - simpl. set_solver.
  - eexists. split; [vm_compute; reflexivity|reflexivity].
Qed.

Lemma ex_red_uncle_linked_holds :
  sholds 0 ex_red_uncle_linked
    (fill [Frame RIGHT RED 3 3 Leaf; Frame RIGHT BLACK 1 2 (Node RED Leaf 2 1 Leaf)]
       (Node RED Leaf 4 4 Leaf)).
Proof.
  split.
  - reflexivity.
  - simpl. split_and!; try done; vm_compute; reflexivity.
  - simpl. set_solver.
  - simpl. set_solver.
  - eexists. split; [vm_compute; reflexivity|reflexivity].
Qed.

Lemma ex_inner_holds : sholds 0 ex_inner (Node BLACK Leaf 1 1 (Node RED Leaf 2 3 Leaf)).
Proof.
  split.
  - reflexivity.
  - simpl. split_and!; try done; vm_compute; reflexivity.
  - simpl. set_solver.
  - simpl. set_solver.
  - eexists. split; [vm_compute; reflexivity|reflexivity].
Qed.

Lemma ex_inner_linked_holds :
  sholds 0 ex_inner_linked
    (fill [Frame LEFT RED 2 3 Leaf; Frame RIGHT BLACK 1 1 Leaf] (Node RED Leaf 3 2 Leaf)).
Proof.
  split.
  - reflexivity.
  - simpl. split_and!; try done; vm_compute; reflexivity.
  - simpl. set_solver.
  - simpl. set_solver.
  - eexists. split; [vm_compute; reflexivity|reflexivity].
Qed.

(** ** What the link steps write *)







(** ** The steps of a plain insertion *)









(** ** The passes of the loop of [rb_insert] with the parent on the left *)

(** Cases 2 and 3: after the pass the parent of the current node is BLACK,
    so the loop condition fails and the loop ends. *)
Lemma srb_while_black_uncle s T fP fG ctx c l n k r :
  sholds s T (fill (fP :: fG :: ctx) (Node c l n k r)) →
  f_dir fG = LEFT →
  ∃ T' t' x',
    rb_case23 (Some s) T (Some n) = Done (T', x')
    ∧ x' = match f_dir fP with LEFT => Some n | RIGHT => Some (f_addr fP) end
    ∧ case_I45_tree fP fG (Node c l n k r) = Some t'
    ∧ sholds s T' (fill ctx t')
    ∧ (rc (f_sib fG) = BLACK → rb_body (Some s) T (Some n) = Done (T', x'))
    ∧ (∀ fuel, rb_while (Some s) (S fuel) T' x' = rb_finish T')
    ∧ (f_color fP = RED → rc (f_sib fG) = BLACK →
       ∀ fuel, rb_while (Some s) (S (S fuel)) T (Some n) = rb_finish T').
Proof.
  intros H Hd.
  destruct (srb_case23_fill s T fP fG ctx c l n k r H Hd)
    as (T' & t' & x' & xn' & p' & E & Ht' & H' & Hx1 & Hx2 & Hx3 & Hx4 & Hx').
  exists T', t', x'. split_and!; [done..| | |].
  - intros Hu. by rewrite (srb_body_black_uncle s T fP fG ctx c l n k r H Hd Hu).
  - intros fuel. by eapply rb_while_black_parent.
  - intros Hc Hu fuel.
    change (rb_while (Some s) (S (S fuel)) T (Some n))
      with (if decide (Some n = root T) then rb_finish T
            else xn ← load T (Some n);
                 p ← load T (parent xn);
                 if decide (color p = RED) then
                   '(T, x) ← rb_body (Some s) T (Some n);
                   rb_while (Some s) (S fuel) T x
                 else rb_finish T).
    rewrite decide_False by exact (sroot_ne s _ _ _ _ _ _ _ _ H).
    rewrite (sload_fill _ _ _ _ _ _ _ _ H). cbn [mbind outcome_bind parent ctx_par].
    rewrite (sload_frame _ _ _ _ _ H). cbn [mbind outcome_bind].
    rewrite sframe_node_color, decide_True by done.
    rewrite (srb_body_black_uncle s T fP fG ctx c l n k r H Hd Hu), E.
    cbn [mbind outcome_bind]. by eapply rb_while_black_parent.
Qed.

(** The loop body reaches case 1 when the RED parent is a left child and
    the uncle is RED. *)
Lemma srb_body_red_uncle s T fP fG ctx c l n k r ul u uk ur :
  sholds s T (fill (fP :: fG :: ctx) (Node c l n k r)) →
  f_dir fG = LEFT → f_sib fG = Node RED ul u uk ur →
  rb_body (Some s) T (Some n) = rb_case1 T (Some n) (Some u).
Proof.
  intros H Hd Hu.
  assert (HP := H).
  change (fill (fP :: fG :: ctx) ?t) with (fill (fG :: ctx) (fill1 fP t)) in HP.
  unfold rb_body.
  rewrite (sload_fill _ _ _ _ _ _ _ _ H). cbn [mbind outcome_bind parent ctx_par].
  rewrite (sload_frame _ _ _ _ _ H). cbn [mbind outcome_bind].
  rewrite sframe_node_parent. cbn [ctx_par].
  rewrite (sload_frame _ _ _ _ _ HP). cbn [mbind outcome_bind].
  assert (left (sframe_node s fG (ctx_par ctx) (sptr s (fill1 fP (Node c l n k r))))
          = Some (f_addr fP)
          ∧ right (sframe_node s fG (ctx_par ctx) (sptr s (fill1 fP (Node c l n k r))))
            = Some u) as [-> ->].
  { rewrite sptr_fill1. destruct fG as [dG cG g kG sG]; simpl in *; subst.
    done. }
  rewrite decide_True by done.
  rewrite (sload_sib s T fG ctx (fill1 fP (Node c l n k r)) _ _ _ _ _ HP Hu).
  cbn [mbind outcome_bind color]. by rewrite decide_True.
Qed.

(** Case 1: the pass recolours, changes no link, and the loop goes on from
    the grandparent. *)
Lemma srb_while_case1 s T fP fG ctx tN ul u uk ur :
  sholds s T (fill (fP :: fG :: ctx) tN) → tN ≠ Leaf →
  f_color fP = RED → f_dir fG = LEFT → f_sib fG = Node RED ul u uk ur →
  ∃ T', rb_body (Some s) T (root_ptr tN) = Done (T', Some (f_addr fG))
        ∧ sholds s T' (fill (paint RED (with_sib (Node BLACK ul u uk ur) fG) :: ctx)
                         (fill1 (paint BLACK fP) tN))
        ∧ same_links T T'
        ∧ ∀ fuel, rb_while (Some s) (S fuel) T (root_ptr tN)
                  = rb_while (Some s) fuel T' (Some (f_addr fG)).
Proof.
  intros H Hne Hc Hd Hu.
  destruct (srb_body_case1 s T fP fG ctx tN ul u uk ur H Hne Hd Hu) as (T' & E & H').
  exists T'. split_and!; [done|done| |].
  - destruct tN as [|c l n k r]; [done|]. cbn [root_ptr] in E.
    rewrite (srb_body_red_uncle s T fP fG ctx c l n k r ul u uk ur H Hd Hu) in E.
    by eapply rb_case1_same_links.
  - intros fuel. destruct tN as [|c l n k r]; [done|]. cbn [root_ptr rb_while] in *.
    rewrite decide_False by exact (sroot_ne s _ _ _ _ _ _ _ _ H).
    rewrite (sload_fill _ _ _ _ _ _ _ _ H). cbn [mbind outcome_bind parent ctx_par].
    rewrite (sload_frame _ _ _ _ _ H). cbn [mbind outcome_bind].
    rewrite sframe_node_color, decide_True by done.
    by rewrite E.
Qed.

(* ================================================================== *)
(** * The claims *)

(** ** C1: the invariants after every insertion *)

(** C1, as stated, fails on [RBinsert1]: after the first insertion into the
    empty tree the root is RED, so the check of all five invariants is
    false. *)
Lemma first_insert_fails_validate :
  ∃ T, insert_trace [1] empty_tree = Done [T] ∧ validate T = false.
Proof. eexists. split; vm_compute; reflexivity. Qed.

(** C1, amended per program.  With [RBinsert1] (thing.cpp): for every
    finite sequence of insertions into the empty tree, every insertion
    completes and afterwards invariants 1, 3, 4 and 5 hold (colours
    well-formed with BLACK absent leaves, no RED node with a RED child,
    equal black-height on all paths, BST ordering) of a tree that holds
    exactly the keys inserted so far; the root colour is not part of what
    [RBinsert1] maintains.  With [rb_insert] (thing.c), absent children
    stored as a BLACK sentinel: after every completed insertion all five
    invariants hold of a tree that holds exactly the keys inserted so
    far. *)
Theorem insert_preserves_balance (ks : list Z) :
  (∃ Ts, insert_trace ks empty_tree = Done Ts
         ∧ length Ts = length ks
         ∧ Forall (λ T, validate_balanced T = true) Ts
         ∧ ∀ i Ti, Ts !! i = Some Ti →
             ∃ ti, tree_of Ti = Some ti ∧ inorder ti ≡ₚ take (S i) ks)
  ∧ (∀ s T0 i Ti,
       sholds s T0 Leaf →
       c_insert_all s (take (S i) ks) T0 = Done Ti →
       svalidate s Ti = true
       ∧ ∃ ti, stree_of s Ti = Some ti ∧ inorder ti ≡ₚ take (S i) ks).
Proof.
  split.
  - destruct (insert_trace_wf ks empty_tree wf_empty_tree) as (Ts & E & Hlen & HF).
    exists Ts. split_and!; [done|done| |].
    + eapply Forall_impl; [exact HF|]. intros T. apply wf_validate_balanced.
    + destruct wf_empty_tree as (t0 & n0 & H0 & HRB0 & Hs0).
      destruct (insert_trace_keys ks _ _ _ H0 HRB0 Hs0) as (Ts' & E' & HTs).
      rewrite E in E'. injection E' as <-. intros i Ti Hi.
      destruct (HTs i Ti Hi) as (ti & Hti & _ & Hp). exists ti. split; [done|].
      assert (t0 = Leaf) as ->.
      { destruct H0 as [Hr _ _ _]. by destruct t0. }
      by rewrite Hp, app_nil_r.
  - intros s T0 i Ti H0 E.
    destruct (c_insert_all_done s (take (S i) ks) T0 Leaf 0 Ti H0 RB_leaf eq_refl) as
      (ti & ni & Hi & HRBi & Hrci & Hsi & Hini); [constructor|exact E|].
    split; [by eapply sholds_svalidate|].
    exists ti. split; [by apply sholds_stree_of|]. by rewrite Hini, app_nil_r.
Qed.

Lemma insert_preserves_balance_witness :
  ∃ Ti, c_insert_all 0 [2; 1; 3; 0] ex_sentinel_empty = Done Ti
        ∧ svalidate 0 Ti = true
        ∧ stree_of 0 Ti
          = Some (Node BLACK (Node BLACK (Node RED Leaf 4 0 Leaf) 2 1 Leaf) 1 2
                    (Node BLACK Leaf 3 3 Leaf)).
Proof.
  destruct (insert_preserves_balance [2; 1; 3; 0]) as [_ Hc].
  eexists. split; [vm_compute; reflexivity|].
  destruct (Hc 0%nat ex_sentinel_empty 3%nat _ ex_sentinel_empty_holds
              ltac:(vm_compute; reflexivity)) as [Hv _].
  split; [exact Hv|vm_compute; reflexivity].
Defined.

(** ** C6: ascending inserts *)

(** C6, as stated, fails: after inserting 1..7 the root holds key 2. *)
Lemma ascending_root_is_not_4 :
  ¬ ∃ T t, insert_all [1;2;3;4;5;6;7] empty_tree = Done T
           ∧ tree_of T = Some t ∧ root_key t = Some 4.
Proof.
  intros (T & t & HT & Ht & Hk).
  vm_compute in HT. injection HT as <-.
  vm_compute in Ht. injection Ht as <-. discriminate Hk.
Qed.

(** C6, amended, for [RBinsert1]: inserting 1..7 in order yields a tree
    whose root holds key 2 and is BLACK, every path from the root to an
    absent leaf crosses 2 BLACK nodes, no RED node has a RED child;
    invariants 1, 3, 4 and 5 hold after each of the seven insertions, and
    the root is RED after the first, fourth and fifth of them, where the
    check of all five is false. *)
Theorem ascending_inserts :
  ∃ Ts T t, insert_trace [1;2;3;4;5;6;7] empty_tree = Done Ts
    ∧ insert_all [1;2;3;4;5;6;7] empty_tree = Done T
    ∧ last Ts = Some T
    ∧ tree_of T = Some t
    ∧ root_key t = Some 2 ∧ rc t = BLACK
    ∧ black_height t = Some 2%nat
    ∧ no_red_red t = true
    ∧ inorder t = [1;2;3;4;5;6;7]
    ∧ validate_balanced <$> Ts = [true; true; true; true; true; true; true]
    ∧ validate <$> Ts = [false; true; true; false; false; true; true].
Proof.
  eexists _, _, _.
  split; [vm_compute; reflexivity|].
  split; [vm_compute; reflexivity|].
  split; [vm_compute; reflexivity|].
  split; [vm_compute; reflexivity|].
  split_and!; vm_compute; reflexivity.
Qed.

(** ** C2: the colour of the root *)

(** C2, as stated, fails: [RBinsert1] leaves the root RED after an
    insertion into the empty tree, and after the insertion of 4 into the
    tree built from 1, 2, 3, where the recolouring loop ascends until the
    current node has no parent. *)
Lemma root_left_red :
  (∃ T, insert 1 empty_tree = Done T ∧ node_color T (root T) = Some RED)
  ∧ (∃ T, insert_all [1;2;3;4] empty_tree = Done T
          ∧ node_color T (root T) = Some RED).
Proof. split; eexists; split; vm_compute; reflexivity. Qed.

(** C2, amended: [RBinsert1] returns with a RED root when it inserts into
    an empty tree and when the red-uncle recolouring reaches a node without
    parent (Case_I2); it colours the root BLACK at Case_I6, where the RED
    parent is the root; [rb_insert] of thing.c ends every completed insert
    with a BLACK root. *)
Theorem root_colour_after_insert :
  (∀ fuel T N n0 dir,
      mem T !! N = Some n0 →
      ∃ T', RBinsert1 fuel T NULL (Some N) dir = Done T'
            ∧ root T' = Some N ∧ node_color T' (root T') = Some RED)
  ∧ (∀ fuel T fP fG tN ul u uk ur,
      holds T (fill [fP; fG] tN) → tN ≠ Leaf → f_color fP = RED →
      f_sib fG = Node RED ul u uk ur →
      ∃ T', RBinsert1_loop (S fuel) T (Some (f_addr fP)) (root_ptr tN) = Done T'
            ∧ root T' = Some (f_addr fG) ∧ node_color T' (root T') = Some RED)
  ∧ (∀ fuel T fP tN,
      holds T (fill [fP] tN) → f_color fP = RED →
      ∃ T', RBinsert1_loop (S fuel) T (Some (f_addr fP)) (root_ptr tN) = Done T'
            ∧ root T' = Some (f_addr fP) ∧ node_color T' (root T') = Some BLACK)
  ∧ (∀ nil fuel T x T',
      rb_insert nil fuel T x = Done T' → node_color T' (root T') = Some BLACK).
Proof.
  split_and!.
  - apply RBinsert1_empty.
  - apply RBinsert1_loop_I2.
  - apply RBinsert1_loop_I6.
  - apply rb_insert_root_black.
Qed.

Lemma root_colour_after_insert_witness :
  (∃ T', RBinsert1 1 ex_fresh NULL (Some 0%nat) LEFT = Done T'
         ∧ root T' = Some 0%nat ∧ node_color T' (root T') = Some RED)
  ∧ (∃ T', RBinsert1_loop 1 exI1 (Some 2%nat) (Some 3%nat) = Done T'
           ∧ root T' = Some 1%nat ∧ node_color T' (root T') = Some RED)
  ∧ (∃ T', RBinsert1_loop 1 exI6 (Some 0%nat) (Some 1%nat) = Done T'
           ∧ root T' = Some 0%nat ∧ node_color T' (root T') = Some BLACK)
  ∧ (∃ T', rb_insert (Some 0%nat) 3 ex_sentinel (Some 3%nat) = Done T'
           ∧ node_color T' (root T') = Some BLACK).
Proof.
  destruct root_colour_after_insert as (A & B & C & D).
  split_and!.
  - apply (A 1%nat ex_fresh 0%nat (mkRBnode BLACK 1 None None None) LEFT).
    vm_compute; reflexivity.
  - apply (B 0%nat exI1 (Frame RIGHT RED 2 3 Leaf)
             (Frame RIGHT BLACK 1 2 (Node RED Leaf 0 1 Leaf))
             (Node RED Leaf 3 4 Leaf) Leaf 0%nat 1 Leaf).
    + apply holds_check; vm_compute; reflexivity.
    + discriminate.
    + reflexivity.
    + reflexivity.
  - apply (C 0%nat exI6 (Frame RIGHT RED 0 1 Leaf) (Node RED Leaf 1 2 Leaf)).
    + apply holds_check; vm_compute; reflexivity.
    + reflexivity.
  - eexists. split; [vm_compute; reflexivity|].
    eapply (D (Some 0%nat) 3%nat ex_sentinel (Some 3%nat)).
    vm_compute; reflexivity.
Defined.

(** ** C3: termination of the fixup loop *)

(** [RBinsert1] (thing.cpp): started on a well-formed pre-state (a RED node
    below a path that is red-black apart from the colour of that node) the
    loop returns, on either side, within one pass per two levels of the
    path and one more. *)
Lemma RBinsert1_loop_terminates fuel T fP ctx tN nb :
  (length ctx < 2 * fuel)%nat →
  holds T (fill (fP :: ctx) tN) → rc tN = RED → RB nb tN →
  RBC (fP :: ctx) nb BLACK →
  ∃ T', RBinsert1_loop fuel T (Some (f_addr fP)) (root_ptr tN) = Done T'.
Proof.
  intros Hlen H Hred HN HC.
  destruct (RBinsert1_loop_correct fuel T fP ctx tN nb Hlen H Hred HN HC)
    as (T' & _ & _ & E & _). by exists T'.
Qed.

(** C3 fails on thing.c: with the tree 1B(-, 2R) and the new key 3, the RED
    parent 2 is a right child, the [else] branch of the loop body is empty,
    and [rb_insert] exhausts every loop budget. *)
Theorem rb_insert_right_parent_loops (fuel : nat) :
  rb_insert (Some 0%nat) fuel ex_right (Some 3%nat) = Timeout.
Proof.
  destruct fuel as [|[|fuel]]; [vm_compute; reflexivity..|].
  unfold rb_insert.
  eassert (tree_insert (Some 0%nat) (S (S fuel)) ex_right (Some 3%nat) = Done _) as ->
    by (vm_compute; reflexivity).
  cbn [mbind outcome_bind].
  eassert (upd _ (Some 3%nat) (set_color RED) = Done _) as ->
    by (vm_compute; reflexivity).
  cbn [mbind outcome_bind].
  eapply rb_while_stuck.
  - discriminate.
  - vm_compute; reflexivity.
  - vm_compute; reflexivity.
  - reflexivity.
  - vm_compute; reflexivity.
  - vm_compute. discriminate.
Qed.

(** ** C4: RED parent and RED uncle *)

(** C4 holds of [RBinsert1] (thing.cpp) whichever side the parent is on,
    and of [rb_insert] (thing.c) when the RED parent is a left child; it
    fails on thing.c when the RED parent is a right child.

    [RBinsert1]: with [P] and [U] RED, one pass of the loop body colours
    [P] and [U] BLACK and [G] RED, keeps every key and link, and hands
    [N := G] to the loop condition, after which the loop runs the case
    evaluation again from [G] (or returns when [G] has no parent); this is
    the only way the body reaches the loop condition.

    [rb_insert], tree with a sentinel: when [P] is a left child, case 1
    does the same and the loop goes on from [G], while the pass of cases 2
    and 3 is the last one; when [P] is a right child, the pass changes
    neither the memory nor [x], and the loop never ends.  So it is on
    2B(1R, 3R), built by [rb_insert] from the keys 2, 1, 3, with the new
    key 4: [P = 3] and [U = 1] stay RED, [G = 2] stays BLACK, and
    [rb_insert] exhausts every loop budget. *)
Theorem Case_I1_recolours_and_iterates :
  (∀ T fP fG ctx tN ul u uk ur,
     holds T (fill (fP :: fG :: ctx) tN) → tN ≠ Leaf → f_color fP = RED →
     f_sib fG = Node RED ul u uk ur →
     ∃ T', loop_body T (Some (f_addr fP)) (root_ptr tN)
             = Done (Iterate T' (Some (f_addr fG)))
       ∧ holds T' (fill (paint RED (with_sib (Node BLACK ul u uk ur) fG) :: ctx)
                      (fill1 (paint BLACK fP) tN))
       ∧ same_links T T'
       ∧ (∀ fuel,
            RBinsert1_loop (S fuel) T (Some (f_addr fP)) (root_ptr tN)
            = match ctx with
              | [] => Done T'
              | fGG :: _ =>
                  RBinsert1_loop fuel T' (Some (f_addr fGG)) (Some (f_addr fG))
              end)
       ∧ (∀ nil, f_dir fG = LEFT →
            rb_body nil T (root_ptr tN) = Done (T', Some (f_addr fG))))
  ∧ (∀ T0 P0 N0 T1 N1,
       loop_body T0 P0 N0 = Done (Iterate T1 N1) →
       ∃ p U u, load T0 P0 = Done p ∧ color p = RED
         ∧ GetParent T0 P0 = Done N1 ∧ N1 ≠ NULL
         ∧ GetUncle T0 N0 = Done U ∧ U ≠ NIL
         ∧ load T0 U = Done u ∧ color u = RED
         ∧ same_links T0 T1)
  ∧ (∀ s T fP fG ctx tN ul u uk ur,
       sholds s T (fill (fP :: fG :: ctx) tN) → tN ≠ Leaf → f_color fP = RED →
       f_sib fG = Node RED ul u uk ur →
       (f_dir fG = LEFT →
        ∃ T', rb_body (Some s) T (root_ptr tN) = Done (T', Some (f_addr fG))
          ∧ sholds s T' (fill (paint RED (with_sib (Node BLACK ul u uk ur) fG) :: ctx)
                           (fill1 (paint BLACK fP) tN))
          ∧ same_links T T'
          ∧ ∀ fuel, rb_while (Some s) (S fuel) T (root_ptr tN)
                    = rb_while (Some s) fuel T' (Some (f_addr fG)))
       ∧ (f_dir fG = RIGHT →
          rb_body (Some s) T (root_ptr tN) = Done (T, root_ptr tN)
          ∧ ∀ fuel, rb_while (Some s) fuel T (root_ptr tN) = Timeout))
  ∧ (∀ s T fP fG ctx c l n k r,
       sholds s T (fill (fP :: fG :: ctx) (Node c l n k r)) →
       f_color fP = RED → f_dir fG = LEFT → rc (f_sib fG) = BLACK →
       ∃ T' x', rb_body (Some s) T (Some n) = Done (T', x')
         ∧ ∀ fuel, rb_while (Some s) (S (S fuel)) T (Some n) = rb_finish T')
  ∧ (∃ T3, c_insert_all 0 [2; 1; 3] ex_sentinel_empty = Done T3
           ∧ alloc T3 4 = (ex_red_uncle, Some 4%nat))
  ∧ (T ← tree_insert (Some 0%nat) 2 ex_red_uncle (Some 4%nat);
     upd T (Some 4%nat) (set_color RED)) = Done ex_red_uncle_linked
  ∧ (∃ x p g y, load ex_red_uncle_linked (Some 4%nat) = Done x
       ∧ parent x = Some 3%nat ∧ load ex_red_uncle_linked (Some 3%nat) = Done p
       ∧ color p = RED
       ∧ parent p = Some 1%nat ∧ load ex_red_uncle_linked (Some 1%nat) = Done g
       ∧ color g = BLACK
       ∧ right g = Some 3%nat ∧ left g = Some 2%nat
       ∧ load ex_red_uncle_linked (Some 2%nat) = Done y ∧ color y = RED)
  ∧ rb_body (Some 0%nat) ex_red_uncle_linked (Some 4%nat)
    = Done (ex_red_uncle_linked, Some 4%nat)
  ∧ (∀ fuel, rb_while (Some 0%nat) fuel ex_red_uncle_linked (Some 4%nat) = Timeout)
  ∧ (∀ fuel, rb_insert (Some 0%nat) fuel ex_red_uncle (Some 4%nat) = Timeout).
Proof.
  split_and!.
  - intros T fP fG ctx tN ul u uk ur H Hne Hc Hu.
    destruct (case1_fill NIL _ _ _ _ _ _ _ _ _ H Hne Hc Hu) as (T' & E & _ & H').
    exists T'. split_and!; [done|done|..].
    + destruct (loop_body_iterate_inv _ _ _ _ _ E) as (? & ? & ? & HH). apply HH.
    + intros fuel. rewrite (loop_continues _ _ _ _ _ _ E). unfold GetParent.
      pose proof (load_frame _ _ _ _ H') as Hl. simpl f_addr in Hl. rewrite Hl.
      cbn [mbind outcome_bind]. rewrite frame_node_parent. by destruct ctx.
    + intros nil Hd.
      destruct (case1_fill nil _ _ _ _ _ _ _ _ _ H Hne Hc Hu) as (T'' & E' & Eb & _).
      rewrite E in E'. injection E' as <-. by apply Eb.
  - apply loop_body_iterate_inv.
  - intros s T fP fG ctx tN ul u uk ur H Hne Hc Hu. split; intros Hd.
    + by apply srb_while_case1.
    + destruct tN as [|c l n k r]; [done|]. cbn [root_ptr]. split.
      * by eapply srb_body_right.
      * intros fuel. by eapply srb_while_right.
  - intros s T fP fG ctx c l n k r H Hc Hd Hu.
    destruct (srb_while_black_uncle s T fP fG ctx c l n k r H Hd)
      as (T' & t' & x' & _ & _ & _ & _ & Eb & _ & Ew).
    exists T', x'. split; [by apply Eb|by apply Ew].
  - eexists. split; vm_compute; reflexivity.
  - vm_compute; reflexivity.
  - eexists _, _, _, _. split_and!; vm_compute; reflexivity.
  - vm_compute; reflexivity.
  - intros fuel.
    exact (srb_while_right 0 _ _ _ _ _ _ _ _ _ fuel ex_red_uncle_linked_holds
             eq_refl eq_refl).
  - intros fuel.
    apply (srb_insert_diverges 0 fuel ex_red_uncle ex_red_uncle_tree 4
             (mkRBnode BLACK 4 None None None) ex_red_uncle_holds).
    + vm_compute; reflexivity.
    + vm_compute. set_solver.
    + done.
    + vm_compute; reflexivity.
Qed.

Lemma Case_I1_recolours_and_iterates_witness :
  ∃ T', loop_body exI1 (Some 2%nat) (Some 3%nat) = Done (Iterate T' (Some 1%nat))
        ∧ same_links exI1 T'
        ∧ node_color T' (Some 2%nat) = Some BLACK
        ∧ node_color T' (Some 0%nat) = Some BLACK
        ∧ node_color T' (Some 1%nat) = Some RED.
Proof.
  destruct Case_I1_recolours_and_iterates as (HA & _).
  destruct (HA exI1 (Frame RIGHT RED 2 3 Leaf)
              (Frame RIGHT BLACK 1 2 (Node RED Leaf 0 1 Leaf)) []
              (Node RED Leaf 3 4 Leaf) Leaf 0%nat 1 Leaf)
    as (T' & E & H' & HL & _).
  - apply holds_check; vm_compute; reflexivity.
  - discriminate.
  - reflexivity.
  - reflexivity.
  - exists T'. split_and!; [exact E|exact HL|..].
    all: vm_compute in E; injection E as <-; vm_compute; reflexivity.
Defined.

(** ** C5: RED parent and BLACK uncle *)

(** C5 holds of [RBinsert1] (thing.cpp) whichever side the parent is on,
    and of [rb_insert] (thing.c) when the RED parent is a left child; it
    fails on thing.c when the RED parent is a right child.

    [RBinsert1], at label Case_I45, with [dir] the side of [G] on which
    [P] lies: when [N] is an inner grandchild, [P] is first rotated toward
    [dir] (away from the side of [N]) without touching the root, [N]
    becomes the former parent and [P] the former [N], now in the slot
    below [G], which makes the shape an outer one; the same pass then runs
    Case_I5 (recolour [P] BLACK and [G] RED, rotate [G] root-aware toward
    the other side).  When [N] is an outer grandchild, Case_I5 runs at
    once.  Either way the final rotation sees an outer-grandchild shape,
    and the pass through the loop body ends with a return, not with the
    loop condition.

    [rb_insert], tree with a sentinel: when [P] is a left child, cases 2
    and 3 leave the tree that Case_I45 leaves, go on with the former
    parent when [x] was an inner grandchild, and their pass is the last
    one of the loop; when [P] is a right child, the pass rotates and
    recolours nothing, and the loop never ends.  So it is on 1B(-, 3R),
    built by [rb_insert] from the keys 1, 3, with the new key 2, an inner
    grandchild: [rb_insert] exhausts every loop budget. *)
Theorem Case_I4_then_Case_I5 :
  (∀ T fP fG ctx c l n k r,
     holds T (fill (fP :: fG :: ctx) (Node c l n k r)) →
     childDir T (Some (f_addr fP)) = Done (f_dir fG)
     ∧ (f_dir fP = flip (f_dir fG) →
        inner_shape T (Some n) (Some (f_addr fP)) (Some (f_addr fG)) (f_dir fG)
        ∧ ∃ T1 tP t' T2,
            rot (f_dir fG) (fill1 fP (Node c l n k r)) = Some tP
            ∧ root_ptr tP = Some n
            ∧ RotateDir T (Some (f_addr fP)) (f_dir fG) = Done T1
            ∧ root T1 = root T
            ∧ holds T1 (fill (fG :: ctx) tP)
            ∧ Case_I4 T (Some n) (Some (f_addr fP)) (Some (f_addr fG)) (f_dir fG)
              = Done (T1, Some (f_addr fP), Some n)
            ∧ outer_shape T1 (Some (f_addr fP)) (Some n) (Some (f_addr fG)) (f_dir fG)
            ∧ Case_I45 T (Some n) (Some (f_addr fP)) (Some (f_addr fG))
              = Case_I5 T1 (Some n) (Some (f_addr fG)) (f_dir fG)
            ∧ case_I5_tree fG tP = Some t'
            ∧ Case_I5 T1 (Some n) (Some (f_addr fG)) (f_dir fG) = Done T2
            ∧ holds T2 (fill ctx t'))
     ∧ (f_dir fP = f_dir fG →
        outer_shape T (Some n) (Some (f_addr fP)) (Some (f_addr fG)) (f_dir fG)
        ∧ Case_I45 T (Some n) (Some (f_addr fP)) (Some (f_addr fG))
          = Case_I5 T (Some (f_addr fP)) (Some (f_addr fG)) (f_dir fG)
        ∧ ∃ t' T2,
            case_I5_tree fG (fill1 fP (Node c l n k r)) = Some t'
            ∧ Case_I5 T (Some (f_addr fP)) (Some (f_addr fG)) (f_dir fG) = Done T2
            ∧ holds T2 (fill ctx t'))
     ∧ (f_color fP = RED → rc (f_sib fG) = BLACK →
        ∃ T2, Case_I45 T (Some n) (Some (f_addr fP)) (Some (f_addr fG)) = Done T2
              ∧ loop_body T (Some (f_addr fP)) (Some n) = Done (Return T2))
     ∧ (f_dir fG = LEFT →
        rb_case23 NIL T (Some n)
        = (T' ← Case_I45 T (Some n) (Some (f_addr fP)) (Some (f_addr fG));
           Done (T', match f_dir fP with
                     | LEFT => Some n
                     | RIGHT => Some (f_addr fP)
                     end))))
  ∧ (∀ s T fP fG ctx c l n k r,
       sholds s T (fill (fP :: fG :: ctx) (Node c l n k r)) →
       (f_dir fG = LEFT →
        ∃ T' t' x',
          rb_case23 (Some s) T (Some n) = Done (T', x')
          ∧ x' = match f_dir fP with LEFT => Some n | RIGHT => Some (f_addr fP) end
          ∧ case_I45_tree fP fG (Node c l n k r) = Some t'
          ∧ sholds s T' (fill ctx t')
          ∧ (rc (f_sib fG) = BLACK → rb_body (Some s) T (Some n) = Done (T', x'))
          ∧ (∀ fuel, rb_while (Some s) (S fuel) T' x' = rb_finish T')
          ∧ (f_color fP = RED → rc (f_sib fG) = BLACK →
             ∀ fuel, rb_while (Some s) (S (S fuel)) T (Some n) = rb_finish T'))
       ∧ (f_dir fG = RIGHT →
          rb_body (Some s) T (Some n) = Done (T, Some n)
          ∧ (f_color fP = RED →
             ∀ fuel, rb_while (Some s) fuel T (Some n) = Timeout)))
  ∧ (∀ T fP fG ctx c l n k r t',
       holds T (fill (fP :: fG :: ctx) (Node c l n k r)) →
       case_I45_tree fP fG (Node c l n k r) = Some t' →
       ∃ T2, Case_I45 T (Some n) (Some (f_addr fP)) (Some (f_addr fG)) = Done T2
             ∧ holds T2 (fill ctx t'))
  ∧ (∃ T2, c_insert_all 0 [1; 3] ex_sentinel_empty = Done T2
           ∧ alloc T2 2 = (ex_inner, Some 3%nat))
  ∧ (T ← tree_insert (Some 0%nat) 2 ex_inner (Some 3%nat);
     upd T (Some 3%nat) (set_color RED)) = Done ex_inner_linked
  ∧ inner_shape ex_inner_linked (Some 3%nat) (Some 2%nat) (Some 1%nat) RIGHT
  ∧ node_color ex_inner_linked (Some 2%nat) = Some RED
  ∧ node_color ex_inner_linked (Some 0%nat) = Some BLACK
  ∧ rb_body (Some 0%nat) ex_inner_linked (Some 3%nat)
    = Done (ex_inner_linked, Some 3%nat)
  ∧ (∀ fuel, rb_while (Some 0%nat) fuel ex_inner_linked (Some 3%nat) = Timeout)
  ∧ (∀ fuel, rb_insert (Some 0%nat) fuel ex_inner (Some 3%nat) = Timeout).
Proof.
  split_and!.
  - intros T fP fG ctx c l n k r H. split_and!; [..|by eapply rb_case23_fill].
    4:{ intros Hc Hu.
        destruct (case_I45_tree_some fP fG c l n k r) as (t' & Ht').
        destruct (loop_body_I45 _ _ _ _ _ _ _ _ _ _ H Hc Hu Ht') as (T2 & E & _ & E45).
        by exists T2. }
    + by eapply childDir_frame.
    + intros Hd. split; [by eapply holds_inner_shape|].
      destruct (Case_I4_fill _ _ _ _ _ _ _ _ _ H Hd)
        as (T1 & tP & Er & Hroot & E & H1 & E4 & Hout & E45 & Hrt).
      destruct (Case_I5_runs T1 fG ctx tP H1) as (t' & T2 & Ht' & E5 & H2).
      { by eapply rot_root_ptr. }
      rewrite Hroot in E5. exists T1, tP, t', T2. by split_and!.
    + intros Hd. split_and!; [by eapply holds_outer_shape|by eapply Case_I45_outer|].
      assert (HP := H).
      change (fill (fP :: fG :: ctx) ?t) with (fill (fG :: ctx) (fill1 fP t)) in HP.
      destruct (Case_I5_runs T fG ctx _ HP) as (t' & T2 & Ht' & E5 & H2).
      { by destruct fP as [[] ? ? ? ?]. }
      rewrite root_ptr_fill1 in E5. by exists t', T2.
  - intros s T fP fG ctx c l n k r H. split; intros Hd.
    + by apply srb_while_black_uncle.
    + split; [by eapply srb_body_right|].
      intros Hc fuel. by eapply srb_while_right.
  - intros T fP fG ctx c l n k r t' H Ht'.
    destruct (Case_I45_fill _ _ _ _ _ _ _ _ _ _ H Ht') as (T2 & E & H2).
    by exists T2.
  - eexists. split; vm_compute; reflexivity.
  - vm_compute; reflexivity.
  - eexists _, _. split_and!; vm_compute; reflexivity.
  - vm_compute; reflexivity.
  - vm_compute; reflexivity.
  - vm_compute; reflexivity.
  - intros fuel.
    exact (srb_while_right 0 _ _ _ _ _ _ _ _ _ fuel ex_inner_linked_holds
             eq_refl eq_refl).
  - intros fuel.
    apply (srb_insert_diverges 0 fuel ex_inner
             (Node BLACK Leaf 1 1 (Node RED Leaf 2 3 Leaf)) 3
             (mkRBnode BLACK 2 None None None) ex_inner_holds).
    + vm_compute; reflexivity.
    + vm_compute. set_solver.
    + done.
    + vm_compute; reflexivity.
Qed.

Lemma Case_I4_then_Case_I5_witness :
  inner_shape exI4 (Some 2%nat) (Some 1%nat) (Some 0%nat) RIGHT
  ∧ ∃ T1 T2,
      Case_I4 exI4 (Some 2%nat) (Some 1%nat) (Some 0%nat) RIGHT
      = Done (T1, Some 1%nat, Some 2%nat)
      ∧ outer_shape T1 (Some 1%nat) (Some 2%nat) (Some 0%nat) RIGHT
      ∧ Case_I45 exI4 (Some 2%nat) (Some 1%nat) (Some 0%nat) = Done T2
      ∧ tree_of T2 = Some (Node BLACK (Node RED Leaf 0 1 Leaf) 2 2 (Node RED Leaf 1 3 Leaf)).
Proof.
  destruct Case_I4_then_Case_I5 as (HA & _).
  destruct (HA exI4 (Frame LEFT RED 1 3 Leaf) (Frame RIGHT BLACK 0 1 Leaf)
              [] RED Leaf 2%nat 2 Leaf) as (_ & Hin & _ & _ & _).
  - apply holds_check; vm_compute; reflexivity.
  - destruct (Hin eq_refl)
      as (Hshape & T1 & tP & t' & T2 & Er & _ & _ & _ & _ & E4 & Hout & E45 & Ht' & E5 & H2).
    simpl in E4, Hout, E45, E5.
    split; [exact Hshape|]. exists T1, T2. split_and!; [exact E4|exact Hout|..].
    + rewrite E45. exact E5.
    + vm_compute in Er. injection Er as <-.
      vm_compute in Ht'. injection Ht' as <-. by apply holds_tree_of.
Defined.

(** ** C7: what an insertion creates *)



(** ** C8: a BLACK parent ends the fixup at once *)

(** C8: when the parent [P] of the new node is BLACK, [RBinsert1] returns
    the memory exactly as the link step left it: the new node is RED with
    absent children and parent [P], the [dir] slot of [P] points to it, and
    no other record, colour, link or the root reference has changed.
    Nothing is assumed about a grandparent or an uncle: the colour of [P]
    is tested before either is looked at.  In thing.c the loop condition
    fails at once for a BLACK parent and only the closing statement runs,
    which stores BLACK in the root and so changes nothing when the root is
    BLACK already. *)
Theorem black_parent_returns_at_once :
  ∀ fuel T P N dir n0 p0,
    mem T !! N = Some n0 → mem T !! P = Some p0 → P ≠ N → color p0 = BLACK →
    RBinsert1 (S fuel) T (Some P) (Some N) dir = Done (linked T P N dir n0 p0)
    ∧ RBinsert1_link T (Some P) (Some N) dir = Done (linked T P N dir n0 p0)
    ∧ (∀ N', loop_body (linked T P N dir n0 p0) (Some P) N'
             = Done (Return (linked T P N dir n0 p0)))
    ∧ root (linked T P N dir n0 p0) = root T
    ∧ (∀ a, a ≠ N → a ≠ P → mem (linked T P N dir n0 p0) !! a = mem T !! a)
    ∧ mem (linked T P N dir n0 p0) !! P = Some (set_child dir (Some N) p0)
    ∧ mem (linked T P N dir n0 p0) !! N
      = Some (mkRBnode RED (key n0) (Some P) NIL NIL)
    ∧ (∀ nil T0 x xn p,
         x ≠ root T0 → load T0 x = Done xn → load T0 (parent xn) = Done p →
         color p = BLACK →
         rb_while nil (S fuel) T0 x = rb_finish T0
         ∧ (node_color T0 (root T0) = Some BLACK → rb_finish T0 = Done T0)).
Proof.
  intros fuel T P N dir n0 p0 HN HP Hne Hc.
  split_and!; [..|intros; split; [by eapply rb_while_black_parent|apply rb_finish_id]].
  - by apply RBinsert1_black_parent.
  - by apply RBinsert1_link_eq.
  - intros N'. eapply loop_body_black_parent.
    + unfold load, linked. cbn [mem]. by rewrite lookup_insert_eq.
    + by destruct dir.
  - done.
  - intros a Ha1 Ha2. unfold linked. cbn [mem]. by rewrite !lookup_insert_ne.
  - unfold linked. cbn [mem]. by rewrite lookup_insert_eq.
  - unfold linked. cbn [mem]. rewrite lookup_insert_ne by done.
    by rewrite lookup_insert_eq.
Qed.

Lemma black_parent_returns_at_once_witness :
  RBinsert1 1 ex_occupied (Some 0%nat) (Some 2%nat) RIGHT
  = Done (linked ex_occupied 0 2 RIGHT (mkRBnode BLACK 0 None None None)
            (mkRBnode BLACK 2 None (Some 1%nat) None)).
Proof.
  apply (black_parent_returns_at_once 0 ex_occupied 0%nat 2%nat RIGHT);
    [vm_compute; reflexivity|vm_compute; reflexivity|discriminate|reflexivity].
Defined.

(** ** C10: the link step does not look at the slot it fills *)

(** C10: with a parent [P], the link step stores [N] in the [dir] slot of
    [P] whatever that slot held; a node [C] that was reachable only through
    that slot is unreachable afterwards, so callers must pass a [P] whose
    [dir]-side child is absent. *)
Theorem link_overwrites_slot :
  ∀ T P N dir n0 p0,
    mem T !! N = Some n0 → mem T !! P = Some p0 → P ≠ N →
    RBinsert1_link T (Some P) (Some N) dir = Done (linked T P N dir n0 p0)
    ∧ (∃ p1, mem (linked T P N dir n0 p0) !! P = Some p1 ∧ child dir p1 = Some N)
    ∧ (∀ C, child dir p0 = Some C → C ≠ N → root T ≠ Some C →
            links_to T C = [(P, dir)] →
            ¬ reachable (linked T P N dir n0 p0) C)
    ∧ (∀ fuel, color p0 = BLACK →
         RBinsert1 (S fuel) T (Some P) (Some N) dir = Done (linked T P N dir n0 p0)).
Proof.
  intros T P N dir n0 p0 HN HP Hne. split_and!.
  - by apply RBinsert1_link_eq.
  - unfold linked. cbn [mem]. rewrite lookup_insert_eq. eexists; split; [done|].
    by destruct dir.
  - intros C _ HC Hr Hl. by apply linked_unreachable.
  - intros fuel Hc. by apply RBinsert1_black_parent.
Qed.

Lemma link_overwrites_slot_witness :
  reachable ex_occupied 1
  ∧ ∃ T', RBinsert1 1 ex_occupied (Some 0%nat) (Some 2%nat) LEFT = Done T'
          ∧ ¬ reachable T' 1.
Proof.
  split.
  - eapply (reach_child _ 0%nat _ LEFT); [by apply reach_root|vm_compute; reflexivity|done].
  - destruct (link_overwrites_slot ex_occupied 0%nat 2%nat LEFT
                (mkRBnode BLACK 0 None None None)
                (mkRBnode BLACK 2 None (Some 1%nat) None))
      as (_ & _ & Hun & Hret);
      [vm_compute; reflexivity|vm_compute; reflexivity|discriminate|].
    eexists. split; [by apply (Hret 0%nat)|].
    apply Hun; [reflexivity|discriminate|discriminate|vm_compute; reflexivity].
Defined.

(** ** C9: the uncle's colour in thing.c *)

(** C9: in [rb_insert], for a RED parent that is a left child, the right
    child [y] of the grandparent is dereferenced with no check: when that
    child is stored as NULL the loop body, and with it the function,
    faults, and when it is a BLACK sentinel node the read succeeds and
    cases 2 and 3 run.  On the same state [RBinsert1] finds the uncle equal
    to NIL, reads no colour and jumps to Case_I45. *)
Theorem uncle_colour_read_unchecked :
  ∀ nil T x xn P p G g,
    load T x = Done xn → parent xn = Some P →
    load T (Some P) = Done p → color p = RED → parent p = Some G →
    load T (Some G) = Done g → left g = Some P → x ≠ root T →
    (right g = NULL →
       rb_body nil T x = Fault
       ∧ (∀ fuel, rb_while nil (S fuel) T x = Fault)
       ∧ GetUncle T x = Done NIL
       ∧ loop_body T (Some P) x
         = (T' ← Case_I45 T x (Some P) (Some G); Done (Return T')))
    ∧ (∀ s, load T (right g) = Done s → color s = BLACK →
         rb_body nil T x = rb_case23 nil T x).
Proof.
  intros nil T x xn P p G g Hx HxP Hp Hc HpG Hg Hl Hroot.
  assert (Hp' : load T (parent xn) = Done p) by (by rewrite HxP).
  assert (Hg' : load T (parent p) = Done g) by (by rewrite HpG).
  assert (Hl' : parent xn = left g) by congruence.
  split.
  - intros Hr. split_and!.
    + by eapply rb_body_null_uncle.
    + intros fuel. by eapply rb_while_null_uncle.
    + by eapply loop_body_nil_uncle.
    + by eapply loop_body_nil_uncle.
  - intros s Hs Hcs. by eapply rb_body_sentinel_uncle.
Qed.

Lemma uncle_colour_read_unchecked_witness :
  (rb_body NULL ex_null_linked (Some 3%nat) = Fault
   ∧ rb_insert NULL 3 ex_null (Some 3%nat) = Fault
   ∧ ∃ T', RBinsert1 3 ex_null (Some 2%nat) (Some 3%nat) LEFT = Done T')
  ∧ (rb_body (Some 0%nat) ex_sentinel_linked (Some 3%nat)
     = rb_case23 (Some 0%nat) ex_sentinel_linked (Some 3%nat)
     ∧ ∃ T', rb_insert (Some 0%nat) 3 ex_sentinel (Some 3%nat) = Done T').
Proof.
  split.
  - destruct (uncle_colour_read_unchecked NULL ex_null_linked (Some 3%nat)
                (mkRBnode RED 1 (Some 2%nat) None None) 2%nat
                (mkRBnode RED 3 (Some 1%nat) (Some 3%nat) None) 1%nat
                (mkRBnode BLACK 5 None (Some 2%nat) None)) as [Hnull _];
      [vm_compute; reflexivity|reflexivity|vm_compute; reflexivity|reflexivity
      |reflexivity|vm_compute; reflexivity|reflexivity|discriminate|].
    split_and!; [by apply Hnull|vm_compute; reflexivity|].
    eexists. vm_compute. reflexivity.
  - destruct (uncle_colour_read_unchecked (Some 0%nat) ex_sentinel_linked (Some 3%nat)
                (mkRBnode RED 1 (Some 2%nat) (Some 0%nat) (Some 0%nat)) 2%nat
                (mkRBnode RED 3 (Some 1%nat) (Some 3%nat) (Some 0%nat)) 1%nat
                (mkRBnode BLACK 5 None (Some 2%nat) (Some 0%nat))) as [_ Hsent];
      [vm_compute; reflexivity|reflexivity|vm_compute; reflexivity|reflexivity
      |reflexivity|vm_compute; reflexivity|reflexivity|discriminate|].
    split; [|eexists; vm_compute; reflexivity].
    apply (Hsent (mkRBnode BLACK 0 None None None)); [vm_compute; reflexivity|reflexivity].
Defined.

(* ================================================================== *)
(** * Further properties of the two programs *)

(** X1: on a well-linked binary tree of any colouring and any key order,
    [RBinsert1] with a fresh node and an absent child slot returns without
    a fault, within one loop pass per two levels of the path; the tree it
    leaves is well linked, consists of the former nodes and the new one,
    and its in-order key sequence is the former one with the new key at
    the place of the slot. *)
Theorem RBinsert1_any_colouring fuel T ctx a n0 :
  holds T (fill ctx Leaf) → a ∉ dom (mem T) → (length ctx ≤ 2 * fuel)%nat →
  ∃ T' t',
    RBinsert1 fuel (mkRBtree (<[a := n0]> (mem T)) (root T))
      (ctx_par ctx) (Some a) (ctx_dir ctx) = Done T'
    ∧ holds T' t'
    ∧ addrs t' = {[a]} ∪ addrs (fill ctx Leaf)
    ∧ inorder (fill ctx Leaf) = ctx_left ctx ++ ctx_right ctx
    ∧ inorder t' = ctx_left ctx ++ key n0 :: ctx_right ctx.
Proof.
  intros H Ha Hfuel. unfold RBinsert1.
  destruct (RBinsert1_link_fill _ _ _ n0 H Ha) as (T1 & -> & H1).
  cbn [mbind outcome_bind].
  set (tN := Node RED Leaf a (key n0) Leaf) in *.
  assert (Hin : inorder (fill ctx tN) = ctx_left ctx ++ key n0 :: ctx_right ctx)
    by (by rewrite inorder_fill).
  assert (Had : addrs (fill ctx tN) = {[a]} ∪ addrs (fill ctx Leaf)).
  { rewrite !addrs_fill. unfold tN. simpl. set_solver. }
  assert (Hin0 : inorder (fill ctx Leaf) = ctx_left ctx ++ ctx_right ctx)
    by (by rewrite inorder_fill).
  destruct ctx as [|fP ctx]; cbn [ctx_par].
  - exists T1, tN. by split_and!.
  - destruct (RBinsert1_loop_any fuel T1 fP ctx tN) as (T' & t' & E & H' & Hin' & Had');
      [simpl in Hfuel; lia|done|done|].
    exists T', t'. split_and!; [done|done|congruence|done|congruence].
Qed.

Lemma RBinsert1_any_colouring_witness :
  ∃ T' t',
    RBinsert1 1 (mkRBtree (<[2%nat := mkRBnode BLACK 1 None None None]>
                            (mem ex_red_chain)) (root ex_red_chain))
      (Some 1%nat) (Some 2%nat) LEFT = Done T'
    ∧ holds T' t'
    ∧ addrs t' = {[2%nat]} ∪ addrs (Node RED (Node RED Leaf 1 3 Leaf) 0 5 Leaf)
    ∧ inorder (Node RED (Node RED Leaf 1 3 Leaf) 0 5 Leaf) = [3; 5]
    ∧ inorder t' = [1; 3; 5].
Proof.
  apply (RBinsert1_any_colouring 1 ex_red_chain
           [Frame LEFT RED 1 3 Leaf; Frame LEFT RED 0 5 Leaf] 2
           (mkRBnode BLACK 1 None None None)).
  - apply holds_check; vm_compute; reflexivity.
  - apply not_elem_of_dom. vm_compute. reflexivity.
  - simpl. lia.
Defined.

(** X2: after any sequence of insertions into a tree that satisfies
    invariants 1, 3, 4 and 5, the tree has one node more per inserted key
    and its height is at most twice the binary logarithm of the number of
    its nodes plus one, and one more when the root is RED. *)
Theorem insert_height_logarithmic ks T t n :
  holds T t → RB n t → sorted (inorder t) →
  ∃ T' t', insert_all ks T = Done T' ∧ holds T' t'
    ∧ length (inorder t') = (length ks + length (inorder t))%nat
    ∧ (height t' ≤ 2 * Nat.log2 (S (length (inorder t'))) + 1)%nat
    ∧ (rc t' = BLACK → height t' ≤ 2 * Nat.log2 (S (length (inorder t'))))%nat.
Proof.
  intros H HRB Hs.
  destruct (insert_all_spec ks T t n H HRB Hs) as (T' & t' & n' & E & H' & HRB' & _ & Hp).
  exists T', t'. split_and!; [done|done|..].
  - by rewrite Hp, length_app.
  - pose proof (RB_height_log _ _ HRB'). destruct (rc t'); lia.
  - intros Hc. pose proof (RB_height_log _ _ HRB'). rewrite Hc in *. lia.
Qed.

Lemma insert_height_logarithmic_witness :
  ∃ T' t', insert_all [5; 1; 4; 2; 3] empty_tree = Done T' ∧ holds T' t'
    ∧ length (inorder t') = 5%nat
    ∧ (height t' ≤ 2 * Nat.log2 (S (length (inorder t'))) + 1)%nat
    ∧ (rc t' = BLACK → height t' ≤ 2 * Nat.log2 (S (length (inorder t'))))%nat.
Proof.
  apply (insert_height_logarithmic [5; 1; 4; 2; 3] empty_tree Leaf 0).
  - apply holds_check; vm_compute; reflexivity.
  - constructor.
  - constructor.
Defined.

(** X3: [RBinsert1] on a tree that satisfies invariants 3 and 4 changes
    neither count of BLACK nodes by more than one.  The number of BLACK
    nodes on the paths from the root, the root included ([black_height]),
    stays or grows by one, and grows only when the root was RED before
    the call and is BLACK afterwards (Case_I6).  The black-height of the
    root as the glossary counts it, the root excluded
    ([black_height_below]), stays or grows by one, and grows only when the
    root was BLACK before the call and is RED afterwards (Case_I2). *)
Theorem RBinsert1_black_height fuel T ctx a n0 n :
  holds T (fill ctx Leaf) → a ∉ dom (mem T) → RB n (fill ctx Leaf) →
  (length ctx ≤ 2 * fuel)%nat →
  ∃ T' t' n' m m',
    RBinsert1 fuel (mkRBtree (<[a := n0]> (mem T)) (root T))
      (ctx_par ctx) (Some a) (ctx_dir ctx) = Done T'
    ∧ holds T' t'
    ∧ black_height (fill ctx Leaf) = Some n
    ∧ black_height t' = Some n' ∧ no_red_red t' = true
    ∧ (n' = n ∨ (n' = S n ∧ rc (fill ctx Leaf) = RED ∧ rc t' = BLACK))
    ∧ black_height_below (fill ctx Leaf) = Some m
    ∧ black_height_below t' = Some m'
    ∧ (m' = m ∨ (m' = S m ∧ rc (fill ctx Leaf) = BLACK ∧ rc t' = RED)).
Proof.
  intros H Ha HRB Hfuel. unfold RBinsert1.
  destruct (RBinsert1_link_fill _ _ _ n0 H Ha) as (T1 & -> & H1).
  cbn [mbind outcome_bind].
  assert (HN : RB 0 (Node RED Leaf a (key n0) Leaf)) by (by repeat constructor).
  assert (Hn : n = ctx_bh ctx 0) by exact (RB_fill_bh ctx Leaf 0 n RB_leaf HRB).
  destruct (RB_checks _ _ HRB) as [_ Hbh].
  pose proof (RB_below _ _ HRB) as Hm.
  destruct ctx as [|fP ctx]; cbn [ctx_par].
  - exists T1, (Node RED Leaf a (key n0) Leaf), O, O, O. simpl in *. subst n.
    split_and!; try done; by left.
  - pose proof HRB as HRB0.
    apply RBC_unfill in HRB as (n' & HL & HC). inversion HL; subst n'.
    destruct (RBinsert1_loop_bh fuel T1 fP ctx (Node RED Leaf a (key n0) Leaf) O)
      as (T' & t' & nb' & E & H' & HRB' & Hne' & Hcase);
      [simpl in Hfuel; lia|done|done|done|done|].
    destruct (RB_checks _ _ HRB') as [Hnr Hbh'].
    pose proof (RB_below _ _ HRB') as Hm'.
    rewrite (rc_fill_cons fP ctx (Node RED Leaf a (key n0) Leaf) Leaf) in Hcase.
    rewrite <- Hn in Hcase.
    eexists T', t', nb', _, _. split_and!; [done|done|done|done|done| |exact Hm|exact Hm'|].
    + destruct Hcase as [[? _]|?]; [by left|by right].
    + destruct (fill (fP :: ctx) Leaf) as [|c0 l0 a0 k0 r0] eqn:E0;
        [by destruct (fill_cons_node fP ctx Leaf)|].
      destruct t' as [|c1 l1 a1 k1 r1]; [done|]. simpl in Hcase.
      destruct Hcase as [(-> & [->|(-> & ->)])|(-> & -> & ->)].
      * by left.
      * right. inversion HRB0 as [| |? ? ? ? n4 ? ? Hn4]. done.
      * by left.
Qed.

Lemma RBinsert1_black_height_witness :
  (∃ T' t',
     RBinsert1 1 (mkRBtree (<[1%nat := mkRBnode BLACK 2 None None None]>
                             (mem ex_red_root)) (root ex_red_root))
       (Some 0%nat) (Some 1%nat) RIGHT = Done T'
     ∧ holds T' t'
     ∧ black_height (Node RED Leaf 0 1 Leaf) = Some 0%nat
     ∧ black_height t' = Some 1%nat
     ∧ black_height_below (Node RED Leaf 0 1 Leaf) = Some 0%nat
     ∧ black_height_below t' = Some 0%nat)
  ∧ (∃ T' t',
     RBinsert1 2 (mkRBtree (<[3%nat := mkRBnode BLACK 4 None None None]>
                             (mem ex_red_uncle_null)) (root ex_red_uncle_null))
       (Some 2%nat) (Some 3%nat) RIGHT = Done T'
     ∧ holds T' t'
     ∧ black_height (Node BLACK (Node RED Leaf 0 1 Leaf) 1 2 (Node RED Leaf 2 3 Leaf))
       = Some 1%nat
     ∧ black_height t' = Some 1%nat
     ∧ black_height_below
         (Node BLACK (Node RED Leaf 0 1 Leaf) 1 2 (Node RED Leaf 2 3 Leaf))
       = Some 0%nat
     ∧ black_height_below t' = Some 1%nat).
Proof.
  split.
  - destruct (RBinsert1_black_height 1 ex_red_root [Frame RIGHT RED 0 1 Leaf] 1
                (mkRBnode BLACK 2 None None None) 0)
      as (T' & t' & n' & m & m' & E & H & Hb & Hb' & _ & _ & Hm & Hm' & _).
    + apply holds_check; vm_compute; reflexivity.
    + apply not_elem_of_dom. vm_compute. reflexivity.
    + repeat constructor.
    + simpl. lia.
    + exists T', t'. pose proof (holds_tree_of _ _ H) as Ht.
      vm_compute in E. injection E as <-. vm_compute in Ht. injection Ht as <-.
      split_and!; [reflexivity|exact H|reflexivity..].
  - destruct (RBinsert1_black_height 2 ex_red_uncle_null
                [Frame RIGHT RED 2 3 Leaf;
                 Frame RIGHT BLACK 1 2 (Node RED Leaf 0 1 Leaf)] 3
                (mkRBnode BLACK 4 None None None) 1)
      as (T' & t' & n' & m & m' & E & H & Hb & Hb' & _ & _ & Hm & Hm' & _).
    + apply holds_check; vm_compute; reflexivity.
    + apply not_elem_of_dom. vm_compute. reflexivity.
    + repeat constructor.
    + simpl. lia.
    + exists T', t'. pose proof (holds_tree_of _ _ H) as Ht.
      vm_compute in E. injection E as <-. vm_compute in Ht. injection Ht as <-.
      split_and!; [reflexivity|exact H|reflexivity..].
Defined.

(** X4: on a red-black tree with a BLACK root whose absent children are a
    BLACK sentinel, [rb_insert] of an allocated node returns whenever every
    RED parent its loop meets is a left child, and then leaves a red-black
    tree with a BLACK root that holds the former keys and the new one;
    with ordered keys all five invariants hold afterwards. *)
Theorem rb_insert_left_parents s fuel T t n a xn :
  sholds s T t → RB n t → rc t = BLACK →
  mem T !! a = Some xn → a ∉ addrs t → a ≠ s →
  (height t < fuel)%nat →
  left_ok (ins_path (key xn) t []) = true →
  ∃ T' t' n', rb_insert (Some s) fuel T (Some a) = Done T'
    ∧ sholds s T' t' ∧ RB n' t' ∧ rc t' = BLACK
    ∧ inorder t' ≡ₚ key xn :: inorder t
    ∧ (sorted (inorder t) →
       sorted (inorder t') ∧ root_black t' = true ∧ balanced t' = true).
Proof.
  intros H HRB Hrc Ha Hna Has Hfuel Hok.
  destruct (srb_insert_correct s fuel T t n a xn H HRB Hrc Ha Hna Has Hfuel Hok)
    as (T' & t' & n' & E & H' & HRB' & Hrc' & Hin).
  exists T', t', n'. split_and!; [done..| |].
  - rewrite Hin, inorder_fill. simpl.
    pose proof (inorder_fill (ins_path (key xn) t []) Leaf) as E'.
    rewrite ins_path_fill in E'. simpl in E'. rewrite E'.
    by rewrite Permutation_middle.
  - intros Hs.
    assert (Hs' : sorted (inorder t')) by (rewrite Hin; by apply ins_path_sorted).
    split_and!; [done|by apply bool_decide_eq_true|].
    unfold balanced. destruct (RB_checks _ _ HRB') as [-> ->].
    by rewrite (sorted_bst_ordered _ Hs').
Qed.

Lemma rb_insert_left_parents_witness :
  ∃ T' t' n', rb_insert (Some 0%nat) 3 ex_sentinel_inner (Some 3%nat) = Done T'
    ∧ sholds 0 T' t' ∧ RB n' t' ∧ rc t' = BLACK
    ∧ inorder t' ≡ₚ 4 :: inorder ex_sentinel_tree
    ∧ (sorted (inorder ex_sentinel_tree) →
       sorted (inorder t') ∧ root_black t' = true ∧ balanced t' = true).
Proof.
  apply (rb_insert_left_parents 0 3 ex_sentinel_inner ex_sentinel_tree 1 3
           (mkRBnode BLACK 4 None None None)).
  - exact ex_sentinel_inner_holds.
  - repeat constructor.
  - reflexivity.
  - vm_compute; reflexivity.
  - simpl. set_solver.
  - discriminate.
  - simpl. lia.
  - reflexivity.
Defined.

(** X5: with the same storage, when the loop of [rb_insert] meets a RED
    parent that is not a left child, [rb_insert] does not return, whatever
    the budget [fuel]: the criterion [left_ok] of X4 is exact. *)
Theorem rb_insert_right_parent_diverges s fuel T t a xn :
  sholds s T t → mem T !! a = Some xn → a ∉ addrs t → a ≠ s →
  left_ok (ins_path (key xn) t []) = false →
  rb_insert (Some s) fuel T (Some a) = Timeout.
Proof.
  intros H Ha Hna Has Hok. by eapply srb_insert_diverges.
Qed.

Lemma rb_insert_right_parent_diverges_witness :
  rb_insert (Some 0%nat) 1000 ex_deep (Some 8%nat) = Timeout.
Proof.
  apply (rb_insert_right_parent_diverges 0 1000 ex_deep ex_deep_tree 8
           (mkRBnode BLACK 11 None None None)).
  - exact ex_deep_holds.
  - vm_compute; reflexivity.
  - simpl. set_solver.
  - discriminate.
  - reflexivity.
Defined.

(** X6: with the same storage, [rb_insert] of a node whose key is smaller
    than every key of a red-black tree with a BLACK root returns a
    red-black tree with a BLACK root whose in-order key sequence is the new
    key followed by the former sequence. *)
Theorem rb_insert_new_minimum s fuel T t n a xn :
  sholds s T t → RB n t → rc t = BLACK →
  mem T !! a = Some xn → a ∉ addrs t → a ≠ s →
  (height t < fuel)%nat →
  Forall (λ x, key xn < x) (inorder t) →
  ∃ T' t' n', rb_insert (Some s) fuel T (Some a) = Done T'
    ∧ sholds s T' t' ∧ RB n' t' ∧ rc t' = BLACK
    ∧ inorder t' = key xn :: inorder t.
Proof.
  intros H HRB Hrc Ha Hna Has Hfuel Hmin.
  pose proof (ins_path_min (key xn) t [] Hmin ltac:(constructor)) as Hleft.
  destruct (srb_insert_correct s fuel T t n a xn H HRB Hrc Ha Hna Has Hfuel)
    as (T' & t' & n' & E & H' & HRB' & Hrc' & Hin).
  { by eapply left_ok_all_left. }
  exists T', t', n'. split_and!; [done..|].
  rewrite Hin, inorder_fill, (ctx_left_all_left _ Hleft). simpl.
  pose proof (inorder_fill (ins_path (key xn) t []) Leaf) as E'.
  rewrite ins_path_fill, (ctx_left_all_left _ Hleft) in E'. simpl in E'.
  by rewrite E'.
Qed.

Lemma rb_insert_new_minimum_witness :
  ∃ T' t' n', rb_insert (Some 0%nat) 3 ex_sentinel (Some 3%nat) = Done T'
    ∧ sholds 0 T' t' ∧ RB n' t' ∧ rc t' = BLACK
    ∧ inorder t' = [1; 3; 5].
Proof.
  apply (rb_insert_new_minimum 0 3 ex_sentinel ex_sentinel_tree 1 3
           (mkRBnode BLACK 1 None None None)).
  - exact ex_sentinel_holds.
  - repeat constructor.
  - reflexivity.
  - vm_compute; reflexivity.
  - simpl. set_solver.
  - discriminate.
  - simpl. lia.
  - simpl. repeat constructor; lia.
Defined.

(** X7: the loop of [rb_insert] relies on a BLACK root: when the parent of
    the current node is RED and has no parent itself, the loop body reads
    a field of the missing grandparent and faults, for every way of
    storing absent children; [RBinsert1] in the same state goes to
    Case_I6. *)
Theorem rb_insert_red_root_faults nil fuel T x xn p :
  x ≠ root T → load T x = Done xn → load T (parent xn) = Done p →
  color p = RED → parent p = NULL →
  rb_while nil (S fuel) T x = Fault
  ∧ loop_body T (parent xn) x = (T' ← Case_I6 T (parent xn); Done (Return T')).
Proof.
  intros Hr Hx Hp Hc Hg. split.
  - cbn [rb_while]. rewrite decide_False by done.
    rewrite Hx. cbn [mbind outcome_bind]. rewrite Hp. cbn [mbind outcome_bind].
    rewrite decide_True by done. unfold rb_body.
    rewrite Hx. cbn [mbind outcome_bind]. rewrite Hp. cbn [mbind outcome_bind].
    by rewrite Hg.
  - unfold loop_body, GetParent. rewrite Hp. cbn [mbind outcome_bind].
    rewrite decide_False by (by rewrite Hc). by rewrite Hg.
Qed.

Lemma rb_insert_red_root_faults_witness :
  rb_while (Some 9%nat) 1 exI6 (Some 1%nat) = Fault
  ∧ loop_body exI6 (Some 0%nat) (Some 1%nat)
    = (T' ← Case_I6 exI6 (Some 0%nat); Done (Return T')).
Proof.
  apply (rb_insert_red_root_faults (Some 9%nat) 0 exI6 (Some 1%nat)
           (mkRBnode RED 2 (Some 0%nat) None None)
           (mkRBnode RED 1 None None (Some 1%nat))).
  - discriminate.
  - vm_compute; reflexivity.
  - vm_compute; reflexivity.
  - reflexivity.
  - reflexivity.
Defined.

(** X8: whatever the number of passes, every pass of the loop of
    [RBinsert1] but the last only recolours: the result is reached from a
    state with the links of the start state either by recolouring alone or
    by one run of the code at label Case_I45 (one rotation, or two for an
    inner grandchild). *)
Theorem RBinsert1_rotates_last : ∀ fuel T P N T',
  RBinsert1_loop fuel T P N = Done T' →
  ∃ Tm, same_links T Tm
    ∧ (same_links Tm T' ∨ ∃ Nm Pm Gm, Case_I45 Tm Nm Pm Gm = Done T').
Proof.
  induction fuel as [|fuel IH]; intros T P N T' H; [done|].
  cbn [RBinsert1_loop] in H.
  destruct (loop_body T P N) as [[T1|T1 N1]| |] eqn:E; cbn [mbind outcome_bind] in H;
    try done.
  - injection H as <-. exists T. split; [done|].
    destruct (loop_body_return_inv _ _ _ _ E) as [->|[E6|[G E45]]].
    + by left.
    + left. by eapply Case_I6_same_links.
    + right. by exists N, P, G.
  - destruct (loop_body_iterate_inv _ _ _ _ _ E)
      as (p0 & U0 & u0 & _ & _ & _ & _ & _ & _ & _ & _ & HL).
    destruct (GetParent T1 N1) as [[P1|]| |]; cbn [mbind outcome_bind] in H; try done.
    + destruct (IH _ _ _ _ H) as (Tm & HL' & Hcase).
      exists Tm. split; [by etrans|done].
    + injection H as <-. exists T1. split; [done|by left].
Qed.

Lemma RBinsert1_rotates_last_witness :
  ∃ Tm, same_links exI1 Tm
    ∧ (same_links Tm (mkRBtree
         (mem_of [(0%nat, mkRBnode BLACK 1 (Some 1%nat) None None);
                  (1%nat, mkRBnode RED 2 None (Some 0%nat) (Some 2%nat));
                  (2%nat, mkRBnode BLACK 3 (Some 1%nat) None (Some 3%nat));
                  (3%nat, mkRBnode RED 4 (Some 2%nat) None None)]) (Some 1%nat))
       ∨ ∃ Nm Pm Gm, Case_I45 Tm Nm Pm Gm
           = Done (mkRBtree
         (mem_of [(0%nat, mkRBnode BLACK 1 (Some 1%nat) None None);
                  (1%nat, mkRBnode RED 2 None (Some 0%nat) (Some 2%nat));
                  (2%nat, mkRBnode BLACK 3 (Some 1%nat) None (Some 3%nat));
                  (3%nat, mkRBnode RED 4 (Some 2%nat) None None)]) (Some 1%nat))).
Proof.
  apply (RBinsert1_rotates_last 1 exI1 (Some 2%nat) (Some 3%nat)).
  vm_compute. reflexivity.
Defined.

(** X9: [RBinsert1] reads and writes nodes of the tree and the new node
    only: every other allocated node (a node of another tree in the same
    memory, a node not linked anywhere) has the same record afterwards. *)
Theorem RBinsert1_frame fuel T ctx a n0 :
  holds T (fill ctx Leaf) → a ∉ dom (mem T) → (length ctx ≤ 2 * fuel)%nat →
  ∃ T',
    RBinsert1 fuel (mkRBtree (<[a := n0]> (mem T)) (root T))
      (ctx_par ctx) (Some a) (ctx_dir ctx) = Done T'
    ∧ ∀ b, b ∉ addrs (fill ctx Leaf) → b ≠ a → mem T' !! b = mem T !! b.
Proof.
  intros H Ha Hfuel.
  set (t := fill ctx Leaf) in *.
  set (T0 := mkRBtree (restrict (addrs t) (mem T)) (root T)).
  assert (H0 : holds T0 t) by (by apply holds_restrict).
  assert (Ha0 : a ∉ dom (mem T0)).
  { intros Hin. apply restrict_dom in Hin. apply Ha. by apply (holds_dom _ _ H). }
  assert (∃ T0', RBinsert1 fuel (mkRBtree (<[a := n0]> (mem T0)) (root T0))
                   (ctx_par ctx) (Some a) (ctx_dir ctx) = Done T0') as [T0' E0].
  { unfold RBinsert1.
    destruct (RBinsert1_link_fill _ _ _ n0 H0 Ha0) as (T1 & -> & H1).
    cbn [mbind outcome_bind]. destruct ctx as [|fP ctx']; cbn [ctx_par]; [eauto|].
    destruct (RBinsert1_loop_any fuel T1 fP ctx' (Node RED Leaf a (key n0) Leaf))
      as (T' & _ & E & _); [simpl in Hfuel; lia|done|done|eauto]. }
  pose proof (RBinsert1_same_nodes _ _ _ _ _ _ E0) as [Hdom _].
  apply (RBinsert1_ext (mem T)) in E0. unfold ext at 1 in E0. cbn [mem root T0] in E0.
  rewrite <- insert_union_l, restrict_union in E0.
  exists (ext (mem T) T0'). split; [exact E0|].
  intros b Hb Hne. unfold ext. cbn [mem]. apply lookup_union_r.
  apply not_elem_of_dom. rewrite Hdom. cbn [mem T0]. rewrite dom_insert_L.
  intros [->%elem_of_singleton|Hin%restrict_dom]%elem_of_union; done.
Qed.

Lemma RBinsert1_frame_witness :
  ∃ T',
    RBinsert1 1 (mkRBtree (<[4%nat := mkRBnode BLACK 1 None None None]> (mem ex_null))
                   (root ex_null))
      (Some 2%nat) (Some 4%nat) LEFT = Done T'
    ∧ ∀ b, b ∉ addrs (Node BLACK (Node RED Leaf 2 3 Leaf) 1 5 Leaf) → b ≠ 4%nat →
        mem T' !! b = mem ex_null !! b.
Proof.
  apply (RBinsert1_frame 1 ex_null
           [Frame LEFT RED 2 3 Leaf; Frame LEFT BLACK 1 5 Leaf] 4
           (mkRBnode BLACK 1 None None None)).
  - apply holds_check; vm_compute; reflexivity.
  - apply not_elem_of_dom. vm_compute. reflexivity.
  - simpl. lia.
Defined.

(** X10: started on the same red-black tree with a BLACK root (stored with
    a sentinel for [rb_insert], with NULL for [RBinsert1]), with the new
    node at the same address and at the absent child where the descent for
    its key ends, and with every RED parent on the way a left child, both
    programs return, and [rb_insert] leaves exactly the tree that
    [RBinsert1] leaves, with the root coloured BLACK. *)
Theorem rb_insert_agrees_with_RBinsert1 s fuel Tc Tp t a xn n0 :
  sholds s Tc t → holds Tp t → rc t = BLACK →
  mem Tc !! a = Some xn → a ∉ addrs t → a ≠ s →
  a ∉ dom (mem Tp) → key n0 = key xn →
  (height t < fuel)%nat →
  left_ok (ins_path (key xn) t []) = true →
  ∃ Tc' Tp' t',
    rb_insert (Some s) fuel Tc (Some a) = Done Tc'
    ∧ RBinsert1 fuel (mkRBtree (<[a := n0]> (mem Tp)) (root Tp))
        (ctx_par (ins_path (key xn) t [])) (Some a)
        (ctx_dir (ins_path (key xn) t [])) = Done Tp'
    ∧ holds Tp' t' ∧ sholds s Tc' (recolor BLACK t').
Proof.
  intros Hc Hp Hrc Ha Hna Has Hap Hk Hfuel Hok.
  set (ctx := ins_path (key xn) t []) in *.
  assert (Hfill : fill ctx Leaf = t) by apply ins_path_fill.
  unfold rb_insert, RBinsert1.
  destruct (tree_insert_fill s fuel Tc t a xn Hc Ha Hna Has) as (Tc1 & -> & Hc1); [lia|].
  cbn [mbind outcome_bind].
  destruct (srecolor_fill _ _ _ _ RED _ _ _ _ Hc1) as (Tc2 & -> & Hc2).
  cbn [mbind outcome_bind].
  rewrite <- Hfill in Hp.
  destruct (RBinsert1_link_fill _ _ _ n0 Hp Hap) as (Tp1 & -> & Hp1).
  cbn [mbind outcome_bind]. rewrite Hk in Hp1.
  destruct (loops_agree s fuel Tc2 Tp1 ctx (Node RED Leaf a (key xn) Leaf))
    as (Tc' & Tp' & t' & E1 & E2 & Hp' & Hc'); [|done|done|done| |done|].
  - pose proof (height_fill ctx Leaf). rewrite Hfill in *. lia.
  - intros Hcne. destruct ctx as [|f ctx']; [done|]. rewrite <- Hrc, <- Hfill.
    apply rc_fill_cons.
  - exists Tc', Tp', t'. split_and!; [done| |done|done].
    destruct ctx as [|f ctx']; exact E2.
Qed.

Lemma rb_insert_agrees_with_RBinsert1_witness :
  ∃ Tc' Tp' t',
    rb_insert (Some 0%nat) 3 ex_sentinel_inner (Some 3%nat) = Done Tc'
    ∧ RBinsert1 3 (mkRBtree (<[3%nat := mkRBnode RED 4 None None None]>
                               (delete 3%nat (mem ex_null))) (root ex_null))
        (Some 2%nat) (Some 3%nat) RIGHT = Done Tp'
    ∧ holds Tp' t' ∧ sholds 0 Tc' (recolor BLACK t').
Proof.
  unshelve epose proof
    (rb_insert_agrees_with_RBinsert1 0 3 ex_sentinel_inner
       (mkRBtree (delete 3%nat (mem ex_null)) (root ex_null))
       ex_sentinel_tree 3 (mkRBnode BLACK 4 None None None)
       (mkRBnode RED 4 None None None) _ _ _ _ _ _ _ _ _ _) as H.
  - exact ex_sentinel_inner_holds.
  - apply holds_check; vm_compute; reflexivity.
  - reflexivity.
  - vm_compute; reflexivity.
  - simpl. set_solver.
  - discriminate.
  - apply not_elem_of_dom. vm_compute. reflexivity.
  - reflexivity.
  - simpl. lia.
  - reflexivity.
  - exact H.
Defined.

(** X11: [RBinsert1] never reads a key: run on the same memory with the
    key of every node replaced by any function of it, it returns the same
    memory with the keys replaced in the same way; the colours, links and
    root reference it leaves do not depend on the keys. *)
Theorem RBinsert1_ignores_keys (f : Z → Z) fuel T P N dir T' :
  RBinsert1 fuel T P N dir = Done T' →
  RBinsert1 fuel (kmap f T) P N dir = Done (kmap f T').
Proof.
  unfold RBinsert1. intros H.
  destruct (RBinsert1_link T P N dir) as [T1| |] eqn:El; try done.
  rewrite (RBinsert1_link_kmap f _ _ _ _ _ El). cbn [mbind outcome_bind] in *.
  destruct P; [by apply RBinsert1_loop_kmap|by simplify_eq].
Qed.

Lemma RBinsert1_ignores_keys_witness :
  RBinsert1 1 (kmap (λ _, 0) exI4) (Some 1%nat) (Some 2%nat) LEFT
  = Done (kmap (λ _, 0)
            (mkRBtree (mem_of [(0%nat, mkRBnode RED 1 (Some 2%nat) None None);
                               (1%nat, mkRBnode RED 3 (Some 2%nat) None None);
                               (2%nat, mkRBnode BLACK 2 None (Some 0%nat) (Some 1%nat))])
               (Some 2%nat))).
Proof.
  apply (RBinsert1_ignores_keys (λ _, 0) 1 exI4 (Some 1%nat) (Some 2%nat) LEFT).
  vm_compute. reflexivity.
Defined.

(** X12: on a red-black tree with a BLACK root whose absent children are a
    BLACK sentinel, [rb_insert] of an allocated node never faults, whatever
    the key and the budget: every pointer it follows is a node of the tree
    or the sentinel. *)
Theorem rb_insert_never_faults s fuel T t n a xn :
  sholds s T t → RB n t → rc t = BLACK →
  mem T !! a = Some xn → a ∉ addrs t → a ≠ s →
  rb_insert (Some s) fuel T (Some a) ≠ Fault.
Proof.
  intros H HRB Hrc Ha Hna Has.
  destruct (left_ok (ins_path (key xn) t [])) eqn:Hok.
  2:{ by rewrite (srb_insert_diverges s fuel T t a xn H Ha Hna Has Hok). }
  unfold rb_insert.
  destruct (tree_insert_cases s fuel T t a xn H Ha Hna Has) as [(T1 & -> & H1)|[-> _]];
    [|done].
  cbn [mbind outcome_bind].
  destruct (srecolor_fill _ _ _ _ RED _ _ _ _ H1) as (T2 & -> & H2).
  cbn [mbind outcome_bind]. intros HF.
  set (ctx := ins_path (key xn) t []) in *.
  assert (Hfill : fill ctx Leaf = t) by apply ins_path_fill.
  apply (rb_while_mono_add (Some s) (S (length ctx))) in HF; [|done].
  rewrite <- Hfill in HRB. apply RBC_unfill in HRB as (n' & HL & HC).
  inversion HL; subst n'.
  destruct (srb_while_correct s (S (length ctx) + fuel) T2 ctx
              (Node RED Leaf a (key xn) Leaf) O) as (T' & t' & nb' & E & _);
    try done.
  - lia.
  - by repeat constructor.
  - intros Hc. destruct ctx as [|f ctx']; [done|]. rewrite <- Hrc, <- Hfill.
    apply rc_fill_cons.
  - cbn [root_ptr] in E. congruence.
Qed.

Lemma rb_insert_never_faults_witness :
  rb_insert (Some 0%nat) 1 ex_deep (Some 8%nat) ≠ Fault.
Proof.
  apply (rb_insert_never_faults 0 1 ex_deep ex_deep_tree 2 8
           (mkRBnode BLACK 11 None None None)).
  - exact ex_deep_holds.
  - unfold ex_deep_tree. repeat (constructor; try done).
  - reflexivity.
  - vm_compute; reflexivity.
  - simpl. set_solver.
  - discriminate.
Defined.

(** X13: inserting, one after the other with [rb_insert], keys each of
    which is smaller than all keys before it, into a red-black tree with a
    BLACK root and ordered keys (absent children stored as a sentinel):
    every insertion returns, and the final tree satisfies invariants 3 and
    4, has a BLACK root and holds the inserted keys in reverse order of
    insertion, followed by the former keys, in order. *)
Theorem rb_insert_descending s : ∀ ks T t n,
  sholds s T t → RB n t → rc t = BLACK → sorted (inorder t) →
  StronglySorted (λ x y, y < x) ks →
  Forall (λ k, Forall (λ x, k < x) (inorder t)) ks →
  ∃ T' t' n', c_insert_all s ks T = Done T'
    ∧ sholds s T' t' ∧ RB n' t' ∧ rc t' = BLACK
    ∧ inorder t' = rev ks ++ inorder t
    ∧ sorted (inorder t') ∧ root_black t' = true ∧ balanced t' = true.
Proof.
  induction ks as [|k ks IH]; intros T t n H HRB Hrc Hs Hks Hmin.
  - exists T, t, n. split_and!; try done.
    + by apply bool_decide_eq_true.
    + unfold balanced. destruct (RB_checks _ _ HRB) as [-> ->].
      by rewrite (sorted_bst_ordered _ Hs).
  - apply StronglySorted_cons in Hks as [Hk Hks].
    apply Forall_cons in Hmin as [Hmin1 Hmin].
    destruct (c_insert_min s k T t n H HRB Hrc Hmin1)
      as (T1 & t1 & n1 & E1 & H1 & HRB1 & Hrc1 & Hin1).
    destruct (IH T1 t1 n1 H1 HRB1 Hrc1) as (T' & t' & n' & E & H' & HRB' & Hrc' & Hin & Hrest);
      [| done | |].
    + rewrite Hin1. unfold sorted. apply StronglySorted_cons. split; [|done].
      eapply Forall_impl; [exact Hmin1|]. simpl. intros; lia.
    + rewrite Hin1. rewrite Forall_forall in Hk, Hmin. apply Forall_forall.
      intros k' Hk'. constructor; [by apply Hk|by apply Hmin].
    + exists T', t', n'. cbn [c_insert_all]. rewrite E1. cbn [mbind outcome_bind].
      split_and!; [done..| |apply Hrest|apply Hrest|apply Hrest].
      rewrite Hin, Hin1. simpl. by rewrite <- app_assoc.
Qed.

Lemma rb_insert_descending_witness :
  ∃ T' t' n', c_insert_all 0 [3; 2; 1] ex_sentinel_empty = Done T'
    ∧ sholds 0 T' t' ∧ RB n' t' ∧ rc t' = BLACK
    ∧ inorder t' = [1; 2; 3]
    ∧ sorted (inorder t') ∧ root_black t' = true ∧ balanced t' = true.
Proof.
  apply (rb_insert_descending 0 [3; 2; 1] ex_sentinel_empty Leaf 0).
  - split; simpl; try done. eexists. split; [vm_compute; reflexivity|reflexivity].
  - constructor.
  - reflexivity.
  - constructor.
  - repeat (constructor; try lia).
  - repeat constructor.
Defined.

